(** * ndarray.h: the fixed-rank dense array template, embedded in Rocq

    The C++ class [ndarray<dtype, D>] keeps three heap buffers behind raw
    pointers ([_shape], [_stride], [head]).  The embedding below keeps that
    structure: a store of objects (three nullable pointers each), a heap of
    [size_t] buffers and a heap of [dtype] buffers, and every member
    function as a computation in a small state-and-failure monad.

    [size_t] is [int32_t] in this class, so all index arithmetic is done
    on [Z] with the 32-bit two's-complement wrap-around written out. *)

From stdpp Require Import gmap list strings.
From Stdlib Require Import ZArith Lia.

Local Open Scope Z_scope.

(** ** 32-bit signed arithmetic ([using size_t = int32_t]) *)

Module Int32.

Definition modulus : Z := 2 ^ 32.
Definition half : Z := 2 ^ 31.
Definition max_int : Z := half - 1.

Definition wrap (z : Z) : Z := (z + half) mod modulus - half.

Definition add (a b : Z) : Z := wrap (a + b).
Definition sub (a b : Z) : Z := wrap (a - b).
Definition mul (a b : Z) : Z := wrap (a * b).
Definition neg (a : Z) : Z := wrap (- a).

Definition in_range (z : Z) : Prop := - half <= z <= max_int.

(** C++ promotes [bool] to [int]: [false] is 0 and [true] is 1. *)
Definition of_bool (b : bool) : Z := if b then 1 else 0.

(** Congruence modulo [2^32], for rewriting under [+], [-] and [*]. *)
Definition eqm (a b : Z) : Prop := a mod modulus = b mod modulus.

End Int32.

(** ** Outcomes of a member function

    A call either returns, or prints a diagnostic and calls [exit(0)], or
    leaves the defined behaviour of C++ (a null or out-of-bounds access, a
    division by zero, a quotient that [int32_t] cannot hold), or throws
    from [new] on a negative length. *)

Inductive fault : Set :=
| NullDeref
| OutOfBounds
| DivByZero
| IntOverflow
| BadArrayNewLength
| BadDelete
| NoObject.

Inductive outcome (A : Type) : Type :=
| Done (a : A)
| Exit (msg : string)
| Fault (f : fault).

Arguments Done {A} a.
Arguments Exit {A} msg.
Arguments Fault {A} f.

Definition M (St A : Type) : Type := St -> outcome (A * St).

Definition ret {St A} (a : A) : M St A := fun s => Done (a, s).

Definition bind {St A B} (m : M St A) (k : A -> M St B) : M St B :=
  fun s =>
    match m s with
    | Done (a, s') => k a s'
    | Exit msg => Exit msg
    | Fault f => Fault f
    end.

Definition raise {St A} (f : fault) : M St A := fun _ => Fault f.
Definition exit {St A} (msg : string) : M St A := fun _ => Exit msg.

Declare Scope cpp_scope.
Delimit Scope cpp_scope with cpp.
Notation "'let*' x ':=' m 'in' k" := (bind m (fun x => k))
  (at level 10, x name, m at level 100, k at level 200, only parsing) : cpp_scope.
Notation "m ';;' k" := (bind m (fun _ => k))
  (at level 100, k at level 200, right associativity, only parsing) : cpp_scope.

(** [for (int i = 0; i < n; i++) acc = body(i, acc)]: a loop that
    carries a local variable. *)
Fixpoint fold_from {St A} (i : nat) (n : nat) (body : nat -> A -> M St A) (acc : A) : M St A :=
  match n with
  | O => ret acc
  | S n' => bind (body i acc) (fun acc' => fold_from (S i) n' body acc')
  end.

(** [for (int i = 0; i < n; i++) body(i)] *)
Fixpoint for_from {St} (i : nat) (n : nat) (body : nat -> M St unit) : M St unit :=
  match n with
  | O => ret tt
  | S n' => bind (body i) (fun _ => for_from (S i) n' body)
  end.

Definition for_loop {St} (n : nat) (body : nat -> M St unit) : M St unit :=
  for_from 0 n body.

(** Array subscript with a signed index. *)
Definition idx {A} (l : list A) (i : Z) : option A :=
  if decide (0 <= i) then l !! Z.to_nat i else None.

Definition upd {A} (l : list A) (i : Z) (v : A) : list A := <[Z.to_nat i := v]> l.

Definition addr := nat.
Definition loc := nat.

(** The three data members of an [ndarray]; [None] is [nullptr]. *)
Record ndarray : Set := Ndarray {
  _shape : option loc;
  _stride : option loc;
  head : option loc
}.

#[global] Instance ndarray_eq_dec : EqDecision ndarray.
Proof. solve_decision. Defined.

Section Ndarray.

(** [template <typename dtype, int D>] with the arithmetic the class
    uses on [dtype]: unary minus, [+] and multiplication by the
    integer coefficient of [pm<N>].  The class asserts [D > 0]; what is
    proved below holds at every rank, so the assertion is not assumed. *)
Context {dtype : Type}.
Variable dneg : dtype -> dtype.
Variable dadd : dtype -> dtype -> dtype.
Variable dscale : Z -> dtype -> dtype.
Variable D : nat.

(** What a buffer holds right after [new T[n]]: indeterminate values,
    which may differ from one allocation and one cell to the next. *)
Variable indet_int : loc -> nat -> Z.
Variable indet : loc -> nat -> dtype.

Record state : Type := State {
  objs : gmap addr ndarray;
  ints : gmap loc (list Z);
  elems : gmap loc (list dtype)
}.

Local Abbreviation M := (M state).
Local Open Scope cpp_scope.

(** *** Memory primitives *)

Definition obj (a : addr) : M ndarray := fun s =>
  match objs s !! a with
  | Some o => Done (o, s)
  | None => Fault NoObject
  end.

Definition set_obj (a : addr) (o : ndarray) : M unit := fun s =>
  match objs s !! a with
  | Some _ => Done (tt, State (<[a := o]> (objs s)) (ints s) (elems s))
  | None => Fault NoObject
  end.

(** Storage for a new object (a declared variable or a temporary). *)
Definition new_obj (o : ndarray) : M addr := fun s =>
  let a := fresh (dom (objs s)) in
  Done (a, State (<[a := o]> (objs s)) (ints s) (elems s)).

Definition free_obj (a : addr) : M unit := fun s =>
  Done (tt, State (delete a (objs s)) (ints s) (elems s)).

(** [new size_t[n]] *)
Definition new_ints (n : nat) : M (option loc) := fun s =>
  let l := fresh (dom (ints s)) in
  Done (Some l, State (objs s) (<[l := map (indet_int l) (seq 0 n)]> (ints s)) (elems s)).

(** [new dtype[n]] with [n] an [int32_t]: a negative length throws. *)
Definition new_elems (n : Z) : M (option loc) := fun s =>
  if decide (n < 0) then Fault BadArrayNewLength
  else
    let l := fresh (dom (elems s)) in
    Done (Some l,
          State (objs s) (ints s) (<[l := map (indet l) (seq 0 (Z.to_nat n))]> (elems s))).

Definition ld_int (p : option loc) (i : Z) : M Z := fun s =>
  match p with
  | None => Fault NullDeref
  | Some l =>
      match ints s !! l with
      | None => Fault OutOfBounds
      | Some b =>
          match idx b i with
          | Some v => Done (v, s)
          | None => Fault OutOfBounds
          end
      end
  end.

Definition st_int (p : option loc) (i : Z) (v : Z) : M unit := fun s =>
  match p with
  | None => Fault NullDeref
  | Some l =>
      match ints s !! l with
      | None => Fault OutOfBounds
      | Some b =>
          match idx b i with
          | Some _ => Done (tt, State (objs s) (<[l := upd b i v]> (ints s)) (elems s))
          | None => Fault OutOfBounds
          end
      end
  end.

Definition ld_elem (p : option loc) (i : Z) : M dtype := fun s =>
  match p with
  | None => Fault NullDeref
  | Some l =>
      match elems s !! l with
      | None => Fault OutOfBounds
      | Some b =>
          match idx b i with
          | Some v => Done (v, s)
          | None => Fault OutOfBounds
          end
      end
  end.

Definition st_elem (p : option loc) (i : Z) (v : dtype) : M unit := fun s =>
  match p with
  | None => Fault NullDeref
  | Some l =>
      match elems s !! l with
      | None => Fault OutOfBounds
      | Some b =>
          match idx b i with
          | Some _ => Done (tt, State (objs s) (ints s) (<[l := upd b i v]> (elems s)))
          | None => Fault OutOfBounds
          end
      end
  end.

(** [delete [] p]: nothing for [nullptr], otherwise the block goes. *)
Definition delete_ints (p : option loc) : M unit := fun s =>
  match p with
  | None => Done (tt, s)
  | Some l =>
      match ints s !! l with
      | None => Fault BadDelete
      | Some _ => Done (tt, State (objs s) (delete l (ints s)) (elems s))
      end
  end.

Definition delete_elems (p : option loc) : M unit := fun s =>
  match p with
  | None => Done (tt, s)
  | Some l =>
      match elems s !! l with
      | None => Fault BadDelete
      | Some _ => Done (tt, State (objs s) (ints s) (delete l (elems s)))
      end
  end.

(** *** Data members, read and written through [this] *)

Definition get_shape (this : addr) : M (option loc) :=
  let* o := obj this in ret (_shape o).
Definition get_stride (this : addr) : M (option loc) :=
  let* o := obj this in ret (_stride o).
Definition get_head (this : addr) : M (option loc) :=
  let* o := obj this in ret (head o).

Definition set_shape (this : addr) (p : option loc) : M unit :=
  let* o := obj this in set_obj this (Ndarray p (_stride o) (head o)).
Definition set_stride (this : addr) (p : option loc) : M unit :=
  let* o := obj this in set_obj this (Ndarray (_shape o) p (head o)).
Definition set_head (this : addr) (p : option loc) : M unit :=
  let* o := obj this in set_obj this (Ndarray (_shape o) (_stride o) p).

(** [_shape[i]] and [_stride[i]] as rvalues and as assignment targets. *)
Definition ld_shape (this : addr) (i : Z) : M Z :=
  let* p := get_shape this in ld_int p i.
Definition ld_stride (this : addr) (i : Z) : M Z :=
  let* p := get_stride this in ld_int p i.
Definition st_shape (this : addr) (i : Z) (v : Z) : M unit :=
  let* p := get_shape this in st_int p i v.
Definition st_stride (this : addr) (i : Z) (v : Z) : M unit :=
  let* p := get_stride this in st_int p i v.

(** *** Accessors (lines 156-176) *)

Definition empty (this : addr) : M bool :=
  let* p := get_stride this in ret (bool_decide (p = None)).

(** [return *_stride;] *)
Definition size (this : addr) : M Z := ld_stride this 0.

Definition dim : Z := Z.of_nat D.

Definition shape (this : addr) (i : Z) : M Z := ld_shape this i.

Definition stride (this : addr) (i : Z) : M Z := ld_stride this (Int32.add i 1).

(** *** [check] (lines 35-42) *)

Definition check (this : addr) : M unit :=
  for_loop D (fun i =>
    let* e := ld_shape this (Z.of_nat i) in
    if decide (e <= 0) then exit "Error: Positive shape needed!" else ret tt).

(** *** Destructor (lines 46-50), run when the object's storage ends *)

Definition dtor (this : addr) : M unit :=
  (let* ph := get_head this in delete_elems ph) ;;
  (let* psh := get_shape this in delete_ints psh) ;;
  (let* pst := get_stride this in delete_ints pst) ;;
  free_obj this.

(** *** Constructors (lines 52-99)

    Each returns the address of the object it built.  [head] is not in
    the member initialiser list of the three shape constructors; it is
    taken as null until the body assigns it. *)

Definition ctor_default : M addr := new_obj (Ndarray None None None).

Definition ctor_width (width : Z) : M addr :=
  let* psh := new_ints D in
  let* pst := new_ints (S D) in
  let* this := new_obj (Ndarray psh pst None) in
  st_stride this (Z.of_nat D) 1 ;;
  for_loop D (fun i =>
    st_shape this (Z.of_nat i) width ;;
    let* s := ld_stride this (Z.of_nat D - Z.of_nat i) in
    st_stride this (Z.of_nat D - Z.of_nat i - 1) (Int32.mul s width)) ;;
  check this ;;
  let* n := size this in
  let* ph := new_elems n in
  set_head this ph ;;
  ret this.

(** [sh] is the caller's array, read by subscript. *)
Definition ctor_array (sh : list Z) : M addr :=
  let* psh := new_ints D in
  let* pst := new_ints (S D) in
  let* this := new_obj (Ndarray psh pst None) in
  st_stride this (Z.of_nat D) 1 ;;
  for_loop D (fun i =>
    match idx sh (Z.of_nat i), idx sh (Z.of_nat D - Z.of_nat i - 1) with
    | Some e, Some e' =>
        st_shape this (Z.of_nat i) e ;;
        let* s := ld_stride this (Z.of_nat D - Z.of_nat i) in
        st_stride this (Z.of_nat D - Z.of_nat i - 1) (Int32.mul s e')
    | _, _ => raise OutOfBounds
    end) ;;
  check this ;;
  let* n := size this in
  let* ph := new_elems n in
  set_head this ph ;;
  ret this.

(** [std::copy(begin(l), end(l), out)] into a [size_t] buffer. *)
Fixpoint std_copy (l : list Z) (p : option loc) (k : Z) : M unit :=
  match l with
  | [] => ret tt
  | e :: l' => st_int p k e ;; std_copy l' p (k + 1)
  end.

Definition ctor_list (l : list Z) : M addr :=
  let* psh := new_ints D in
  let* pst := new_ints (S D) in
  let* this := new_obj (Ndarray psh pst None) in
  if decide (length l <> D) then exit "Initialization of shape failed."
  else
    (let* p := get_shape this in std_copy l p 0) ;;
    st_stride this (Z.of_nat D) 1 ;;
    for_loop D (fun i =>
      let* s := ld_stride this (Z.of_nat D - Z.of_nat i) in
      let* e := ld_shape this (Z.of_nat D - Z.of_nat i - 1) in
      st_stride this (Z.of_nat D - Z.of_nat i - 1) (Int32.mul s e)) ;;
    check this ;;
    let* n := size this in
    let* ph := new_elems n in
    set_head this ph ;;
    ret this.

(** *** Raw indexing (lines 185-190)

    [operator[]] returns a reference [*(head + rawind)]; a reference is
    a buffer pointer with an offset, dereferenced by [ld_elem] and
    [st_elem]. *)

Definition ref : Type := option loc * Z.

Definition at_raw (this : addr) (rawind : Z) : M ref :=
  let* ph := get_head this in ret (ph, rawind).

Definition rd (r : ref) : M dtype := ld_elem r.1 r.2.
Definition wr (r : ref) (v : dtype) : M unit := st_elem r.1 r.2 v.

(** *** Converting copy constructor (lines 105-120)

    [template <typename T> ndarray(const ndarray<T, D>& x)].  A template
    is never the copy constructor of its class, and the move constructor
    declared at line 122 leaves the implicit copy constructor deleted:
    for a source of the same element type overload resolution selects
    the deleted one, so the body below runs for a source [x] of another
    element type [T] only.  The fields of [x] are read through its
    accessors; the elements are taken as already converted to [dtype].

    The element loop tests [i < size()] on every round; no round writes
    [_stride[0]], so the bound is read once. *)

Definition ctor_copy (x : addr) : M addr :=
  let* this := new_obj (Ndarray None None None) in
  let* e := empty x in
  if e then ret this
  else
    (let* psh := new_ints D in set_shape this psh) ;;
    (let* pst := new_ints (S D) in set_stride this pst) ;;
    for_loop D (fun i =>
      (let* v := shape x (Z.of_nat i) in st_shape this (Z.of_nat i) v) ;;
      (let* w := stride x (Z.of_nat i) in st_stride this (Z.of_nat i + 1) w)) ;;
    (let* n := size x in st_stride this 0 n) ;;
    (let* n := size x in let* ph := new_elems n in set_head this ph) ;;
    let* m := size this in
    for_loop (Z.to_nat m) (fun i =>
      let* r := at_raw x (Z.of_nat i) in
      let* v := rd r in
      let* ph := get_head this in
      st_elem ph (Z.of_nat i) v) ;;
    ret this.

(** *** Move constructor (lines 122-126) *)

Definition ctor_move (x : addr) : M addr :=
  let* psh := get_shape x in
  let* ph := get_head x in
  let* pst := get_stride x in
  let* this := new_obj (Ndarray psh pst ph) in
  set_shape x None ;;
  set_head x None ;;
  set_stride x None ;;
  ret this.

(** *** Move assignment (lines 139-144): three pointer swaps *)

Definition swap_shape (this x : addr) : M unit :=
  let* t := get_shape this in
  let* v := get_shape x in
  set_shape this v ;; set_shape x t.

Definition swap_stride (this x : addr) : M unit :=
  let* t := get_stride this in
  let* v := get_stride x in
  set_stride this v ;; set_stride x t.

Definition swap_head (this x : addr) : M unit :=
  let* t := get_head this in
  let* v := get_head x in
  set_head this v ;; set_head x t.

Definition assign_move (this x : addr) : M addr :=
  swap_shape this x ;;
  swap_stride this x ;;
  swap_head this x ;;
  ret this.

(** [std::swap(a, b)] on two arrays:
    [T tmp(std::move(a)); a = std::move(b); b = std::move(tmp);] *)
Definition std_swap (a b : addr) : M unit :=
  let* tmp := ctor_move a in
  assign_move a b ;;
  assign_move b tmp ;;
  dtor tmp.

(** *** Copy assignment (lines 131-137)

    The body as written.  Its local [copy = x] asks for the deleted copy
    constructor (see [ctor_copy]), so a program that instantiates this
    operator does not compile; [assign_copy] is what the text of the
    body says, with the constructor template in that place. *)

Definition assign_copy (this x : addr) : M addr :=
  if decide (this <> x) then
    let* copy := ctor_copy x in
    std_swap this copy ;;
    dtor copy ;;
    ret this
  else ret this.

(** *** Fill assignment (lines 149-155) *)

Definition assign_fill (this : addr) (val : dtype) : M addr :=
  let* e := empty this in
  if e then ret this
  else
    let* n := size this in
    for_loop (Z.to_nat n) (fun i =>
      let* ph := get_head this in st_elem ph (Z.of_nat i) val) ;;
    ret this.

(** *** Coordinate indexing (lines 197-203); [coo] is the caller's array *)

Definition at_coo (this : addr) (coo : list Z) : M ref :=
  let* offset :=
    fold_from 0 D (fun i offset =>
      match idx coo (Z.of_nat i) with
      | Some c =>
          let* s := ld_stride this (Z.of_nat i + 1) in
          ret (Int32.add offset (Int32.mul c s))
      | None => raise OutOfBounds
      end) 0 in
  let* ph := get_head this in
  ret (ph, offset).

(** *** Variadic indexing (lines 205-231)

    [p] walks the stride buffer; the pack is [first, args...], and the
    overload with a single index ends the recursion. *)

Fixpoint adder (p : ref) (first : Z) (args : list Z) : M Z :=
  match args with
  | [] => let* s := ld_int p.1 p.2 in ret (Int32.mul s first)
  | a :: rest =>
      let* s := ld_int p.1 p.2 in
      let* r := adder (p.1, p.2 + 1) a rest in
      ret (Int32.add (Int32.mul s first) r)
  end.

Definition at_args (this : addr) (first : Z) (args : list Z) : M ref :=
  let* ph := get_head this in
  let* pst := get_stride this in
  let* off := adder (pst, 1) first args in
  ret (ph, off).

(** *** Periodic rolling (lines 243-259)

    [%] and [/] on [int32_t] truncate towards zero; they are undefined
    for a zero divisor and for [INT_MIN] over [-1]. *)

Definition rollindex (dir : bool) (this : addr) (rawind : Z) (axis : Z) : M Z :=
  let d := Int32.of_bool dir in
  let* s0 := ld_stride this axis in
  let* s1 := ld_stride this (Int32.add axis 1) in
  if decide (s0 = 0 \/ s1 = 0) then raise DivByZero
  else if decide (rawind = - Int32.half /\ s0 = -1 \/
                  Z.rem rawind s0 = - Int32.half /\ s1 = -1) then raise IntOverflow
  else
    let axisind := Int32.wrap (Z.quot (Z.rem rawind s0) s1) in
    let rawind := Int32.add rawind (Int32.mul (Int32.sub (Int32.mul 2 d) 1) s1) in
    let* n := ld_shape this axis in
    if decide (axisind = Int32.mul d (Int32.sub n 1))
    then ret (Int32.sub rawind (Int32.mul (Int32.sub (Int32.mul 2 d) 1) s0))
    else ret rawind.

Definition rollind (this : addr) (rawind : Z) (ax : Z) : M Z :=
  if decide (ax < 0) then rollindex false this rawind (Int32.add ax (Z.of_nat D))
  else rollindex true this rawind ax.

(** *** Transposition (lines 262-265)

    [std::swap] on two [size_t] lvalues of one buffer. *)

Definition swap_int (p : option loc) (i j : Z) : M unit :=
  let* t := ld_int p i in
  let* v := ld_int p j in
  st_int p i v ;; st_int p j t.

Definition transpose (this : addr) (i j : Z) : M unit :=
  (let* pst := get_stride this in swap_int pst (Int32.add i 1) (Int32.add j 1)) ;;
  (let* psh := get_shape this in swap_int psh (Int32.add i 1) (Int32.add j 1)).

(** *** Arithmetic (lines 271-308) *)

(** [operator-() const]: fills a local copy and returns [*this].  The
    body as written: its local [tmp], copy-constructed from [*this],
    asks for the deleted copy constructor, and its [return *this] binds
    a reference to a constant object, so a program that instantiates it
    does not compile. *)
Definition negate (this : addr) : M addr :=
  let* tmp := ctor_copy this in
  let* n := size this in
  for_loop (Z.to_nat n) (fun i =>
    let* ph := get_head this in
    let* v := ld_elem ph (Z.of_nat i) in
    let* r := at_raw tmp (Z.of_nat i) in
    wr r (dneg v)) ;;
  dtor tmp ;;
  ret this.

Definition pm (N : Z) (this rhs : addr) : M addr :=
  let* n := size this in
  for_loop (Z.to_nat n) (fun i =>
    let* r := at_raw rhs (Z.of_nat i) in
    let* v := rd r in
    let* ph := get_head this in
    let* h := ld_elem ph (Z.of_nat i) in
    st_elem ph (Z.of_nat i) (dadd h (dscale N v))) ;;
  ret this.

Definition plus_assign (this rhs : addr) : M addr := pm 1 this rhs.

(** The source reads [return *this->pm<-1>(rhs);], which applies unary
    [*] to the array that [pm<-1>] returns and does not compile once
    instantiated.  [minus_assign] stands for the inner call [pm<-1>]
    only. *)
Definition minus_assign (this rhs : addr) : M addr := pm (-1) this rhs.

(** Binary [+] and [-] (lines 295-308) start from a local [tmp]
    copy-constructed from [*this], which asks for the deleted copy
    constructor; they are not modelled. *)

(** *** The states a shape constructor goes through

    [built] is the caller's state [s0] with one more object at [this]
    whose shape and stride buffers hold [sh] and [st]. *)

Definition built (s0 : state) (this : addr) (psh pst : loc) (ph : option loc)
    (sh st : list Z) : state :=
  State (<[this := Ndarray (Some psh) (Some pst) ph]> (objs s0))
        (<[pst := st]> (<[psh := sh]> (ints s0)))
        (elems s0).

(** The strides as the constructor loops compute them, in [int32_t]. *)
Definition wrap_strides (ext : list Z) : list Z :=
  foldr (fun e acc => Int32.mul (hd 1 acc) e :: acc) [1] ext.

(** The caller's state with one more array in three fresh buffers that
    hold [sh], [st] and [d]. *)
Definition fresh_array (s : state) (sh st : list Z) (d : list dtype) : addr * state :=
  let psh := fresh (dom (ints s)) in
  let pst := fresh ({[psh]} ∪ dom (ints s)) in
  let ph := fresh (dom (elems s)) in
  let this := fresh (dom (objs s)) in
  (this,
   State (<[this := Ndarray (Some psh) (Some pst) (Some ph)]> (objs s))
         (<[pst := st]> (<[psh := sh]> (ints s)))
         (<[ph := d]> (elems s))).

(** The object and state a shape constructor ends in, for extents [ext]. *)
Definition constructed (s : state) (ext : list Z) : addr * state :=
  fresh_array s ext (wrap_strides ext)
    (map (indet (fresh (dom (elems s)))) (seq 0 (Z.to_nat (hd 0 (wrap_strides ext))))).

Definition shape_ctor_result (s : state) (ext : list Z) : outcome (addr * state) :=
  if decide (Forall (fun e => 0 < e) ext) then
    if decide (hd 0 (wrap_strides ext) < 0) then Fault BadArrayNewLength
    else Done (constructed s ext)
  else Exit "Error: Positive shape needed!".

(** *** The three shape constructors under one name *)

Inductive shape_args : Type :=
| ByWidth (width : Z)
| ByArray (sh : list Z)
| ByList (l : list Z).

Definition construct (c : shape_args) : M addr :=
  match c with
  | ByWidth width => ctor_width width
  | ByArray sh => ctor_array sh
  | ByList l => ctor_list l
  end.

(** The [D] extents a constructor call asks for. *)
Definition extents (c : shape_args) : list Z :=
  match c with
  | ByWidth width => replicate D width
  | ByArray sh => take D sh
  | ByList l => l
  end.

(** A shape array must hold [D] extents to be read at all; a shape list
    of another length is turned down by the constructor itself. *)
Definition readable (c : shape_args) : Prop :=
  match c with
  | ByArray sh => (D <= length sh)%nat
  | _ => True
  end.

Definition list_length_mismatch (c : shape_args) : Prop :=
  match c with
  | ByList l => length l <> D
  | _ => False
  end.

#[global] Instance list_length_mismatch_dec c : Decision (list_length_mismatch c).
Proof. destruct c; simpl; apply _. Defined.

(** *** The operations that change an array in place *)

Inductive inplace : Type :=
| SetRaw (rawind : Z) (v : dtype)
| SetCoo (coo : list Z) (v : dtype)
| SetArgs (first : Z) (args : list Z) (v : dtype)
| Fill (v : dtype)
| PlusAssign (rhs : addr)
| MinusAssign (rhs : addr)
| Transpose (i j : Z).

Definition apply_inplace (this : addr) (op : inplace) : M unit :=
  match op with
  | SetRaw rawind v => let* r := at_raw this rawind in wr r v
  | SetCoo coo v => let* r := at_coo this coo in wr r v
  | SetArgs first args v => let* r := at_args this first args in wr r v
  | Fill v => assign_fill this v ;; ret tt
  | PlusAssign rhs => plus_assign this rhs ;; ret tt
  | MinusAssign rhs => minus_assign this rhs ;; ret tt
  | Transpose i j => transpose this i j
  end.

Fixpoint apply_all (this : addr) (ops : list inplace) : M unit :=
  match ops with
  | [] => ret tt
  | op :: ops' => apply_inplace this op ;; apply_all this ops'
  end.

(** Axis arguments in the range the interface documents. *)
Definition valid_axes (op : inplace) : Prop :=
  match op with
  | Transpose i j => 0 <= i < Z.of_nat D /\ 0 <= j < Z.of_nat D
  | _ => True
  end.

(** The element buffer of a state replaced at one pointer. *)
Definition with_elems (s : state) (ph : loc) (b : list dtype) : state :=
  State (objs s) (ints s) (<[ph := b]> (elems s)).

(** The state once the destructor has run on the object [o] at [a]. *)
Definition drop_block {A} (p : option loc) (m : gmap loc A) : gmap loc A :=
  match p with
  | Some l => delete l m
  | None => m
  end.

Definition destroyed (s : state) (a : addr) (o : ndarray) : state :=
  State (delete a (objs s))
        (drop_block (_stride o) (drop_block (_shape o) (ints s)))
        (drop_block (head o) (elems s)).

(** *** Every way the interface lets a client act on the store *)

Inductive call : Type :=
| New
| NewShape (c : shape_args)
| NewCopy (x : addr)
| NewMove (x : addr)
| AssignCopy (this x : addr)
| AssignMove (this x : addr)
| InPlace (this : addr) (op : inplace)
| Destroy (this : addr).

Definition exec (c : call) : M unit :=
  match c with
  | New => ctor_default ;; ret tt
  | NewShape c => construct c ;; ret tt
  | NewCopy x => ctor_copy x ;; ret tt
  | NewMove x => ctor_move x ;; ret tt
  | AssignCopy this x => assign_copy this x ;; ret tt
  | AssignMove this x => assign_move this x ;; ret tt
  | InPlace this op => apply_inplace this op
  | Destroy this => dtor this
  end.

(** A call names live objects, hands a shape array that can be read,
    and passes axes in range. *)
Definition well_formed_call (s : state) (c : call) : Prop :=
  match c with
  | New => True
  | NewShape c => readable c
  | NewCopy x | NewMove x => is_Some (objs s !! x)
  | AssignCopy this x | AssignMove this x =>
      is_Some (objs s !! this) /\ is_Some (objs s !! x)
  | InPlace this op => valid_axes op
  | Destroy this => True
  end.

(** *** The two states of an array *)

Definition null_array : ndarray := Ndarray None None None.

Definition full (s : state) (o : ndarray) : Prop :=
  exists psh pst ph sh st d,
    o = Ndarray (Some psh) (Some pst) (Some ph) /\ psh <> pst /\
    ints s !! psh = Some sh /\ ints s !! pst = Some st /\ elems s !! ph = Some d /\
    length sh = D /\ length st = S D /\ st !! 0%nat = Some (Z.of_nat (length d)).

Definition two_state (s : state) (o : ndarray) : Prop := o = null_array \/ full s o.

(** No buffer belongs to two objects. *)
Definition separate (o1 o2 : ndarray) : Prop :=
  (forall p, p ∈ [_shape o1; _stride o1] -> p ∈ [_shape o2; _stride o2] -> p = None) /\
  (head o1 = head o2 -> head o1 = None).

Definition inv (s : state) : Prop :=
  (forall a o, objs s !! a = Some o -> two_state s o) /\
  (forall a b oa ob, a <> b -> objs s !! a = Some oa -> objs s !! b = Some ob ->
                     separate oa ob).

(** *** Invariants of the constructor loops

    While the stride loop runs towards extents [ext], after [k] rounds the
    first [k] shape entries and the last [k + 1] strides are final.  The
    copy constructor fills strides [1 .. k] and then elements [0 .. k-1]
    from the source. *)

Definition shape_inv (ext : list Z) (k : nat) (sh : list Z) : Prop :=
  length sh = D /\ forall i, (i < k)%nat -> sh !! i = ext !! i.

Definition stride_inv (ext : list Z) (k : nat) (st : list Z) : Prop :=
  length st = S D /\ st !! D = Some 1 /\
  forall i e v, (D - k <= i < D)%nat -> ext !! i = Some e -> st !! S i = Some v ->
                st !! i = Some (Int32.mul v e).

Definition stride_cp_inv (st : list Z) (k : nat) (st' : list Z) : Prop :=
  length st' = S D /\ forall i, (1 <= i <= k)%nat -> st' !! i = st !! i.

Definition elem_cp_inv (d : list dtype) (k : nat) (b : list dtype) : Prop :=
  length b = length d /\ forall i, (i < k)%nat -> b !! i = d !! i.

(** Two states have the same layout when they hold the same objects and
    every buffer keeps its length, the [size_t] buffers their first
    entry as well. *)
Definition same_layout (s s' : state) : Prop :=
  objs s' = objs s /\
  (forall l, (fun b => (length b, b !! 0%nat)) <$> ints s' !! l
             = (fun b => (length b, b !! 0%nat)) <$> ints s !! l) /\
  (forall l, length <$> elems s' !! l = length <$> elems s !! l).

(** What [rollindex] needs to see of an array: the two strides around
    the axis and the extent of the axis, with the coarser stride the
    product of the other two, and the buffer a whole number [m] of
    blocks that fits [int32_t]. *)
Record axis_view (s : state) (this : addr) (ax st n m : Z) : Prop := {
  av_obj : exists o psh pst shl stl,
      objs s !! this = Some o /\ _shape o = Some psh /\ _stride o = Some pst /\
      ints s !! psh = Some shl /\ ints s !! pst = Some stl /\
      idx stl ax = Some (st * n) /\ idx stl (ax + 1) = Some st /\ idx shl ax = Some n;
  av_axis : 0 <= ax < Z.of_nat D;
  av_st : 0 < st;
  av_n : 0 < n;
  av_fit : m * (st * n) <= Int32.max_int
}.

(** *** What an object looks like from outside: the contents of its
    three buffers *)

Definition shape_of (s : state) (a : addr) : option (list Z) :=
  o ← objs s !! a; p ← _shape o; ints s !! p.

Definition stride_of (s : state) (a : addr) : option (list Z) :=
  o ← objs s !! a; p ← _stride o; ints s !! p.

Definition data_of (s : state) (a : addr) : option (list dtype) :=
  o ← objs s !! a; p ← head o; elems s !! p.

(** Object [b] of [s'] shows the shape, strides and elements that
    object [a] of [s] shows. *)
Definition same_contents (s : state) (a : addr) (s' : state) (b : addr) : Prop :=
  shape_of s' b = shape_of s a /\ stride_of s' b = stride_of s a /\
  data_of s' b = data_of s a.

(** The buffers of [c] in [s'] were not allocated in [s]. *)
Definition buffers_fresh (s s' : state) (c : addr) : Prop :=
  exists psh pst ph,
    objs s' !! c = Some (Ndarray (Some psh) (Some pst) (Some ph)) /\
    ints s !! psh = None /\ ints s !! pst = None /\ elems s !! ph = None.

Definition element_write (op : inplace) : Prop :=
  match op with
  | SetRaw _ _ | SetCoo _ _ | SetArgs _ _ _ => True
  | _ => False
  end.

(** What a copy [c] of [x] must be: equal to the source, the source as
    it was, in buffers of its own, and no write to an element of the copy
    shows in the source. *)
Definition independent_copy (s : state) (x : addr) (s' : state) (c : addr) : Prop :=
  is_Some (data_of s x) /\
  same_contents s x s' c /\ same_contents s x s' x /\ buffers_fresh s s' c /\
  forall w s'', element_write w -> apply_inplace c w s' = Done (tt, s'') ->
                same_contents s x s'' x.

(** Shape, strides and elements of the array a call returned. *)
Definition contents (s : state) (a : addr) : option (list Z * list Z * list dtype) :=
  sh ← shape_of s a; st ← stride_of s a; d ← data_of s a; Some (sh, st, d).

Definition observe (r : outcome (addr * state)) : option (list Z * list Z * list dtype) :=
  match r with
  | Done (a, s) => contents s a
  | _ => None
  end.

(** [rollind] applied [k] times along one axis. *)
Fixpoint roll_n (k : nat) (this : addr) (rawind : Z) (ax : Z) : M Z :=
  match k with
  | O => ret rawind
  | S k' => let* r := rollind this rawind ax in roll_n k' this r ax
  end.

End Ndarray.

(** ** The stride contract in the specification's words

    [stride[D] = 1] and [stride[i] = stride[i+1] * shape[i]] from the last
    axis down, in unbounded integers; [product] is the element count. *)

(** A computation keeps [R] when every run that returns relates the
    state it started in to the state it ended in. *)
Definition preserves {St A} (R : St -> St -> Prop) (m : M St A) : Prop :=
  forall s a s', m s = Done (a, s') -> R s s'.

(** ** One periodic step, on the mixed-radix reading of an offset

    Inside a block of [st * n] consecutive offsets, an offset is
    [q * (st * n) + c * st + t] with [0 <= c < n] the position along the
    axis and [0 <= t < st] the part that belongs to the finer axes. *)

Definition pos (st n r : Z) : Z := (r mod (st * n)) / st.
Definition base (st n r : Z) : Z := r - pos st n r * st.

Definition fwd (st n r : Z) : Z :=
  if decide (pos st n r = n - 1) then r + st - st * n else r + st.
Definition bwd (st n r : Z) : Z :=
  if decide (pos st n r = 0) then r - st + st * n else r - st.

(** ** Reading off results

    What a call returned, if it returned. *)
Definition returned {St A} (r : outcome (A * St)) : option A :=
  match r with
  | Done (a, _) => Some a
  | _ => None
  end.

Definition spec_strides (shape : list Z) : list Z :=
  foldr (fun e acc => hd 1 acc * e :: acc) [1] shape.

Definition product (shape : list Z) : Z := foldr Z.mul 1 shape.

(** Σ c_k * st_k over the common prefix of two lists. *)
Fixpoint dot (c st : list Z) : Z :=
  match c, st with
  | c0 :: c', s0 :: st' => c0 * s0 + dot c' st'
  | _, _ => 0
  end.

(** ** The template at [dtype = int], run on small inputs

    New buffers are taken to hold zeros; the store starts empty. *)

Module Example.

Definition junk_int : loc -> nat -> Z := fun _ _ => 0.
Definition junk : loc -> nat -> Z := fun _ _ => 0.
Definition start : @state Z := State ∅ ∅ ∅.

Definition array_of (D : nat) (l : list Z) : M (@state Z) addr := ctor_list D junk_int junk l.

Definition set_raw (a : addr) (i v : Z) : M (@state Z) unit :=
  bind (at_raw a i) (fun r => wr r v).

(** A rank-3 array of shape (1,2,3), then [transpose(0, 1)]. *)
Definition transposed_123 : outcome (addr * @state Z) :=
  bind (array_of 3 [1; 2; 3]) (fun a => bind (transpose a 0 1) (fun _ => ret a)) start.

(** A rank-2 array of shape (2,3), then [transpose()] with its default
    arguments [(1, 0)]. *)
Definition transposed_23 : outcome (addr * @state Z) :=
  bind (array_of 2 [2; 3]) (fun a => bind (transpose a 1 0) (fun _ => ret a)) start.

(** A rank-1 array holding [1, 2], then unary minus. *)
Definition filled_12 : M (@state Z) addr :=
  bind (array_of 1 [2]) (fun a =>
    bind (set_raw a 0 1) (fun _ => bind (set_raw a 1 2) (fun _ => ret a))).

Definition negated_12 : outcome (addr * @state Z) :=
  bind filled_12 (fun a => negate Z.opp 1 junk_int junk a) start.

(** A rank-3 array of shape (2,2,2), axes 0 and 1 transposed, then two
    forward rolls along axis 0 from offset 0. *)
Definition rolled_twice : outcome (Z * @state Z) :=
  bind (array_of 3 [2; 2; 2]) (fun a =>
    bind (transpose a 0 1) (fun _ => roll_n 3 2 a 0 0)) start.

(** A rank-2 array asked for with extents (65536, 65536). *)
Definition overflowing_size : outcome (Z * @state Z) :=
  bind (construct 2 junk_int junk (ByList [65536; 65536])) (fun a => size a) start.

(** A rank-2 array asked for with width 46341. *)
Definition overflowing_width : outcome (addr * @state Z) :=
  construct 2 junk_int junk (ByWidth 46341) start.

(** Two rank-1 arrays of lengths 2 and 3, then [a = std::move(b)]; what
    [b.empty()] and [b.size()] say afterwards. *)
Definition moved_into_full : outcome ((bool * Z) * @state Z) :=
  bind (array_of 1 [2]) (fun a =>
    bind (array_of 1 [3]) (fun b =>
      bind (assign_move a b) (fun _ =>
        bind (empty b) (fun e => bind (size b) (fun n => ret (e, n)))))) start.

(** [ndarray t(std::move(a))], then [a.size()]. *)
Definition size_of_moved_from : outcome (Z * @state Z) :=
  bind (array_of 1 [2]) (fun a => bind (ctor_move a) (fun _ => size a)) start.

(** The store with one rank-2 array of shape (2,3) holding 10..60, and
    the same store with a second, empty array. *)
Definition one_array : addr * @state Z :=
  fresh_array start [2; 3] [6; 3; 1] [10; 20; 30; 40; 50; 60].

Definition two_arrays : addr * @state Z :=
  let s := one_array.2 in
  (fresh (dom (objs s)),
   State (<[fresh (dom (objs s)) := null_array]> (objs s)) (ints s) (elems s)).

End Example.

(** ** Coordinates in row-major order

    [exchanged l i j] is the buffer [l] once [std::swap(l[i], l[j])] has
    run; [in_bounds coo sh] says that every coordinate lies inside its
    extent; [offset_of sh coo] is the place of [coo] in the element
    buffer of an array built with shape [sh]. *)

Definition exchanged {A} (l : list A) (i j : Z) : list A :=
  match idx l i, idx l j with
  | Some x, Some y => upd (upd l i y) j x
  | _, _ => l
  end.

Definition in_bounds (coo sh : list Z) : Prop :=
  Forall2 (fun c e => 0 <= c < e) coo sh.

Definition offset_of (sh coo : list Z) : Z := dot coo (tail (spec_strides sh)).

(** ** Ownership of the heap

    [no_garbage]: every allocated buffer is held by some live object. *)

Section Ownership.
Context {dtype : Type}.

Definition no_garbage (s : @state dtype) : Prop :=
  (forall l, is_Some (ints s !! l) ->
     exists a o, objs s !! a = Some o /\ Some l ∈ [_shape o; _stride o]) /\
  (forall l, is_Some (elems s !! l) ->
     exists a o, objs s !! a = Some o /\ head o = Some l).

End Ownership.

(** ** Mutual consistency of the three buffers

    [consistent sh st d]: the extents [sh] are positive; their product
    fits [int32_t], is [size()], the first stride, and is the length of
    the element buffer [d]; and the strides after the first send the
    coordinate tuples inside the extents to places of the element
    buffer, distinct tuples to distinct places.

    [coherent s] adds to the two-state invariant that every array of
    the store that holds buffers holds consistent ones.

    [descends s s' a]: what the array at [a] shows in [s'] is
    consistent, or is the shape, the strides and the element count that
    some array of [s] shows.

    [layouts_kept s s']: every array of [s'] shows the shape, the
    strides and the element count that some array of [s] shows.

    [relaid s c a]: the call [c], made in the store [s], gives the array
    at [a] a layout for which nothing is claimed: [a] is the array that
    a transposition is applied to, or the array that a shape constructor
    builds from extents whose product passes [int32_t].

    [same_ints] relates two stores with the same objects and the same
    [size_t] buffers whose element buffers kept their lengths. *)

Definition consistent {dtype : Type} (sh st : list Z) (d : list dtype) : Prop :=
  Forall (fun e => 0 < e) sh /\
  product sh <= Int32.max_int /\
  st !! 0%nat = Some (product sh) /\
  Z.of_nat (length d) = product sh /\
  (forall coo, in_bounds coo sh -> 0 <= dot coo (tail st) < product sh) /\
  (forall coo coo', in_bounds coo sh -> in_bounds coo' sh ->
     dot coo (tail st) = dot coo' (tail st) -> coo = coo').

Section Coherence.
Context {dtype : Type}.
Variable D : nat.

Definition consistent_arrays (s : @state dtype) : Prop :=
  forall a sh st d, contents s a = Some (sh, st, d) -> consistent sh st d.

Definition coherent (s : @state dtype) : Prop := inv D s /\ consistent_arrays s.

Definition layouts_kept (s s' : @state dtype) : Prop :=
  forall a' sh st d', contents s' a' = Some (sh, st, d') ->
    exists a d, contents s a = Some (sh, st, d) /\ length d = length d'.

Definition descends (s s' : @state dtype) (a' : addr) : Prop :=
  forall sh st d', contents s' a' = Some (sh, st, d') ->
    consistent sh st d' \/
    exists a d, contents s a = Some (sh, st, d) /\ length d = length d'.

Definition relaid (s : @state dtype) (c : @call dtype) (a' : addr) : Prop :=
  match c with
  | NewShape sc =>
      a' = fresh (dom (objs s)) /\ Int32.max_int < product (extents D sc)
  | InPlace this (Transpose _ _) => a' = this
  | _ => False
  end.

Definition same_ints (s s' : @state dtype) : Prop :=
  objs s' = objs s /\ ints s' = ints s /\
  forall l, length <$> elems s' !! l = length <$> elems s !! l.

End Coherence.

(** ** Element buffers rewritten in place

    [refilled s o f] is the store [s] with the element buffer of [o]
    replaced by [f] of what it held; an empty array has none. *)

Section Refill.
Context {dtype : Type}.

Definition refilled (s : @state dtype) (o : ndarray) (f : list dtype -> list dtype)
    : @state dtype :=
  match head o with
  | Some ph =>
      match elems s !! ph with
      | Some d => with_elems s ph (f d)
      | None => s
      end
  | None => s
  end.

End Refill.

(** ** Iterators (lines 309-320)

    [begin()] is [head]; [end()] is [head + size()], written [end_]
    here.  The constant versions have the same bodies. *)

Section Iterators.
Context {dtype : Type}.
Local Open Scope cpp_scope.

Definition begin (this : addr) : M (@state dtype) ref :=
  let* ph := get_head this in ret (ph, 0).

Definition end_ (this : addr) : M (@state dtype) ref :=
  let* ph := get_head this in
  let* n := size this in
  ret (ph, n).

Definition cbegin (this : addr) : M (@state dtype) ref := begin this.
Definition cend (this : addr) : M (@state dtype) ref := end_ this.

End Iterators.

(** ** [matrix<dtype>] (lines 322-358)

    The class inherits the constructors and assignments of
    [ndarray<dtype, 2>] and adds printing, a product and two accessors.
    [print] writes on [cout] and the product writes on [cerr], so these
    two run in a world that holds the store and the two streams. *)

Section Matrix.
Context {dtype : Type}.
Variable dadd : dtype -> dtype -> dtype.
Variable dmul : dtype -> dtype -> dtype.

(** The conversion from [int] to [dtype] that [c = 0] goes through. *)
Variable of_int : Z -> dtype.
Variable indet_int : loc -> nat -> Z.
Variable indet : loc -> nat -> dtype.

(** What is sent to a stream with [<<]. *)
Inductive token : Type :=
| Value (v : dtype)
| Tab
| Endl
| Message (msg : string).

Record world : Type := World {
  store : @state dtype;
  cout : list token;
  cerr : list token
}.

Local Open Scope cpp_scope.

(** A member function of [ndarray], run on the store of a world. *)
Definition lift {A} (m : M (@state dtype) A) : M world A := fun w =>
  match m (store w) with
  | Done (a, s) => Done (a, World s (cout w) (cerr w))
  | Exit msg => Exit msg
  | Fault f => Fault f
  end.

Definition to_cout (t : token) : M world unit := fun w =>
  Done (tt, World (store w) (cout w ++ [t]) (cerr w)).

Definition to_cerr (t : token) : M world unit := fun w =>
  Done (tt, World (store w) (cout w) (cerr w ++ [t])).

Definition nrow (this : addr) : M (@state dtype) Z :=
  let* e := empty this in
  if e then ret 0 else shape this 0.

Definition ncol (this : addr) : M (@state dtype) Z :=
  let* e := empty this in
  if e then ret 0 else shape this 1.

(** No round of these loops writes a shape buffer, so each bound is
    read when its loop is entered. *)
Definition print (this : addr) : M world unit :=
  let* n0 := lift (shape this 0) in
  for_loop (Z.to_nat n0) (fun i =>
    (let* n1 := lift (shape this 1) in
     for_loop (Z.to_nat n1) (fun j =>
       let* v := lift (let* r := at_args this (Z.of_nat i) [Z.of_nat j] in rd r) in
       to_cout (Value v) ;;
       to_cout Tab)) ;;
    to_cout Endl).

(** [return c;] of a local [c] by value: the result is move-constructed
    from [c], whose storage then ends. *)
Definition return_local (c : addr) : M (@state dtype) addr :=
  let* r := ctor_move c in
  dtor c ;;
  ret r.

Definition mat_mul (this rhs : addr) : M world addr :=
  let* c := lift (let* m := shape this 0 in
                  let* p := shape rhs 1 in
                  ctor_list 2 indet_int indet [m; p]) in
  lift (assign_fill c (of_int 0)) ;;
  let* k1 := lift (shape this 1) in
  let* k2 := lift (shape rhs 0) in
  if decide (k1 <> k2) then
    to_cerr (Message "Dimension not match!") ;;
    to_cerr Endl ;;
    lift (return_local c)
  else
    lift (let* n0 := shape c 0 in
          for_loop (Z.to_nat n0) (fun i =>
            let* n1 := shape c 1 in
            for_loop (Z.to_nat n1) (fun j =>
              let* n2 := shape this 1 in
              for_loop (Z.to_nat n2) (fun k =>
                let* ra := at_args this (Z.of_nat i) [Z.of_nat k] in
                let* a := rd ra in
                let* rb := at_args rhs (Z.of_nat k) [Z.of_nat j] in
                let* b := rd rb in
                let* rc := at_args c (Z.of_nat i) [Z.of_nat j] in
                let* cur := rd rc in
                wr rc (dadd cur (dmul a b)))))) ;;
    lift (return_local c).

(** *** The product in the words of linear algebra

    Matrices are element lists in row-major order; [cell d n] is entry
    [n] of such a list. *)

Definition cell (d : list dtype) (n : nat) : dtype := default (of_int 0) (d !! n).

(** Row [i] of an [_ x ka] matrix times column [j] of a [ka x p] matrix,
    summed from the left, starting from [0]. *)
Definition row_times_column (da db : list dtype) (ka p i j : nat) : dtype :=
  foldl (fun acc k => dadd acc (dmul (cell da (i * ka + k)) (cell db (k * p + j))))
        (of_int 0) (seq 0 ka).

Definition mat_product (da db : list dtype) (m ka p : nat) : list dtype :=
  map (fun n => row_times_column da db ka p (n / p) (n mod p)) (seq 0 (m * p)).

(** The object at [a] is an [r x c] matrix as the constructors build
    it, with elements [d] and an element count that fits [int32_t]. *)
Definition holds_matrix (s : @state dtype) (a : addr) (r c : nat) (d : list dtype) : Prop :=
  exists psh pst ph,
    objs s !! a = Some (Ndarray (Some psh) (Some pst) (Some ph)) /\ psh <> pst /\
    ints s !! psh = Some [Z.of_nat r; Z.of_nat c] /\
    ints s !! pst = Some (spec_strides [Z.of_nat r; Z.of_nat c]) /\
    elems s !! ph = Some d /\ length d = (r * c)%nat /\
    (0 < r)%nat /\ (0 < c)%nat /\ Z.of_nat (r * c) <= Int32.max_int.

(** The store while the product runs: the caller's store [s] and the
    local [c], an [m x p] matrix with elements [b]. *)
Definition during (s : @state dtype) (m p : nat) (b : list dtype) : @state dtype :=
  (fresh_array s [Z.of_nat m; Z.of_nat p] (spec_strides [Z.of_nat m; Z.of_nat p]) b).2.

(** What [print] writes for an [m x p] matrix with elements [d]. *)
Definition printed (d : list dtype) (m p : nat) : list token :=
  flat_map (fun i => flat_map (fun j => [Value (cell d (i * p + j)); Tab]) (seq 0 p) ++ [Endl])
           (seq 0 m).

End Matrix.

(** ** More small inputs at [dtype = int] *)

Module Cases.
Import Example.

(** A rank-3 array of shape (2,2,3) holding 0..11, and the store after
    [transpose(0, 1)] on it. *)
Definition cube : addr * @state Z :=
  fresh_array start [2; 2; 3] [12; 6; 3; 1] [0; 1; 2; 3; 4; 5; 6; 7; 8; 9; 10; 11].

Definition cube_transposed : @state Z :=
  match transpose cube.1 0 1 cube.2 with
  | Done (_, s) => s
  | _ => cube.2
  end.

(** The (2,3) matrix of [one_array] beside a (3,2) matrix holding 1..6,
    with nothing written on the streams yet. *)
Definition two_matrices : addr * @state Z :=
  fresh_array one_array.2 [3; 2] [6; 2; 1] [1; 2; 3; 4; 5; 6].

Definition desk : @world Z := World two_matrices.2 [] [].

Definition int_of (z : Z) : Z := z.

(** A rank-2 array asked for with extents (65537, 65537): the 32-bit
    element count is 131073.  From its last offset, one roll forward
    along axis 0 and one roll back. *)
Definition rolled_past_int32 : outcome (Z * @state Z) :=
  bind (array_of 2 [65537; 65537]) (fun a =>
    bind (rollind 2 a 131072 0) (fun r => rollind 2 a r (-2))) start.

(** A rank-2 array asked for with extents (65536, 65536). *)
Definition overflowing_array : outcome (addr * @state Z) :=
  construct 2 junk_int junk (ByList [65536; 65536]) start.

(** A rank-4 array of shape (2,3,4,5) holding zeros, and the store after
    [transpose(0, 1)] on it. *)
Definition hyper : addr * @state Z :=
  fresh_array start [2; 3; 4; 5] [120; 60; 20; 5; 1] (replicate 120 0).

Definition hyper_transposed : @state Z :=
  match transpose hyper.1 0 1 hyper.2 with
  | Done (_, s) => s
  | _ => hyper.2
  end.

End Cases.

(** * Proofs *)

(** ** Facts about 32-bit arithmetic *)

Module Int32Facts.
Import Int32.

Lemma wrap_range z : in_range (wrap z).
Proof.
  unfold in_range, wrap, max_int, half, modulus.
  pose proof (Z.mod_pos_bound (z + 2 ^ 31) (2 ^ 32)). lia.
Qed.

Lemma wrap_small z : in_range z -> wrap z = z.
Proof.
  unfold in_range, wrap, max_int, half, modulus. intros Hz.
  rewrite Z.mod_small; lia.
Qed.

Lemma wrap_congr a b : a mod modulus = b mod modulus -> wrap a = wrap b.
Proof.
  unfold wrap. intros Hab. f_equal.
  rewrite <- (Zplus_mod_idemp_l a), <- (Zplus_mod_idemp_l b), Hab. reflexivity.
Qed.

Lemma wrap_mod z : wrap z mod modulus = z mod modulus.
Proof.
  unfold wrap.
  rewrite Zminus_mod, Zmod_mod, <- Zminus_mod. f_equal. lia.
Qed.

Lemma wrap_add_l a b : wrap (wrap a + b) = wrap (a + b).
Proof. apply wrap_congr. rewrite Zplus_mod, wrap_mod, <- Zplus_mod. reflexivity. Qed.

Lemma wrap_add_r a b : wrap (a + wrap b) = wrap (a + b).
Proof. rewrite Z.add_comm, wrap_add_l. f_equal. lia. Qed.

Lemma mul_0_l a : mul 0 a = 0.
Proof. reflexivity. Qed.

Lemma add_range a b : in_range (add a b).
Proof. apply wrap_range. Qed.

#[export] Instance eqm_equiv : Equivalence eqm.
Proof. unfold eqm. split; red; intros; congruence. Qed.

#[export] Instance add_eqm : Proper (eqm ==> eqm ==> eqm) Z.add.
Proof. unfold eqm. intros a a' Ha b b' Hb. by rewrite Zplus_mod, Ha, Hb, <- Zplus_mod. Qed.

#[export] Instance sub_eqm : Proper (eqm ==> eqm ==> eqm) Z.sub.
Proof. unfold eqm. intros a a' Ha b b' Hb. by rewrite Zminus_mod, Ha, Hb, <- Zminus_mod. Qed.

#[export] Instance mul_eqm : Proper (eqm ==> eqm ==> eqm) Z.mul.
Proof. unfold eqm. intros a a' Ha b b' Hb. by rewrite Zmult_mod, Ha, Hb, <- Zmult_mod. Qed.

Lemma wrap_eqm z : eqm (wrap z) z.
Proof. apply wrap_mod. Qed.

Lemma wrap_eq a b : in_range b -> eqm a b -> wrap a = b.
Proof. intros Hb Hab. rewrite <- (wrap_small b Hb). by apply wrap_congr. Qed.

Lemma eqm_refl' a b : a = b -> eqm a b.
Proof. by intros ->. Qed.

End Int32Facts.

Section Monad.
Context {St : Type}.
Implicit Types s : St.

Lemma bind_done {A B} (m : M St A) (k : A -> M St B) s a s' :
  m s = Done (a, s') -> bind m k s = k a s'.
Proof. unfold bind. by intros ->. Qed.

Lemma bind_inv {A B} (m : M St A) (k : A -> M St B) s r :
  bind m k s = Done r -> exists a s', m s = Done (a, s') /\ k a s' = Done r.
Proof.
  unfold bind. destruct (m s) as [[a s']| |]; [eauto | done | done].
Qed.

Lemma bind_assoc {A B C} (m : M St A) (k : A -> M St B) (k' : B -> M St C) s :
  bind (bind m k) k' s = bind m (fun a => bind (k a) k') s.
Proof. unfold bind. destruct (m s) as [[a s']| |]; done. Qed.

Lemma ret_inv {A} (a : A) s r : ret a s = Done r -> r = (a, s).
Proof. unfold ret. congruence. Qed.

End Monad.

Lemma idx_Some {A} (l : list A) i v :
  idx l i = Some v <-> 0 <= i /\ l !! Z.to_nat i = Some v.
Proof. unfold idx. case_decide; [tauto | split; [done | lia]]. Qed.

Lemma idx_nat {A} (l : list A) (n : nat) : idx l (Z.of_nat n) = l !! n.
Proof. unfold idx. rewrite decide_True by lia. by rewrite Nat2Z.id. Qed.

Lemma idx_lt {A} (l : list A) i v : idx l i = Some v -> 0 <= i < Z.of_nat (length l).
Proof. intros [? H%lookup_lt_Some]%idx_Some. lia. Qed.

Lemma idx_is_Some {A} (l : list A) i : 0 <= i < Z.of_nat (length l) -> is_Some (idx l i).
Proof.
  intros. unfold idx. rewrite decide_True by lia. apply lookup_lt_is_Some. lia.
Qed.

Lemma length_upd {A} (l : list A) i v : length (upd l i v) = length l.
Proof. apply length_insert. Qed.

Section Views.
Context {dtype : Type}.
Implicit Types (s : @state dtype) (o : ndarray).

Lemma obj_view s this o : objs s !! this = Some o -> obj this s = Done (o, s).
Proof. unfold obj. by intros ->. Qed.

Lemma get_shape_view s this o :
  objs s !! this = Some o -> get_shape this s = Done (_shape o, s).
Proof. intros H. unfold get_shape. by rewrite (bind_done _ _ _ _ _ (obj_view _ _ _ H)). Qed.

Lemma get_stride_view s this o :
  objs s !! this = Some o -> get_stride this s = Done (_stride o, s).
Proof. intros H. unfold get_stride. by rewrite (bind_done _ _ _ _ _ (obj_view _ _ _ H)). Qed.

Lemma get_head_view s this o :
  objs s !! this = Some o -> get_head this s = Done (head o, s).
Proof. intros H. unfold get_head. by rewrite (bind_done _ _ _ _ _ (obj_view _ _ _ H)). Qed.

Lemma set_obj_view s this o o' :
  objs s !! this = Some o ->
  set_obj this o' s = Done (tt, State (<[this := o']> (objs s)) (ints s) (elems s)).
Proof. unfold set_obj. by intros ->. Qed.

Lemma set_shape_view s this o p :
  objs s !! this = Some o ->
  set_shape this p s
  = Done (tt, State (<[this := Ndarray p (_stride o) (head o)]> (objs s)) (ints s) (elems s)).
Proof.
  intros H. unfold set_shape. rewrite (bind_done _ _ _ _ _ (obj_view _ _ _ H)).
  by eapply set_obj_view.
Qed.

Lemma set_stride_view s this o p :
  objs s !! this = Some o ->
  set_stride this p s
  = Done (tt, State (<[this := Ndarray (_shape o) p (head o)]> (objs s)) (ints s) (elems s)).
Proof.
  intros H. unfold set_stride. rewrite (bind_done _ _ _ _ _ (obj_view _ _ _ H)).
  by eapply set_obj_view.
Qed.

Lemma set_head_view s this o p :
  objs s !! this = Some o ->
  set_head this p s
  = Done (tt, State (<[this := Ndarray (_shape o) (_stride o) p]> (objs s)) (ints s) (elems s)).
Proof.
  intros H. unfold set_head. rewrite (bind_done _ _ _ _ _ (obj_view _ _ _ H)).
  by eapply set_obj_view.
Qed.

Lemma empty_view s this o :
  objs s !! this = Some o -> empty this s = Done (bool_decide (_stride o = None), s).
Proof.
  intros H. unfold empty. by rewrite (bind_done _ _ _ _ _ (get_stride_view _ _ _ H)).
Qed.

Lemma ld_elem_view s p (b : list dtype) i v :
  elems s !! p = Some b -> idx b i = Some v -> ld_elem (Some p) i s = Done (v, s).
Proof. unfold ld_elem. by intros -> ->. Qed.

Lemma st_elem_view s p (b : list dtype) i v :
  elems s !! p = Some b -> is_Some (idx b i) ->
  st_elem (Some p) i v s
  = Done (tt, State (objs s) (ints s) (<[p := upd b i v]> (elems s))).
Proof. unfold st_elem. by intros -> [w ->]. Qed.

Lemma st_int_view s p b i v :
  ints s !! p = Some b -> is_Some (idx b i) ->
  st_int (Some p) i v s
  = Done (tt, State (objs s) (<[p := upd b i v]> (ints s)) (elems s)).
Proof. unfold st_int. by intros -> [w ->]. Qed.

Lemma ld_int_view s p b i v :
  ints s !! p = Some b -> idx b i = Some v -> ld_int (Some p) i s = Done (v, s).
Proof. unfold ld_int. by intros -> ->. Qed.

Lemma ld_stride_view s this o p b i v :
  objs s !! this = Some o -> _stride o = Some p -> ints s !! p = Some b ->
  idx b i = Some v -> ld_stride this i s = Done (v, s).
Proof.
  intros Ho Hp Hb Hv. unfold ld_stride.
  rewrite (bind_done _ _ _ _ _ (get_stride_view _ _ _ Ho)), Hp.
  by apply ld_int_view with b.
Qed.

Lemma ld_shape_view s this o p b i v :
  objs s !! this = Some o -> _shape o = Some p -> ints s !! p = Some b ->
  idx b i = Some v -> ld_shape this i s = Done (v, s).
Proof.
  intros Ho Hp Hb Hv. unfold ld_shape.
  rewrite (bind_done _ _ _ _ _ (get_shape_view _ _ _ Ho)), Hp.
  by apply ld_int_view with b.
Qed.

Lemma fresh_buffers_differ s :
  fresh (dom (ints s)) <> fresh ({[fresh (dom (ints s))]} ∪ dom (ints s)).
Proof.
  intros E. pose proof (is_fresh ({[fresh (dom (ints s))]} ∪ dom (ints s))) as Hf.
  rewrite <- E in Hf. set_solver.
Qed.

Lemma fresh_obj_ne s (a : addr) o : objs s !! a = Some o -> a <> fresh (dom (objs s)).
Proof.
  intros Ho E. pose proof (is_fresh (dom (objs s))) as Hf. rewrite <- E in Hf.
  apply Hf, elem_of_dom. eauto.
Qed.

Lemma fresh_ints_ne s (l : loc) b : ints s !! l = Some b -> l <> fresh (dom (ints s)).
Proof.
  intros Ho E. pose proof (is_fresh (dom (ints s))) as Hf. rewrite <- E in Hf.
  apply Hf, elem_of_dom. eauto.
Qed.

Lemma fresh_ints_ne2 s (l : loc) b :
  ints s !! l = Some b -> l <> fresh ({[fresh (dom (ints s))]} ∪ dom (ints s)).
Proof.
  intros Ho E. pose proof (is_fresh ({[fresh (dom (ints s))]} ∪ dom (ints s))) as Hf.
  rewrite <- E in Hf. apply Hf, elem_of_union_r, elem_of_dom. eauto.
Qed.

Lemma fresh_elems_ne s (l : loc) (b : list dtype) :
  elems s !! l = Some b -> l <> fresh (dom (elems s)).
Proof.
  intros Ho E. pose proof (is_fresh (dom (elems s))) as Hf. rewrite <- E in Hf.
  apply Hf, elem_of_dom. eauto.
Qed.

End Views.

Section Indexing.
Context {dtype : Type} (D : nat).
Implicit Types (s : @state dtype) (o : ndarray).
Import Int32 Int32Facts.

Lemma dot_nil_r c : dot c [] = 0.
Proof. by destruct c. Qed.

Lemma dot_zeros n st : dot (replicate n 0) st = 0.
Proof.
  revert st. induction n as [|n IH]; intros [|s0 st]; simpl; try done.
  rewrite IH. lia.
Qed.

Lemma dot_app c c' st :
  dot (c ++ c') st = dot c st + dot c' (drop (length c) st).
Proof.
  revert st. induction c as [|c0 c IH]; intros st; simpl.
  - by rewrite drop_0.
  - destruct st as [|s0 st]; simpl.
    + by rewrite dot_nil_r.
    + rewrite IH. lia.
Qed.

Lemma dot_pad c n st : dot (c ++ replicate n 0) st = dot c st.
Proof. rewrite dot_app, dot_zeros. lia. Qed.

(** The recursion of [adder] over the pack, read off the stride buffer
    from position [j] on. *)
Lemma adder_view s p st rest : forall first j,
  ints s !! p = Some st ->
  0 <= j -> (Z.to_nat j + length rest < length st)%nat ->
  adder (Some p, j) first rest s
  = Done (wrap (dot (first :: rest) (drop (Z.to_nat j) st)), s).
Proof.
  induction rest as [|a rest IH]; intros first j Hst Hj Hlen; simpl in *.
  - destruct (lookup_lt_is_Some_2 st (Z.to_nat j)) as [v Hv]; [lia|].
    rewrite (bind_done _ _ _ _ _ (ld_int_view s p st j v Hst ltac:(by apply idx_Some))).
    rewrite (drop_S _ _ _ Hv). unfold ret, mul. do 2 f_equal. f_equal. lia.
  - destruct (lookup_lt_is_Some_2 st (Z.to_nat j)) as [v Hv]; [lia|].
    rewrite (bind_done _ _ _ _ _ (ld_int_view s p st j v Hst ltac:(by apply idx_Some))).
    rewrite (bind_done _ _ _ _ _ (IH a (j + 1) Hst ltac:(lia) ltac:(lia))).
    rewrite (drop_S _ _ _ Hv). unfold ret, add, mul.
    rewrite wrap_add_l, wrap_add_r. replace (Z.to_nat (j + 1)) with (S (Z.to_nat j)) by lia.
    simpl. do 2 f_equal. f_equal. lia.
Qed.

(** The accumulation loop of coordinate indexing. *)
Lemma fold_coo_view s this o p st coo : forall n i acc,
  objs s !! this = Some o -> _stride o = Some p -> ints s !! p = Some st ->
  in_range acc ->
  (i + n <= length coo)%nat -> (i + n < length st)%nat ->
  fold_from i n (fun i offset =>
      match idx coo (Z.of_nat i) with
      | Some c =>
          bind (ld_stride this (Z.of_nat i + 1)) (fun w => ret (add offset (mul c w)))
      | None => raise OutOfBounds
      end) acc s
  = Done (wrap (acc + dot (take n (drop i coo)) (drop (S i) st)), s).
Proof.
  induction n as [|n IH]; intros i acc Ho Hp Hst Hacc Hc Hl; simpl.
  - unfold ret. rewrite Z.add_0_r, wrap_small; done.
  - destruct (lookup_lt_is_Some_2 coo i) as [c Hci]; [lia|].
    destruct (lookup_lt_is_Some_2 st (S i)) as [v Hv]; [lia|].
    rewrite idx_nat, Hci.
    assert (Hld : ld_stride this (Z.of_nat i + 1) s = Done (v, s)).
    { eapply ld_stride_view; eauto. apply idx_Some. split; [lia|].
      by replace (Z.to_nat (Z.of_nat i + 1)) with (S i) by lia. }
    unfold bind at 1. rewrite (bind_done _ _ _ _ _ Hld). unfold ret at 1.
    rewrite (IH (S i) _ Ho Hp Hst) by (apply add_range || lia).
    rewrite (drop_S _ _ _ Hci), (drop_S _ _ _ Hv). simpl.
    unfold add, mul. rewrite wrap_add_l.
    rewrite <- Z.add_assoc, (Z.add_comm acc), <- Z.add_assoc, wrap_add_l.
    do 2 f_equal. f_equal. lia.
Qed.

(** C4.  Indexing with [k] arguments, [1 <= k <= D], returns the same
    reference as coordinate indexing with the arguments padded by zeros
    to [D] coordinates: the element of [head] at the 32-bit sum of
    coordinate times current stride over the axes, which is the plain sum
    whenever that sum fits [int32_t]. *)
Theorem variadic_equals_padded_coordinates s this o pst st first rest :
  objs s !! this = Some o -> _stride o = Some pst -> ints s !! pst = Some st ->
  length st = S D -> (S (length rest) <= D)%nat ->
  let coo := (first :: rest) ++ replicate (D - S (length rest)) 0 in
  let off := wrap (dot coo (tail st)) in
  at_args this first rest s = Done ((head o, off), s) /\
  at_coo D this coo s = Done ((head o, off), s) /\
  (in_range (dot coo (tail st)) -> off = dot coo (tail st)).
Proof.
  intros Ho Hp Hst Hlen Hk coo off. split; [|split].
  - unfold at_args.
    rewrite (bind_done _ _ _ _ _ (get_head_view _ _ _ Ho)).
    rewrite (bind_done _ _ _ _ _ (get_stride_view _ _ _ Ho)), Hp.
    rewrite (bind_done _ _ _ _ _ (adder_view s pst st rest first 1 Hst ltac:(lia) ltac:(simpl; lia))).
    unfold ret, off, coo. rewrite dot_pad.
    destruct st; [done|]. reflexivity.
  - unfold at_coo.
    assert (Hc : length coo = D).
    { unfold coo. rewrite length_app, length_replicate. simpl. lia. }
    rewrite (bind_done _ _ _ _ _
      (fold_coo_view s this o pst st coo D 0%nat 0 Ho Hp Hst ltac:(done) ltac:(lia) ltac:(lia))).
    rewrite (bind_done _ _ _ _ _ (get_head_view _ _ _ Ho)).
    unfold ret, off. rewrite drop_0, firstn_all2 by lia.
    destruct st; [done|]. reflexivity.
  - intros Hr. by apply wrap_small.
Qed.

End Indexing.

(** ** Products and the specified strides *)

Lemma product_app l1 l2 : product (l1 ++ l2) = product l1 * product l2.
Proof.
  induction l1 as [|e l1 IH]; simpl.
  - change (product []) with 1. lia.
  - change (product (e :: l1 ++ l2)) with (e * product (l1 ++ l2)).
    change (product (e :: l1)) with (e * product l1). rewrite IH. lia.
Qed.

Lemma product_pos l : Forall (fun e => 0 < e) l -> 0 < product l.
Proof.
  induction 1 as [|e l He _ IH]; [done|].
  change (product (e :: l)) with (e * product l). lia.
Qed.

Lemma product_drop l i e :
  l !! i = Some e -> product (drop i l) = e * product (drop (S i) l).
Proof. intros H. by rewrite (drop_S _ _ _ H). Qed.

Lemma product_take_drop l i : product l = product (take i l) * product (drop i l).
Proof. by rewrite <- product_app, take_drop. Qed.

Lemma hd_spec_strides l : hd 1 (spec_strides l) = product l.
Proof.
  induction l as [|e l IH]; [done|].
  change (spec_strides (e :: l)) with (hd 1 (spec_strides l) * e :: spec_strides l).
  change (product (e :: l)) with (e * product l). simpl. rewrite IH. lia.
Qed.

Lemma length_spec_strides l : length (spec_strides l) = S (length l).
Proof. induction l; simpl; auto. Qed.

Lemma spec_strides_lookup l i :
  (i <= length l)%nat -> spec_strides l !! i = Some (product (drop i l)).
Proof.
  revert i. induction l as [|e l IH]; intros i Hi.
  - simpl in Hi. by replace i with 0%nat by lia.
  - destruct i as [|i].
    + change (spec_strides (e :: l)) with (hd 1 (spec_strides l) * e :: spec_strides l).
      simpl. rewrite hd_spec_strides.
      change (product (e :: l)) with (e * product l). f_equal. lia.
    + change (spec_strides (e :: l)) with (hd 1 (spec_strides l) * e :: spec_strides l).
      simpl. apply IH. simpl in Hi. lia.
Qed.

Section Roll.
Variables (st n : Z).
Hypothesis (Hst : 0 < st) (Hn : 0 < n).

Lemma pos_encode q c t :
  0 <= c < n -> 0 <= t < st -> pos st n (q * (st * n) + (c * st + t)) = c.
Proof.
  intros Hc Ht. unfold pos.
  rewrite Z.add_comm, Z_mod_plus_full, Z.mod_small by nia.
  rewrite Z.div_add_l, Z.div_small by lia. lia.
Qed.

Lemma decode r :
  exists q c t, r = q * (st * n) + (c * st + t) /\ 0 <= c < n /\ 0 <= t < st
                /\ (0 <= r -> 0 <= q).
Proof.
  exists (r / (st * n)), (r mod (st * n) / st), (r mod (st * n) mod st).
  assert (0 < st * n) by nia.
  pose proof (Z.mod_pos_bound r (st * n) ltac:(lia)) as Hu.
  pose proof (Z.mod_pos_bound (r mod (st * n)) st Hst) as Ht.
  pose proof (Z_div_mod_eq_full r (st * n)) as E1.
  pose proof (Z_div_mod_eq_full (r mod (st * n)) st) as E2.
  assert (0 <= r mod (st * n) / st) by (apply Z.div_pos; lia).
  assert (r mod (st * n) / st < n).
  { apply Z.div_lt_upper_bound; lia. }
  repeat split; try lia.
  intros. apply Z.div_pos; lia.
Qed.

Lemma fwd_spec r :
  pos st n (fwd st n r) = (pos st n r + 1) mod n /\ base st n (fwd st n r) = base st n r.
Proof.
  destruct (decode r) as (q & c & t & -> & Hc & Ht & _).
  unfold fwd, base. rewrite pos_encode by done. case_decide as Hlast.
  - replace (q * (st * n) + (c * st + t) + st - st * n)
      with (q * (st * n) + (0 * st + t)) by (subst c; lia).
    rewrite pos_encode by lia. subst c.
    replace (n - 1 + 1) with n by lia. rewrite Z_mod_same_full. lia.
  - replace (q * (st * n) + (c * st + t) + st)
      with (q * (st * n) + ((c + 1) * st + t)) by lia.
    rewrite pos_encode by lia. rewrite Z.mod_small by lia. lia.
Qed.

Lemma bwd_spec r :
  pos st n (bwd st n r) = (pos st n r - 1) mod n /\ base st n (bwd st n r) = base st n r.
Proof.
  destruct (decode r) as (q & c & t & -> & Hc & Ht & _).
  unfold bwd, base. rewrite pos_encode by done. case_decide as Hfirst.
  - replace (q * (st * n) + (c * st + t) - st + st * n)
      with (q * (st * n) + ((n - 1) * st + t)) by (subst c; lia).
    rewrite pos_encode by lia. subst c.
    replace (0 - 1) with (n - 1 + (-1) * n) by lia.
    rewrite Z_mod_plus_full, Z.mod_small by lia. lia.
  - replace (q * (st * n) + (c * st + t) - st)
      with (q * (st * n) + ((c - 1) * st + t)) by lia.
    rewrite pos_encode by lia. rewrite Z.mod_small by lia. lia.
Qed.

Lemma pos_range r : 0 <= pos st n r < n.
Proof.
  destruct (decode r) as (q & c & t & -> & Hc & Ht & _). by rewrite pos_encode.
Qed.

Lemma pos_base_inj r r' : pos st n r = pos st n r' -> base st n r = base st n r' -> r = r'.
Proof. unfold base. intros -> ?. lia. Qed.

Lemma block_facts q c t m :
  0 <= c < n -> 0 <= t < st ->
  (0 <= q * (st * n) + (c * st + t) -> 0 <= q) ->
  0 <= q * (st * n) + (c * st + t) < m * (st * n) ->
  0 <= q * (st * n) /\ (q + 1) * (st * n) <= m * (st * n)
  /\ 0 <= c * st /\ (c + 1) * st <= n * st.
Proof.
  intros Hc Ht Hq Hr.
  assert (0 < st * n) by (apply Z.mul_pos_pos; lia).
  assert (0 <= c * st) by (apply Z.mul_nonneg_nonneg; lia).
  assert (0 <= q) by (apply Hq; lia).
  assert (q < m).
  { apply (Z.mul_lt_mono_pos_r (st * n)); lia. }
  repeat split.
  - apply Z.mul_nonneg_nonneg; lia.
  - apply Z.mul_le_mono_nonneg_r; lia.
  - done.
  - apply Z.mul_le_mono_nonneg_r; lia.
Qed.

(** Both steps stay inside the block of [st * n] offsets they start in. *)
Lemma fwd_block r m : 0 <= r < m * (st * n) -> 0 <= fwd st n r < m * (st * n).
Proof.
  destruct (decode r) as (q & c & t & -> & Hc & Ht & Hq). intros Hr.
  destruct (block_facts q c t m Hc Ht Hq Hr) as (? & ? & ? & ?).
  unfold fwd. rewrite pos_encode by done. case_decide; [subst c; lia|].
  assert ((c + 2) * st <= n * st) by (apply Z.mul_le_mono_nonneg_r; lia). lia.
Qed.

Lemma bwd_block r m : 0 <= r < m * (st * n) -> 0 <= bwd st n r < m * (st * n).
Proof.
  destruct (decode r) as (q & c & t & -> & Hc & Ht & Hq). intros Hr.
  destruct (block_facts q c t m Hc Ht Hq Hr) as (? & ? & ? & ?).
  unfold bwd. rewrite pos_encode by done. case_decide; [subst c; lia|].
  assert (1 * st <= c * st) by (apply Z.mul_le_mono_nonneg_r; lia). lia.
Qed.

Lemma bwd_fwd r : bwd st n (fwd st n r) = r.
Proof.
  apply pos_base_inj.
  - destruct (bwd_spec (fwd st n r)) as [-> _]. destruct (fwd_spec r) as [-> _].
    pose proof (pos_range r).
    rewrite Zminus_mod_idemp_l. replace (pos st n r + 1 - 1) with (pos st n r) by lia.
    apply Z.mod_small. lia.
  - destruct (bwd_spec (fwd st n r)) as [_ ->]. by destruct (fwd_spec r) as [_ ->].
Qed.

Lemma iter_fwd_spec k r :
  pos st n (Nat.iter k (fwd st n) r) = (pos st n r + Z.of_nat k) mod n /\ base st n (Nat.iter k (fwd st n) r) = base st n r.
Proof.
  induction k as [|k [IHp IHb]].
  - simpl. pose proof (pos_range r). rewrite Z.add_0_r, Z.mod_small; done.
  - simpl. destruct (fwd_spec (Nat.iter k (fwd st n) r)) as [-> ->]. split; [|done].
    rewrite IHp, Zplus_mod_idemp_l. f_equal. lia.
Qed.

Lemma iter_fwd_period r : Nat.iter (Z.to_nat n) (fwd st n) r = r.
Proof.
  apply pos_base_inj.
  - destruct (iter_fwd_spec (Z.to_nat n) r) as [-> _].
    pose proof (pos_range r).
    rewrite Z2Nat.id by lia.
    replace (pos st n r + n) with (pos st n r + 1 * n) by lia.
    rewrite Z_mod_plus_full. apply Z.mod_small. lia.
  - by destruct (iter_fwd_spec (Z.to_nat n) r) as [_ ->].
Qed.

Lemma iter_fwd_block k r m :
  0 <= r < m * (st * n) -> 0 <= Nat.iter k (fwd st n) r < m * (st * n).
Proof. intros Hr. induction k; simpl; [done|]. by apply fwd_block. Qed.

End Roll.

Section Rolling.
Context {dtype : Type} (D : nat).
(** [D] is an [int] template argument. *)
Hypothesis D_int : Z.of_nat D <= Int32.max_int.
Implicit Types (s : @state dtype) (o : ndarray).
Import Int32 Int32Facts.

Lemma rollindex_view dir s this ax st n m r :
  axis_view D s this ax st n m -> 0 <= r < m * (st * n) ->
  rollindex dir this r ax s = Done ((if dir then fwd st n r else bwd st n r), s).
Proof.
  intros [(o & psh & pst & shl & stl & Ho & Hpsh & Hpst & Hshl & Hstl & H0 & H1 & Hn)
          Hax Hst Hn' Hfit] Hr.
  assert (Hblk : 0 < st * n) by (apply Z.mul_pos_pos; lia).
  assert (Hm : 0 < m) by nia.
  assert (Hle : st * n <= m * (st * n)) by nia.
  assert (Hst' : st <= st * n) by nia.
  unfold rollindex. cbv zeta.
  rewrite (bind_done _ _ _ _ _ (ld_stride_view s this o pst stl ax _ Ho Hpst Hstl H0)).
  assert (Hax1 : add ax 1 = ax + 1) by (apply wrap_small; unfold in_range, max_int in *; lia).
  rewrite Hax1.
  rewrite (bind_done _ _ _ _ _ (ld_stride_view s this o pst stl _ _ Ho Hpst Hstl H1)).
  rewrite decide_False by lia.
  rewrite decide_False by lia.
  rewrite (bind_done _ _ _ _ _ (ld_shape_view s this o psh shl ax _ Ho Hpsh Hshl Hn)).
  rewrite Z.rem_mod_nonneg by lia.
  pose proof (Z.mod_pos_bound r (st * n) Hblk) as Hu.
  rewrite Z.quot_div_nonneg by lia.
  change (r mod (st * n) / st) with (pos st n r).
  pose proof (pos_range st n Hst Hn' r) as Hp.
  assert (Hpw : wrap (pos st n r) = pos st n r).
  { apply wrap_small. unfold in_range, max_int in *. nia. }
  rewrite Hpw.
  assert (Hrng : forall z, 0 <= z < m * (st * n) -> in_range z).
  { intros z Hz. unfold in_range, max_int in *. lia. }
  destruct dir; cbn [of_bool].
  - pose proof (fwd_block st n Hst Hn' r m Hr) as Hf. unfold fwd in *.
    replace (sub (mul 2 1) 1) with 1 by reflexivity.
    assert (Hn1 : mul 1 (sub n 1) = n - 1).
    { unfold mul, sub. apply wrap_eq; [apply Hrng; nia|].
      rewrite wrap_eqm. apply eqm_refl'. lia. }
    rewrite Hn1. unfold add, sub, mul.
    case_decide.
    + unfold ret. do 2 f_equal.
      apply wrap_eq; [apply Hrng; lia|].
      rewrite !wrap_eqm. apply eqm_refl'. lia.
    + unfold ret. do 2 f_equal.
      apply wrap_eq; [apply Hrng; lia|].
      rewrite !wrap_eqm. apply eqm_refl'. lia.
  - pose proof (bwd_block st n Hst Hn' r m Hr) as Hf. unfold bwd in *.
    replace (sub (mul 2 0) 1) with (-1) by reflexivity.
    rewrite mul_0_l. unfold add, sub, mul.
    case_decide.
    + unfold ret. do 2 f_equal.
      apply wrap_eq; [apply Hrng; lia|].
      rewrite !wrap_eqm. apply eqm_refl'. lia.
    + unfold ret. do 2 f_equal.
      apply wrap_eq; [apply Hrng; lia|].
      rewrite !wrap_eqm. apply eqm_refl'. lia.
Qed.

Lemma shape_of_inv s this sh :
  shape_of s this = Some sh ->
  exists o p, objs s !! this = Some o /\ _shape o = Some p /\ ints s !! p = Some sh.
Proof.
  unfold shape_of. intros H.
  destruct (objs s !! this) as [o|] eqn:Ho; [|done]. simpl in H.
  destruct (_shape o) as [p|] eqn:Hp; [|done]. simpl in H. eauto.
Qed.

Lemma stride_of_inv s this st :
  stride_of s this = Some st ->
  exists o p, objs s !! this = Some o /\ _stride o = Some p /\ ints s !! p = Some st.
Proof.
  unfold stride_of. intros H.
  destruct (objs s !! this) as [o|] eqn:Ho; [|done]. simpl in H.
  destruct (_stride o) as [p|] eqn:Hp; [|done]. simpl in H. eauto.
Qed.

(** An array that still has the strides its constructor gave it shows
    [rollindex] what it needs on every axis. *)
Lemma constructed_axis_view s this sh ax :
  shape_of s this = Some sh -> stride_of s this = Some (spec_strides sh) ->
  length sh = D -> Forall (fun e => 0 < e) sh -> product sh <= max_int ->
  0 <= ax < Z.of_nat D ->
  exists st n m, axis_view D s this ax st n m /\ idx sh ax = Some n /\
                 m * (st * n) = product sh.
Proof.
  intros (o & psh & Ho & Hpsh & Hsh)%shape_of_inv
         (o' & pst & Ho' & Hpst & Hst)%stride_of_inv Hlen Hpos Hfit Hax.
  assert (o' = o) as -> by congruence.
  destruct (lookup_lt_is_Some_2 sh (Z.to_nat ax)) as [n Hn]; [lia|].
  exists (product (drop (S (Z.to_nat ax)) sh)), n, (product (take (Z.to_nat ax) sh)).
  assert (Hblk : product (drop (S (Z.to_nat ax)) sh) * n = product (drop (Z.to_nat ax) sh)).
  { rewrite (product_drop _ _ _ Hn). lia. }
  split; [split|split].
  - exists o, psh, pst, sh, (spec_strides sh). repeat split; try done.
    + apply idx_Some. split; [lia|]. rewrite Hblk. apply spec_strides_lookup. lia.
    + apply idx_Some. split; [lia|].
      replace (Z.to_nat (ax + 1)) with (S (Z.to_nat ax)) by lia.
      apply spec_strides_lookup. lia.
    + apply idx_Some. split; [lia|done].
  - done.
  - apply product_pos. by apply Forall_drop.
  - eapply (Forall_lookup_1 _ _ _ _ Hpos Hn).
  - rewrite Hblk, <- product_take_drop. done.
  - apply idx_Some. split; [lia|done].
  - rewrite Hblk. symmetry. apply product_take_drop.
Qed.

Lemma rollind_forward s this ax st n m r :
  axis_view D s this ax st n m -> 0 <= r < m * (st * n) ->
  rollind D this r ax s = Done (fwd st n r, s).
Proof.
  intros Hv Hr. unfold rollind. rewrite decide_False by (destruct Hv; lia).
  by rewrite (rollindex_view true s this ax st n m r Hv Hr).
Qed.

Lemma rollind_backward s this ax st n m r :
  axis_view D s this ax st n m -> 0 <= r < m * (st * n) ->
  rollind D this r (ax - Z.of_nat D) s = Done (bwd st n r, s).
Proof.
  intros Hv Hr. unfold rollind. rewrite decide_True by (destruct Hv; lia).
  replace (add (ax - Z.of_nat D) (Z.of_nat D)) with ax.
  - by rewrite (rollindex_view false s this ax st n m r Hv Hr).
  - unfold add. replace (ax - Z.of_nat D + Z.of_nat D) with ax by lia.
    symmetry. apply wrap_small. destruct Hv.
    unfold in_range, max_int in *. lia.
Qed.

Lemma roll_n_forward s this ax st n m k : forall r,
  axis_view D s this ax st n m -> 0 <= r < m * (st * n) ->
  roll_n D k this r ax s = Done (Nat.iter k (fwd st n) r, s).
Proof.
  induction k as [|k IH]; intros r Hv Hr; [done|].
  cbn [roll_n]. rewrite (bind_done _ _ _ _ _ (rollind_forward s this ax st n m r Hv Hr)).
  rewrite IH; [|done|apply fwd_block; destruct Hv; done].
  by rewrite Nat.iter_succ_r.
Qed.

(** An axis whose stored strides nest, on an array whose size is a
    whole number of its blocks, shows [rollindex] what it needs. *)
Lemma nested_axis_view s this sh st ax n w sz :
  shape_of s this = Some sh -> stride_of s this = Some st ->
  0 <= ax < Z.of_nat D ->
  idx sh ax = Some n -> idx st (ax + 1) = Some w -> idx st ax = Some (w * n) ->
  0 < n -> 0 < w -> (w * n | sz) -> sz <= max_int ->
  exists m, axis_view D s this ax w n m /\ sz = m * (w * n).
Proof.
  intros (o & psh & Ho & Hpsh & Hsh)%shape_of_inv
         (o' & pst & Ho' & Hpst & Hst)%stride_of_inv Hax Hn Hw Hb Hn0 Hw0 [m Hm] Hfit.
  assert (o' = o) as -> by congruence.
  exists m. split; [|done]. split; try done.
  - by exists o, psh, pst, sh, st.
  - by rewrite <- Hm.
Qed.

(** C2, on the axes whose strides nest.  On an array whose [size()]
    is at most [2^31 - 1], for an axis [ax] with [0 <= ax < D] whose
    stored strides nest - [_stride[ax] = _stride[ax+1] * _shape[ax]]
    with both factors positive - and whose block [_stride[ax]] divides
    [size()], and for every raw offset [0 <= r < size()]: rolling
    forward along [ax] as many times as the axis is long returns [r],
    and one step forward followed by one step backward (the negative
    axis [ax - D]) returns [r].  Every axis of an array constructed
    within [int32_t] is such an axis, and so is an axis of a transposed
    array whose three entries still satisfy the relation. *)
Theorem rolling_is_periodic_along_nested_strides s this sh st ax n w sz r :
  shape_of s this = Some sh -> stride_of s this = Some st ->
  0 <= ax < Z.of_nat D ->
  idx sh ax = Some n -> idx st (ax + 1) = Some w -> idx st ax = Some (w * n) ->
  idx st 0 = Some sz ->
  0 < n -> 0 < w -> (w * n | sz) -> sz <= max_int ->
  0 <= r < sz ->
  roll_n D (Z.to_nat n) this r ax s = Done (r, s) /\
  bind (rollind D this r ax) (fun r' => rollind D this r' (ax - Z.of_nat D)) s
  = Done (r, s).
Proof.
  intros Hsh Hst Hax Hn Hw Hb _ Hn0 Hw0 Hdiv Hfit Hr.
  destruct (nested_axis_view s this sh st ax n w sz Hsh Hst Hax Hn Hw Hb Hn0 Hw0 Hdiv Hfit)
    as (m & Hv & ->).
  split.
  - rewrite (roll_n_forward s this ax w n m _ r Hv Hr).
    rewrite iter_fwd_period; [done|apply Hv..].
  - rewrite (bind_done _ _ _ _ _ (rollind_forward s this ax w n m r Hv Hr)).
    rewrite (rollind_backward s this ax w n m); [|done|apply fwd_block; destruct Hv; done].
    rewrite bwd_fwd; [done|apply Hv..].
Qed.

(** X26.  Rolling on an array as constructed: on an array whose strides
    are the row-major strides of its positive extents, with an element
    count that fits [int32_t], and for every valid raw offset [r] and
    axis [ax]: rolling forward along [ax] as many times as the axis is
    long returns [r], and one step forward followed by one step backward
    (the negative axis [ax - D]) returns [r]. *)
Theorem rolling_is_periodic_on_constructed_strides s this sh ax r :
  shape_of s this = Some sh -> stride_of s this = Some (spec_strides sh) ->
  length sh = D -> Forall (fun e => 0 < e) sh -> product sh <= max_int ->
  0 <= ax < Z.of_nat D -> 0 <= r < product sh ->
  exists n, idx sh ax = Some n /\
    roll_n D (Z.to_nat n) this r ax s = Done (r, s) /\
    bind (rollind D this r ax) (fun r' => rollind D this r' (ax - Z.of_nat D)) s
    = Done (r, s).
Proof.
  intros Hsh Hst Hlen Hpos Hfit Hax Hr.
  destruct (constructed_axis_view s this sh ax Hsh Hst Hlen Hpos Hfit Hax)
    as (st & n & m & Hv & Hn & Hm).
  rewrite <- Hm in Hr. exists n. split; [done|]. split.
  - rewrite (roll_n_forward s this ax st n m _ r Hv Hr).
    rewrite iter_fwd_period; [done|apply Hv..].
  - rewrite (bind_done _ _ _ _ _ (rollind_forward s this ax st n m r Hv Hr)).
    rewrite (rollind_backward s this ax st n m); [|done|apply fwd_block; destruct Hv; done].
    rewrite bwd_fwd; [done|apply Hv..].
Qed.

End Rolling.

Section Loops.
Context {St : Type}.

(** A loop whose every round succeeds and carries [I] from [k] to [S k]. *)
Lemma for_from_total (I : nat -> St -> Prop) (body : nat -> M St unit) n : forall i s,
  I i s ->
  (forall k s1, (i <= k < i + n)%nat -> I k s1 ->
     exists s2, body k s1 = Done (tt, s2) /\ I (S k) s2) ->
  exists s', for_from i n body s = Done (tt, s') /\ I (i + n)%nat s'.
Proof.
  induction n as [|n IH]; intros i s Hi Hstep; simpl.
  - exists s. by rewrite Nat.add_0_r.
  - destruct (Hstep i s ltac:(lia) Hi) as (s2 & Hb & Hi2).
    rewrite (bind_done _ _ _ _ _ Hb).
    destruct (IH (S i) s2 Hi2) as (s' & Hs' & HI).
    { intros k s1 Hk. apply Hstep. lia. }
    exists s'. split; [done|]. by replace (i + S n)%nat with (S i + n)%nat by lia.
Qed.

(** A loop that returns can only have gone through returning rounds. *)
Lemma for_from_inv (R : St -> St -> Prop) (body : nat -> M St unit) n : forall i s s',
  (forall x, R x x) -> (forall x y z, R x y -> R y z -> R x z) ->
  (forall k s1 s2, body k s1 = Done (tt, s2) -> R s1 s2) ->
  for_from i n body s = Done (tt, s') -> R s s'.
Proof.
  induction n as [|n IH]; intros i s s' Hrefl Htrans Hstep; simpl.
  - intros [= <-]. apply Hrefl.
  - intros (u & s1 & Hb & Hrest)%bind_inv. destruct u.
    eapply Htrans; [by eapply Hstep|]. by eapply IH.
Qed.

End Loops.

Section Construction.
Context {dtype : Type} (D : nat).
Variable indet_int : loc -> nat -> Z.
Variable indet : loc -> nat -> dtype.
Implicit Types (s : @state dtype) (o : ndarray).
Import Int32 Int32Facts.

Lemma built_obj s this psh pst ph sh st :
  objs (built s this psh pst ph sh st) !! this = Some (Ndarray (Some psh) (Some pst) ph).
Proof. apply lookup_insert_eq. Qed.

Lemma built_stride s this psh pst ph sh st :
  ints (built s this psh pst ph sh st) !! pst = Some st.
Proof. apply lookup_insert_eq. Qed.

Lemma built_shape s this psh pst ph sh st :
  psh <> pst -> ints (built s this psh pst ph sh st) !! psh = Some sh.
Proof. intros. simpl. rewrite lookup_insert_ne by done. apply lookup_insert_eq. Qed.

Lemma ld_stride_built s this psh pst ph sh st i v :
  idx st i = Some v ->
  ld_stride this i (built s this psh pst ph sh st)
  = Done (v, built s this psh pst ph sh st).
Proof.
  intros. eapply ld_stride_view; [apply built_obj|done|apply built_stride|done].
Qed.

Lemma ld_shape_built s this psh pst ph sh st i v :
  psh <> pst -> idx sh i = Some v ->
  ld_shape this i (built s this psh pst ph sh st)
  = Done (v, built s this psh pst ph sh st).
Proof.
  intros. eapply ld_shape_view; [apply built_obj|done|by apply built_shape|done].
Qed.

Lemma st_stride_built s this psh pst ph sh st i v :
  is_Some (idx st i) ->
  st_stride this i v (built s this psh pst ph sh st)
  = Done (tt, built s this psh pst ph sh (upd st i v)).
Proof.
  intros [w Hw]. unfold st_stride.
  rewrite (bind_done _ _ _ _ _ (get_stride_view _ _ _ (built_obj _ _ _ _ _ _ _))).
  unfold st_int. simpl. rewrite lookup_insert_eq, Hw.
  unfold built. by rewrite insert_insert_eq.
Qed.

Lemma st_shape_built s this psh pst ph sh st i v :
  psh <> pst -> is_Some (idx sh i) ->
  st_shape this i v (built s this psh pst ph sh st)
  = Done (tt, built s this psh pst ph (upd sh i v) st).
Proof.
  intros Hne [w Hw]. unfold st_shape.
  rewrite (bind_done _ _ _ _ _ (get_shape_view _ _ _ (built_obj _ _ _ _ _ _ _))).
  unfold st_int. simpl. rewrite lookup_insert_ne, lookup_insert_eq, Hw by done.
  unfold built. do 3 f_equal.
  rewrite (insert_insert_ne _ psh pst) by done. by rewrite insert_insert_eq.
Qed.

Lemma set_head_built s this psh pst ph ph' sh st :
  set_head this ph' (built s this psh pst ph sh st)
  = Done (tt, built s this psh pst ph' sh st).
Proof.
  unfold set_head.
  rewrite (bind_done _ _ _ _ _ (obj_view _ _ _ (built_obj _ _ _ _ _ _ _))).
  unfold set_obj. rewrite built_obj. simpl. unfold built.
  by rewrite insert_insert_eq.
Qed.

(** [check] walks the shape buffer and exits at the first extent that
    is not positive. *)
Lemma check_from_built s this psh pst ph sh st n : forall i,
  psh <> pst -> (i + n <= length sh)%nat ->
  for_from i n (fun i =>
      bind (ld_shape this (Z.of_nat i)) (fun e =>
        if decide (e <= 0) then exit "Error: Positive shape needed!" else ret tt))
    (built s this psh pst ph sh st)
  = if decide (Forall (fun e => 0 < e) (take n (drop i sh)))
    then Done (tt, built s this psh pst ph sh st)
    else Exit "Error: Positive shape needed!".
Proof.
  induction n as [|n IH]; intros i Hne Hlen; cbn [for_from].
  - rewrite take_0, decide_True; [done|constructor].
  - destruct (lookup_lt_is_Some_2 sh i) as [e He]; [lia|].
    rewrite (drop_S _ _ _ He), firstn_cons.
    unfold bind at 1.
    rewrite (bind_done _ _ _ _ _
      (ld_shape_built s this psh pst ph sh st _ e Hne ltac:(by rewrite idx_nat))).
    destruct (decide (e <= 0)) as [Hle|Hgt].
    + unfold exit. rewrite decide_False; [done|].
      intros [? _]%Forall_cons. lia.
    + unfold ret. rewrite IH by (done || lia).
      destruct (decide (Forall _ (take n _))) as [Hall|Hnall].
      * rewrite decide_True; [done|]. constructor; [lia|done].
      * rewrite decide_False; [done|]. by intros [_ ?]%Forall_cons.
Qed.

Lemma check_built s this psh pst ph sh st :
  psh <> pst -> length sh = D ->
  check D this (built s this psh pst ph sh st)
  = if decide (Forall (fun e => 0 < e) sh)
    then Done (tt, built s this psh pst ph sh st)
    else Exit "Error: Positive shape needed!".
Proof.
  intros Hne Hlen. unfold check, for_loop.
  rewrite (check_from_built s this psh pst ph sh st D 0%nat Hne) by lia.
  by rewrite drop_0, firstn_all2 by lia.
Qed.

Lemma shape_inv_step ext k sh e :
  shape_inv D ext k sh -> (k < D)%nat -> ext !! k = Some e ->
  is_Some (idx sh (Z.of_nat k)) /\ shape_inv D ext (S k) (upd sh (Z.of_nat k) e).
Proof.
  intros [Hlen Hpre] Hk He. split.
  - apply idx_is_Some. lia.
  - split; [by rewrite length_upd|]. intros i Hi. unfold upd. rewrite Nat2Z.id.
    destruct (decide (i = k)) as [->|Hne].
    + rewrite list_lookup_insert_eq by lia. done.
    + rewrite list_lookup_insert_ne by done. apply Hpre. lia.
Qed.

Lemma stride_inv_step ext k st e :
  stride_inv D ext k st -> (k < D)%nat -> ext !! (D - k - 1)%nat = Some e ->
  exists sv, idx st (Z.of_nat D - Z.of_nat k) = Some sv /\
    is_Some (idx st (Z.of_nat D - Z.of_nat k - 1)) /\
    stride_inv D ext (S k) (upd st (Z.of_nat D - Z.of_nat k - 1) (mul sv e)).
Proof.
  intros (Hlen & Hlast & Hrec) Hk He.
  destruct (lookup_lt_is_Some_2 st (D - k)%nat) as [sv Hsv]; [lia|].
  exists sv. split; [|split].
  - apply idx_Some. split; [lia|]. by replace (Z.to_nat _) with (D - k)%nat by lia.
  - apply idx_is_Some. lia.
  - unfold upd. replace (Z.to_nat (Z.of_nat D - Z.of_nat k - 1)) with (D - k - 1)%nat by lia.
    split; [by rewrite length_insert|]. split.
    + rewrite list_lookup_insert_ne by lia. done.
    + intros i e' v Hi He' Hv.
      destruct (decide (i = D - k - 1)%nat) as [->|Hne].
      * rewrite list_lookup_insert_eq by lia.
        rewrite list_lookup_insert_ne in Hv by lia.
        replace (S (D - k - 1)) with (D - k)%nat in Hv by lia. congruence.
      * rewrite list_lookup_insert_ne by done.
        rewrite list_lookup_insert_ne in Hv by lia.
        apply Hrec; [lia|done..].
Qed.

Lemma shape_inv_final ext sh : length ext = D -> shape_inv D ext D sh -> sh = ext.
Proof.
  intros Hlen [Hl Hpre]. apply list_eq. intros i.
  destruct (decide (i < D)%nat); [by apply Hpre|].
  rewrite !lookup_ge_None_2 by lia. done.
Qed.

Lemma wrap_strides_cons e ext :
  wrap_strides (e :: ext) = mul (hd 1 (wrap_strides ext)) e :: wrap_strides ext.
Proof. done. Qed.

Lemma length_wrap_strides ext : length (wrap_strides ext) = S (length ext).
Proof. induction ext; simpl; auto. Qed.

(** The recurrence the loop establishes has one solution. *)
Lemma wrap_strides_unique ext : forall st,
  length st = S (length ext) -> st !! length ext = Some 1 ->
  (forall i e v, (i < length ext)%nat -> ext !! i = Some e -> st !! S i = Some v ->
                 st !! i = Some (mul v e)) ->
  st = wrap_strides ext.
Proof.
  induction ext as [|e ext IH]; intros st Hlen Hlast Hrec.
  - destruct st as [|x [|]]; simplify_eq/=. done.
  - destruct st as [|x st]; [done|]. simpl in Hlen, Hlast.
    assert (Hst : st = wrap_strides ext).
    { apply IH; [lia|done|]. intros i e' v Hi He' Hv.
      apply (Hrec (S i) e' v); [simpl; lia|done..]. }
    rewrite wrap_strides_cons, <- Hst. f_equal.
    destruct st as [|v st]; [simpl in Hlen; lia|].
    specialize (Hrec 0%nat e v ltac:(simpl; lia) eq_refl eq_refl).
    simpl in Hrec |- *. congruence.
Qed.

Lemma stride_inv_final ext st :
  length ext = D -> stride_inv D ext D st -> st = wrap_strides ext.
Proof.
  intros Hlen (Hl & Hlast & Hrec). apply wrap_strides_unique.
  - lia.
  - by rewrite Hlen.
  - intros i e v Hi. apply Hrec. lia.
Qed.

Lemma idx_nat_sub {A} (l : list A) (k : nat) :
  (k < D)%nat -> idx l (Z.of_nat D - Z.of_nat k - 1) = l !! (D - k - 1)%nat.
Proof.
  intros. replace (Z.of_nat D - Z.of_nat k - 1) with (Z.of_nat (D - k - 1)) by lia.
  apply idx_nat.
Qed.

(** The part all three shape constructors end with, from the state the
    stride loop leaves: [check], then the element buffer. *)
Lemma ctor_tail s ext :
  length ext = D ->
  let psh := fresh (dom (ints s)) in
  let pst := fresh ({[psh]} ∪ dom (ints s)) in
  let this := fresh (dom (objs s)) in
  bind (check D this) (fun _ =>
    bind (size this) (fun n =>
      bind (new_elems indet n) (fun ph =>
        bind (set_head this ph) (fun _ => ret this))))
    (built s this psh pst None ext (wrap_strides ext))
  = shape_ctor_result indet s ext.
Proof.
  intros Hlen psh pst this.
  assert (Hne : psh <> pst).
  { intros E. pose proof (is_fresh ({[psh]} ∪ dom (ints s))) as Hf.
    fold pst in Hf. rewrite <- E in Hf. set_solver. }
  unfold shape_ctor_result.
  unfold bind at 1. rewrite check_built by done.
  destruct (decide (Forall _ ext)) as [Hpos|Hnpos]; [|done].
  assert (Hsz : size this (built s this psh pst None ext (wrap_strides ext))
                = Done (hd 0 (wrap_strides ext), built s this psh pst None ext (wrap_strides ext))).
  { apply ld_stride_built. apply idx_Some. split; [done|].
    change (Z.to_nat 0) with 0%nat. by destruct ext. }
  rewrite (bind_done _ _ _ _ _ Hsz).
  unfold bind at 1, new_elems at 1.
  destruct (decide (hd 0 (wrap_strides ext) < 0)); [done|].
  rewrite (bind_done _ _ _ tt
    (State (<[this := Ndarray (Some psh) (Some pst) (Some (fresh (dom (elems s))))]> (objs s))
           (<[pst := wrap_strides ext]> (<[psh := ext]> (ints s)))
           (<[fresh (dom (elems s)) :=
                map (indet (fresh (dom (elems s))))
                    (seq 0 (Z.to_nat (hd 0 (wrap_strides ext))))]> (elems s)))).
  - done.
  - unfold set_head, bind, obj, set_obj. simpl. rewrite lookup_insert_eq. simpl.
    rewrite lookup_insert_eq. by rewrite insert_insert_eq.
Qed.

(** The state right after the member initialisers: two fresh buffers of
    indeterminate content and the new object. *)
Lemma ctor_head (k : addr -> M (@state dtype) addr) s :
  let psh := fresh (dom (ints s)) in
  let pst := fresh ({[psh]} ∪ dom (ints s)) in
  let this := fresh (dom (objs s)) in
  bind (new_ints indet_int D) (fun psh =>
    bind (new_ints indet_int (S D)) (fun pst =>
      bind (new_obj (Ndarray psh pst None)) k)) s
  = k this (built s this psh pst None
              (map (indet_int psh) (seq 0 D)) (map (indet_int pst) (seq 0 (S D)))).
Proof.
  intros psh pst this. unfold bind, new_ints, new_obj. simpl.
  rewrite dom_insert_L. done.
Qed.

Lemma stride_inv_init ext jst :
  length jst = S D -> stride_inv D ext 0 (upd jst (Z.of_nat D) 1).
Proof.
  intros Hl. unfold upd. rewrite Nat2Z.id. split; [by rewrite length_insert|]. split.
  - apply list_lookup_insert_eq. lia.
  - intros i e v Hi. lia.
Qed.

Lemma shape_inv_init ext jsh : length jsh = D -> shape_inv D ext 0 jsh.
Proof. intros Hl. split; [done|]. intros i Hi. lia. Qed.

(** *** Uniform width (lines 57-65) *)
Lemma ctor_width_spec width s :
  ctor_width D indet_int indet width s = shape_ctor_result indet s (replicate D width).
Proof.
  unfold ctor_width. rewrite ctor_head.
  set (psh := fresh (dom (ints s))). set (pst := fresh ({[psh]} ∪ dom (ints s))).
  set (this := fresh (dom (objs s))).
  set (ext := replicate D width).
  assert (Hne : psh <> pst) by exact (fresh_buffers_differ s).
  assert (Hext : length ext = D) by apply length_replicate.
  set (jsh := map (indet_int psh) (seq 0 D)).
  set (jst := map (indet_int pst) (seq 0 (S D))).
  assert (Hljsh : length jsh = D) by (unfold jsh; by rewrite length_map, length_seq).
  assert (Hljst : length jst = S D) by (unfold jst; by rewrite length_map, length_seq).
  assert (Hjst : is_Some (idx jst (Z.of_nat D))) by (apply idx_is_Some; lia).
  rewrite (bind_done _ _ _ _ _ (st_stride_built s this psh pst None jsh jst (Z.of_nat D) 1 Hjst)).
  match goal with |- bind (for_loop D ?b) _ ?s1 = _ =>
    destruct (for_from_total
      (fun k s' => exists sh st, s' = built s this psh pst None sh st
                                 /\ shape_inv D ext k sh /\ stride_inv D ext k st)
      b D 0%nat s1) as (s' & Hloop & (sh & st & -> & Hsh & Hst))
  end.
  { eexists _, _. split; [done|]. split.
    - by apply shape_inv_init.
    - by apply stride_inv_init. }
  { intros k s1 Hk (sh & st & -> & Hsh & Hst).
    assert (Hk' : ext !! k = Some width) by (apply lookup_replicate_2; lia).
    assert (Hk'' : ext !! (D - k - 1)%nat = Some width) by (apply lookup_replicate_2; lia).
    destruct (shape_inv_step ext k sh width Hsh ltac:(lia) Hk') as [Hi Hsh'].
    destruct (stride_inv_step ext k st width Hst ltac:(lia) Hk'') as (sv & Hsv & Hi' & Hst').
    eexists. split.
    - rewrite (bind_done _ _ _ _ _ (st_shape_built s this psh pst None sh st _ width Hne Hi)).
      rewrite (bind_done _ _ _ _ _ (ld_stride_built s this psh pst None _ st _ sv Hsv)).
      by apply st_stride_built.
    - eauto. }
  unfold for_loop. rewrite (bind_done _ _ _ _ _ Hloop).
  rewrite (shape_inv_final ext sh Hext Hsh), (stride_inv_final ext st Hext Hst).
  by apply ctor_tail.
Qed.

(** *** Shape array (lines 72-80) *)
Lemma ctor_array_spec sh0 s :
  (D <= length sh0)%nat ->
  ctor_array D indet_int indet sh0 s = shape_ctor_result indet s (take D sh0).
Proof.
  intros Hsh0. unfold ctor_array. rewrite ctor_head.
  set (psh := fresh (dom (ints s))). set (pst := fresh ({[psh]} ∪ dom (ints s))).
  set (this := fresh (dom (objs s))).
  set (ext := take D sh0).
  assert (Hne : psh <> pst) by exact (fresh_buffers_differ s).
  assert (Hext : length ext = D) by (unfold ext; rewrite length_take; lia).
  set (jsh := map (indet_int psh) (seq 0 D)).
  set (jst := map (indet_int pst) (seq 0 (S D))).
  assert (Hljsh : length jsh = D) by (unfold jsh; by rewrite length_map, length_seq).
  assert (Hljst : length jst = S D) by (unfold jst; by rewrite length_map, length_seq).
  assert (Hjst : is_Some (idx jst (Z.of_nat D))) by (apply idx_is_Some; lia).
  rewrite (bind_done _ _ _ _ _ (st_stride_built s this psh pst None jsh jst (Z.of_nat D) 1 Hjst)).
  match goal with |- bind (for_loop D ?b) _ ?s1 = _ =>
    destruct (for_from_total
      (fun k s' => exists sh st, s' = built s this psh pst None sh st
                                 /\ shape_inv D ext k sh /\ stride_inv D ext k st)
      b D 0%nat s1) as (s' & Hloop & (sh & st & -> & Hsh & Hst))
  end.
  { eexists _, _. split; [done|]. split.
    - by apply shape_inv_init.
    - by apply stride_inv_init. }
  { intros k s1 Hk (sh & st & -> & Hsh & Hst).
    destruct (lookup_lt_is_Some_2 sh0 k) as [e He]; [lia|].
    destruct (lookup_lt_is_Some_2 sh0 (D - k - 1)%nat) as [e' He']; [lia|].
    assert (Hk' : ext !! k = Some e) by (unfold ext; rewrite lookup_take_lt by lia; done).
    assert (Hk'' : ext !! (D - k - 1)%nat = Some e')
      by (unfold ext; rewrite lookup_take_lt by lia; done).
    destruct (shape_inv_step ext k sh e Hsh ltac:(lia) Hk') as [Hi Hsh'].
    destruct (stride_inv_step ext k st e' Hst ltac:(lia) Hk'') as (sv & Hsv & Hi' & Hst').
    eexists. split.
    - rewrite idx_nat, He, idx_nat_sub, He' by lia.
      rewrite (bind_done _ _ _ _ _ (st_shape_built s this psh pst None sh st _ e Hne Hi)).
      rewrite (bind_done _ _ _ _ _ (ld_stride_built s this psh pst None _ st _ sv Hsv)).
      by apply st_stride_built.
    - eauto. }
  unfold for_loop. rewrite (bind_done _ _ _ _ _ Hloop).
  rewrite (shape_inv_final ext sh Hext Hsh), (stride_inv_final ext st Hext Hst).
  by apply ctor_tail.
Qed.

(** *** Shape list (lines 87-99) *)
Lemma std_copy_built s this psh pst ph st ext l : forall k sh,
  psh <> pst -> l = drop k ext -> length ext = D -> shape_inv D ext k sh ->
  exists sh', std_copy l (Some psh) (Z.of_nat k) (built s this psh pst ph sh st)
              = Done (tt, built s this psh pst ph sh' st)
              /\ shape_inv D ext (k + length l) sh'.
Proof.
  induction l as [|e l IH]; intros k sh Hne Hl Hext Hsh.
  - exists sh. split; [done|]. by rewrite Nat.add_0_r.
  - assert (Hk : (k < D)%nat).
    { apply (f_equal length) in Hl. rewrite length_drop in Hl. simpl in Hl. lia. }
    assert (He : ext !! k = Some e).
    { rewrite <- (Nat.add_0_r k), <- lookup_drop, <- Hl. done. }
    destruct (shape_inv_step ext k sh e Hsh Hk He) as [Hi Hsh'].
    destruct (IH (S k) (upd sh (Z.of_nat k) e) Hne) as (sh' & Hrun & Hfin); [..|done|].
    { rewrite (drop_S _ _ _ He) in Hl. congruence. }
    { done. }
    exists sh'. split.
    + cbn [std_copy]. unfold bind at 1.
      assert (Hst : st_int (Some psh) (Z.of_nat k) e (built s this psh pst ph sh st)
                    = Done (tt, built s this psh pst ph (upd sh (Z.of_nat k) e) st)).
      { destruct Hi as [w Hw]. unfold st_int. simpl.
        rewrite lookup_insert_ne, lookup_insert_eq, Hw by done.
        unfold built. do 3 f_equal.
        rewrite (insert_insert_ne _ psh pst) by done. by rewrite insert_insert_eq. }
      rewrite Hst. replace (Z.of_nat k + 1) with (Z.of_nat (S k)) by lia. done.
    + simpl. by replace (k + S (length l))%nat with (S k + length l)%nat by lia.
Qed.

Lemma ctor_list_spec l s :
  ctor_list D indet_int indet l s
  = if decide (length l <> D) then Exit "Initialization of shape failed."
    else shape_ctor_result indet s l.
Proof.
  unfold ctor_list. rewrite ctor_head.
  destruct (decide (length l <> D)) as [|Hlen%dec_stable]; [done|].
  set (psh := fresh (dom (ints s))). set (pst := fresh ({[psh]} ∪ dom (ints s))).
  set (this := fresh (dom (objs s))).
  assert (Hne : psh <> pst) by exact (fresh_buffers_differ s).
  set (jsh := map (indet_int psh) (seq 0 D)).
  set (jst := map (indet_int pst) (seq 0 (S D))).
  destruct (std_copy_built s this psh pst None jst l l 0%nat jsh Hne eq_refl Hlen)
    as (sh & Hcopy & Hsh).
  { apply shape_inv_init. unfold jsh. by rewrite length_map, length_seq. }
  simpl in Hsh. rewrite Hlen in Hsh. apply (shape_inv_final l sh Hlen) in Hsh. subst sh.
  unfold bind at 1. unfold bind at 1.
  rewrite (get_shape_view _ _ _ (built_obj _ _ _ _ _ _ _)). cbn [_shape].
  change (Z.of_nat 0) with 0 in Hcopy. rewrite Hcopy.
  assert (Hljst : length jst = S D) by (unfold jst; by rewrite length_map, length_seq).
  assert (Hjst : is_Some (idx jst (Z.of_nat D))) by (apply idx_is_Some; lia).
  rewrite (bind_done _ _ _ _ _ (st_stride_built s this psh pst None l jst (Z.of_nat D) 1 Hjst)).
  match goal with |- bind (for_loop D ?b) _ ?s1 = _ =>
    destruct (for_from_total
      (fun k s' => exists st, s' = built s this psh pst None l st /\ stride_inv D l k st)
      b D 0%nat s1) as (s' & Hloop & (st & -> & Hst))
  end.
  { eexists. split; [done|]. by apply stride_inv_init. }
  { intros k s1 Hk (st & -> & Hst).
    destruct (lookup_lt_is_Some_2 l (D - k - 1)%nat) as [e' He']; [lia|].
    destruct (stride_inv_step l k st e' Hst ltac:(lia) He') as (sv & Hsv & Hi' & Hst').
    eexists. split.
    - rewrite (bind_done _ _ _ _ _ (ld_stride_built s this psh pst None _ st _ sv Hsv)).
      assert (Hidx : idx l (Z.of_nat D - Z.of_nat k - 1) = Some e')
        by (rewrite idx_nat_sub by lia; done).
      rewrite (bind_done _ _ _ _ _ (ld_shape_built s this psh pst None l st _ e' Hne Hidx)).
      by apply st_stride_built.
    - eauto. }
  unfold for_loop. rewrite (bind_done _ _ _ _ _ Hloop).
  rewrite (stride_inv_final l st Hlen Hst).
  by apply ctor_tail.
Qed.

End Construction.

(** ** Computations that keep a relation between the states they start
    and end in *)

Section Preserves.
Context {St : Type} (R : St -> St -> Prop).
Hypothesis R_refl : forall x, R x x.
Hypothesis R_trans : forall x y z, R x y -> R y z -> R x z.

Lemma preserves_ret {A} (a : A) : preserves R (ret a).
Proof. intros s a' s' [= _ <-]. apply R_refl. Qed.

Lemma preserves_raise {A} f : preserves R (raise (A:=A) f).
Proof. intros s a' s' [=]. Qed.

Lemma preserves_exit {A} msg : preserves R (exit (A:=A) msg).
Proof. intros s a' s' [=]. Qed.

Lemma preserves_bind {A B} (m : M St A) (k : A -> M St B) :
  preserves R m -> (forall a, preserves R (k a)) -> preserves R (bind m k).
Proof.
  intros Hm Hk s b s' (a & s1 & H1 & H2)%bind_inv.
  eapply R_trans; [by eapply Hm|by eapply Hk].
Qed.

Lemma preserves_for_from (body : nat -> M St unit) n : forall i,
  (forall k, preserves R (body k)) -> preserves R (for_from i n body).
Proof.
  induction n as [|n IH]; intros i Hb; simpl.
  - apply preserves_ret.
  - apply preserves_bind; [apply Hb|]. intros _. by apply IH.
Qed.

Lemma preserves_fold_from {A} (body : nat -> A -> M St A) n : forall i acc,
  (forall k a, preserves R (body k a)) -> preserves R (fold_from i n body acc).
Proof.
  induction n as [|n IH]; intros i acc Hb; simpl.
  - apply preserves_ret.
  - apply preserves_bind; [apply Hb|]. intros a. by apply IH.
Qed.

End Preserves.

Lemma preserves_weaken {St A} (R R' : St -> St -> Prop) (m : M St A) :
  (forall x y, R x y -> R' x y) -> preserves R m -> preserves R' m.
Proof. intros HR Hm s a s' H. apply HR. by eapply Hm. Qed.

Section Layout.
Context {dtype : Type}.
Variable dadd : dtype -> dtype -> dtype.
Variable dscale : Z -> dtype -> dtype.
Variable (D : nat).
(** [D] is an [int] template argument. *)
Hypothesis D_int : Z.of_nat D <= Int32.max_int.
Implicit Types (s : @state dtype) (o : ndarray).
Import Int32 Int32Facts.

Lemma same_layout_refl s : same_layout s s.
Proof. done. Qed.

Lemma same_layout_trans s1 s2 s3 :
  same_layout s1 s2 -> same_layout s2 s3 -> same_layout s1 s3.
Proof.
  intros (Ho & Hi & He) (Ho' & Hi' & He'). split; [congruence|]. split.
  - intros l. by rewrite Hi', Hi.
  - intros l. by rewrite He', He.
Qed.

Local Abbreviation pure := (preserves (@eq (@state dtype))).
Local Abbreviation keeps := (preserves (@same_layout dtype)).

Lemma pure_keeps {A} (m : M state A) : pure m -> keeps m.
Proof. apply preserves_weaken. intros x y <-. apply same_layout_refl. Qed.

Lemma pure_bind {A B} (m : M state A) (k : A -> M state B) :
  pure m -> (forall a, pure (k a)) -> pure (bind m k).
Proof. apply preserves_bind. intros x y z. congruence. Qed.

Lemma keeps_bind {A B} (m : M state A) (k : A -> M state B) :
  keeps m -> (forall a, keeps (k a)) -> keeps (bind m k).
Proof. apply preserves_bind, same_layout_trans. Qed.

Lemma pure_obj a : pure (obj (dtype:=dtype) a).
Proof. intros s o s'. unfold obj. destruct (objs s !! a); congruence. Qed.

Lemma pure_get_shape a : pure (get_shape (dtype:=dtype) a).
Proof. apply pure_bind; [apply pure_obj|]. intros o. by apply preserves_ret. Qed.

Lemma pure_get_stride a : pure (get_stride (dtype:=dtype) a).
Proof. apply pure_bind; [apply pure_obj|]. intros o. by apply preserves_ret. Qed.

Lemma pure_get_head a : pure (get_head (dtype:=dtype) a).
Proof. apply pure_bind; [apply pure_obj|]. intros o. by apply preserves_ret. Qed.

Lemma pure_ld_int p i : pure (ld_int (dtype:=dtype) p i).
Proof.
  intros s v s'. unfold ld_int. destruct p as [l|]; [|done].
  destruct (ints s !! l) as [b|]; [|done]. destruct (idx b i); congruence.
Qed.

Lemma pure_ld_elem p i : pure (ld_elem (dtype:=dtype) p i).
Proof.
  intros s v s'. unfold ld_elem. destruct p as [l|]; [|done].
  destruct (elems s !! l) as [b|]; [|done]. destruct (idx b i); congruence.
Qed.

Lemma pure_ld_shape a i : pure (ld_shape (dtype:=dtype) a i).
Proof. apply pure_bind; [apply pure_get_shape|]. intros p. apply pure_ld_int. Qed.

Lemma pure_ld_stride a i : pure (ld_stride (dtype:=dtype) a i).
Proof. apply pure_bind; [apply pure_get_stride|]. intros p. apply pure_ld_int. Qed.

Lemma pure_size a : pure (size (dtype:=dtype) a).
Proof. apply pure_ld_stride. Qed.

Lemma pure_empty a : pure (empty (dtype:=dtype) a).
Proof. apply pure_bind; [apply pure_get_stride|]. intros p. by apply preserves_ret. Qed.

Lemma pure_at_raw a i : pure (at_raw (dtype:=dtype) a i).
Proof. apply pure_bind; [apply pure_get_head|]. intros p. by apply preserves_ret. Qed.

Lemma pure_rd r : pure (rd (dtype:=dtype) r).
Proof. apply pure_ld_elem. Qed.

Lemma pure_adder rest : forall p first, pure (adder (dtype:=dtype) p first rest).
Proof.
  induction rest as [|a rest IH]; intros p first; simpl.
  - apply pure_bind; [apply pure_ld_int|]. intros v. by apply preserves_ret.
  - apply pure_bind; [apply pure_ld_int|]. intros v.
    apply pure_bind; [apply IH|]. intros w. by apply preserves_ret.
Qed.

Lemma pure_at_args a first rest : pure (at_args (dtype:=dtype) a first rest).
Proof.
  apply pure_bind; [apply pure_get_head|]. intros ph.
  apply pure_bind; [apply pure_get_stride|]. intros pst.
  apply pure_bind; [apply pure_adder|]. intros off. by apply preserves_ret.
Qed.

Lemma pure_at_coo a coo : pure (at_coo (dtype:=dtype) D a coo).
Proof.
  apply pure_bind.
  - apply preserves_fold_from; [done|congruence|]. intros k acc.
    destruct (idx coo (Z.of_nat k)); [|by apply preserves_raise].
    apply pure_bind; [apply pure_ld_stride|]. intros v. by apply preserves_ret.
  - intros off. apply pure_bind; [apply pure_get_head|]. intros p. by apply preserves_ret.
Qed.

Lemma keeps_st_elem p i v : keeps (st_elem (dtype:=dtype) p i v).
Proof.
  intros s u s'. unfold st_elem. destruct p as [l|]; [|done].
  destruct (elems s !! l) as [b|] eqn:Hb; [|done].
  destruct (idx b i); [|done]. intros [= _ <-]. split; [done|]. split; [done|].
  intros l'. simpl. destruct (decide (l = l')) as [<-|Hne].
  - rewrite lookup_insert_eq, Hb. simpl. by rewrite length_upd.
  - by rewrite lookup_insert_ne.
Qed.

Lemma keeps_wr r v : keeps (wr (dtype:=dtype) r v).
Proof. apply keeps_st_elem. Qed.

(** A store into a [size_t] buffer keeps the layout unless it hits the
    first entry. *)
Lemma keeps_st_int p i v : i <> 0 -> keeps (st_int (dtype:=dtype) p i v).
Proof.
  intros Hi s u s'. unfold st_int. destruct p as [l|]; [|done].
  destruct (ints s !! l) as [b|] eqn:Hb; [|done].
  destruct (idx b i) eqn:Hidx; [|done]. intros [= _ <-]. split; [done|]. split; [|done].
  intros l'. simpl. destruct (decide (l = l')) as [<-|Hne].
  - rewrite lookup_insert_eq, Hb. simpl. rewrite length_upd. do 2 f_equal.
    unfold upd. apply list_lookup_insert_ne. apply idx_lt in Hidx. lia.
  - by rewrite lookup_insert_ne.
Qed.

Lemma keeps_swap_int p i j : i <> 0 -> j <> 0 -> keeps (swap_int (dtype:=dtype) p i j).
Proof.
  intros Hi Hj.
  apply keeps_bind; [apply pure_keeps, pure_ld_int|]. intros t.
  apply keeps_bind; [apply pure_keeps, pure_ld_int|]. intros v.
  apply keeps_bind; [by apply keeps_st_int|]. intros _. by apply keeps_st_int.
Qed.

Lemma axis_slot i : 0 <= i < Z.of_nat D -> add i 1 <> 0.
Proof.
  intros Hi. unfold add. rewrite wrap_small; [lia|].
  unfold in_range, max_int in *. lia.
Qed.

Lemma keeps_transpose a i j :
  0 <= i < Z.of_nat D -> 0 <= j < Z.of_nat D -> keeps (transpose (dtype:=dtype) a i j).
Proof.
  intros Hi Hj. apply keeps_bind.
  - apply keeps_bind; [apply pure_keeps, pure_get_stride|]. intros p.
    apply keeps_swap_int; by apply axis_slot.
  - intros _. apply keeps_bind; [apply pure_keeps, pure_get_shape|]. intros p.
    apply keeps_swap_int; by apply axis_slot.
Qed.

Lemma keeps_for_loop n (body : nat -> M state unit) :
  (forall k, keeps (body k)) -> keeps (for_loop n body).
Proof. apply preserves_for_from; [apply same_layout_refl|apply same_layout_trans]. Qed.

Lemma keeps_ret {A} (a : A) : keeps (ret a).
Proof. apply preserves_ret, same_layout_refl. Qed.

Lemma keeps_assign_fill a v : keeps (assign_fill (dtype:=dtype) a v).
Proof.
  apply keeps_bind; [apply pure_keeps, pure_empty|]. intros [|]; [apply keeps_ret|].
  apply keeps_bind; [apply pure_keeps, pure_size|]. intros n.
  apply keeps_bind; [|intros _; apply keeps_ret].
  apply keeps_for_loop. intros k.
  apply keeps_bind; [apply pure_keeps, pure_get_head|]. intros p. apply keeps_st_elem.
Qed.

Lemma keeps_pm N a rhs : keeps (pm dadd dscale N a rhs).
Proof.
  apply keeps_bind; [apply pure_keeps, pure_size|]. intros n.
  apply keeps_bind; [|intros _; apply keeps_ret].
  apply keeps_for_loop. intros k.
  apply keeps_bind; [apply pure_keeps, pure_at_raw|]. intros r.
  apply keeps_bind; [apply pure_keeps, pure_rd|]. intros v.
  apply keeps_bind; [apply pure_keeps, pure_get_head|]. intros p.
  apply keeps_bind; [apply pure_keeps, pure_ld_elem|]. intros h. apply keeps_st_elem.
Qed.

Lemma keeps_apply_inplace a op :
  valid_axes D op -> keeps (apply_inplace dadd dscale D a op).
Proof.
  destruct op as [r v|coo v|first args v|v|rhs|rhs|i j]; cbn [apply_inplace valid_axes]; intros Hv.
  - apply keeps_bind; [apply pure_keeps, pure_at_raw|]. intros r'. apply keeps_wr.
  - apply keeps_bind; [apply pure_keeps, pure_at_coo|]. intros r'. apply keeps_wr.
  - apply keeps_bind; [apply pure_keeps, pure_at_args|]. intros r'. apply keeps_wr.
  - apply keeps_bind; [apply keeps_assign_fill|]. intros _. apply keeps_ret.
  - apply keeps_bind; [apply keeps_pm|]. intros _. apply keeps_ret.
  - apply keeps_bind; [apply keeps_pm|]. intros _. apply keeps_ret.
  - destruct Hv. by apply keeps_transpose.
Qed.

Lemma keeps_apply_all a ops :
  Forall (valid_axes D) ops -> keeps (apply_all dadd dscale D a ops).
Proof.
  induction 1 as [|op ops Hop _ IH]; cbn [apply_all].
  - apply keeps_ret.
  - apply keeps_bind; [by apply keeps_apply_inplace|]. intros _. apply IH.
Qed.

(** [size()] reads the first stride, which the layout fixes. *)
Lemma size_same_layout s s' a n :
  same_layout s s' -> size a s = Done (n, s) -> size a s' = Done (n, s').
Proof.
  intros (Ho & Hi & _) Hsz.
  unfold size, ld_stride, get_stride, obj, bind, ret in *. rewrite Ho.
  destruct (objs s !! a) as [o|]; [|done]. simpl in *.
  unfold ld_int in *. destruct (_stride o) as [l|]; [|done].
  specialize (Hi l). destruct (ints s !! l) as [b|]; [|done].
  destruct (ints s' !! l) as [b'|]; [|done]. simpl in Hi.
  rewrite !(idx_nat _ 0) in *. injection Hi as _ ->.
  destruct (b !! 0%nat); [|done]. congruence.
Qed.

End Layout.

Section Constructed.
Context {dtype : Type}.
Variable dadd : dtype -> dtype -> dtype.
Variable dscale : Z -> dtype -> dtype.
Variable (D : nat).
Variable indet_int : loc -> nat -> Z.
Variable indet : loc -> nat -> dtype.
(** [D] is an [int] template argument. *)
Hypothesis D_int : Z.of_nat D <= Int32.max_int.
Implicit Types (s : @state dtype) (o : ndarray).
Import Int32 Int32Facts.

(** Without overflow the loop's strides are the specified ones. *)
Lemma wrap_strides_exact ext :
  Forall (fun e => 0 < e) ext -> product ext <= max_int ->
  wrap_strides ext = spec_strides ext.
Proof.
  induction 1 as [|e ext He Hpos IH]; intros Hfit; [done|].
  change (product (e :: ext)) with (e * product ext) in Hfit.
  pose proof (product_pos ext Hpos) as Hp.
  assert (Hle : product ext <= e * product ext) by nia.
  rewrite wrap_strides_cons, IH by lia.
  change (spec_strides (e :: ext)) with (hd 1 (spec_strides ext) * e :: spec_strides ext).
  f_equal. rewrite hd_spec_strides. unfold mul. apply wrap_small.
  unfold in_range, max_int in *. lia.
Qed.

Lemma spec_strides_last ext : spec_strides ext !! length ext = Some 1.
Proof. rewrite spec_strides_lookup by lia. by rewrite drop_all. Qed.

Lemma spec_strides_step ext i e :
  ext !! i = Some e ->
  exists v, spec_strides ext !! S i = Some v /\ spec_strides ext !! i = Some (v * e).
Proof.
  intros He. pose proof (lookup_lt_Some _ _ _ He) as Hi.
  exists (product (drop (S i) ext)). split.
  - apply spec_strides_lookup. lia.
  - rewrite spec_strides_lookup by lia. rewrite (product_drop _ _ _ He). f_equal. lia.
Qed.

Lemma shape_ctor_result_fits s ext :
  Forall (fun e => 0 < e) ext -> product ext <= max_int ->
  shape_ctor_result indet s ext = Done (constructed indet s ext)
  /\ wrap_strides ext = spec_strides ext.
Proof.
  intros Hpos Hfit. pose proof (wrap_strides_exact ext Hpos Hfit) as Hw.
  split; [|done]. unfold shape_ctor_result.
  rewrite decide_True by done. rewrite decide_False; [done|].
  rewrite Hw. pose proof (product_pos ext Hpos).
  destruct ext; [simpl; lia|].
  rewrite <- (hd_spec_strides (z :: ext)) in H.
  destruct (spec_strides (z :: ext)); simpl in *; lia.
Qed.

Lemma constructed_views s ext :
  let r := constructed indet s ext in
  shape_of r.2 r.1 = Some ext /\ stride_of r.2 r.1 = Some (wrap_strides ext).
Proof.
  unfold constructed, shape_of, stride_of. simpl.
  rewrite !lookup_insert_eq. simpl. rewrite lookup_insert_eq.
  rewrite lookup_insert_ne, lookup_insert_eq; [done|].
  intros E. pose proof (is_fresh ({[fresh (dom (ints s))]} ∪ dom (ints s))) as Hf.
  rewrite E in Hf. set_solver.
Qed.

Lemma size_view s this st n :
  stride_of s this = Some st -> st !! 0%nat = Some n -> size this s = Done (n, s).
Proof.
  intros (o & p & Ho & Hp & Hst)%stride_of_inv Hn.
  eapply ld_stride_view; [done..|]. by apply idx_Some.
Qed.

Lemma construct_mismatch c s :
  list_length_mismatch D c ->
  construct D indet_int indet c s = Exit "Initialization of shape failed.".
Proof.
  destruct c as [w|sh|l]; simpl; [done..|]. intros Hl.
  rewrite ctor_list_spec. by rewrite decide_True.
Qed.

Lemma construct_match c s :
  readable D c -> ~ list_length_mismatch D c ->
  construct D indet_int indet c s = shape_ctor_result indet s (extents D c).
Proof.
  destruct c as [w|sh|l]; simpl; intros Hr Hl.
  - apply ctor_width_spec.
  - by apply ctor_array_spec.
  - rewrite ctor_list_spec. by rewrite decide_False.
Qed.

Lemma length_extents c :
  readable D c -> ~ list_length_mismatch D c -> length (extents D c) = D.
Proof.
  destruct c as [w|sh|l]; simpl; intros Hr Hl.
  - apply length_replicate.
  - rewrite length_take. lia.
  - by apply dec_stable.
Qed.

(** C3, for extents whose product fits [int32_t].  Each of the three
    shape constructors, given [D] positive extents whose product is at
    most [2^31 - 1], returns an array with those extents as its shape,
    with [stride[D] = 1] and [stride[i] = stride[i+1] * shape[i]], and
    with [size()] the product of the extents; and every sequence of
    in-place operations (element assignment, fill, [+=], [-=],
    [transpose] over valid axes) that returns leaves [size()] at that
    product. *)
Theorem construction_gives_row_major_strides c s :
  readable D c -> ~ list_length_mismatch D c ->
  Forall (fun e => 0 < e) (extents D c) -> product (extents D c) <= max_int ->
  exists this s' st,
    construct D indet_int indet c s = Done (this, s') /\
    shape_of s' this = Some (extents D c) /\
    stride_of s' this = Some st /\ st = spec_strides (extents D c) /\
    st !! D = Some 1 /\
    (forall i e, extents D c !! i = Some e ->
       exists v, st !! S i = Some v /\ st !! i = Some (v * e)) /\
    size this s' = Done (product (extents D c), s') /\
    (forall ops s'', Forall (valid_axes D) ops ->
       apply_all dadd dscale D this ops s' = Done (tt, s'') ->
       size this s'' = Done (product (extents D c), s'')).
Proof.
  intros Hr Hl Hpos Hfit.
  destruct (shape_ctor_result_fits s _ Hpos Hfit) as [Hres Hw].
  destruct (constructed_views s (extents D c)) as [Hsh Hst].
  destruct (constructed indet s (extents D c)) as [this s'] eqn:Hc. simpl in Hsh, Hst.
  rewrite Hw in Hst.
  assert (Hsz : size this s' = Done (product (extents D c), s')).
  { apply (size_view _ _ _ _ Hst). rewrite spec_strides_lookup by lia. by rewrite drop_0. }
  exists this, s', (spec_strides (extents D c)).
  split; [by rewrite construct_match|]. split; [done|]. split; [done|]. split; [done|].
  split; [rewrite <- (length_extents c Hr Hl) at 1; apply spec_strides_last|].
  split; [apply spec_strides_step|]. split; [done|].
  intros ops s'' Hops Hrun. eapply size_same_layout; [|done].
  by eapply (keeps_apply_all dadd dscale D D_int).
Qed.

(** C7, for extents whose product fits [int32_t].  A shape constructor
    prints a diagnostic and exits exactly when some requested extent is
    [<= 0] or the shape list has a length other than [D]; for positive
    extents of the right count whose product is at most [2^31 - 1] it
    returns an array. *)
Theorem construction_exits_iff_bad_shape c s :
  readable D c ->
  ((exists msg, construct D indet_int indet c s = Exit msg)
   <-> (Exists (fun e => e <= 0) (extents D c) \/ list_length_mismatch D c))
  /\ (Forall (fun e => 0 < e) (extents D c) -> ~ list_length_mismatch D c ->
      product (extents D c) <= max_int ->
      exists this s', construct D indet_int indet c s = Done (this, s')).
Proof.
  intros Hr. split; [split|].
  - intros [msg Hexit].
    destruct c as [w|sh|l]; simpl in *.
    + left. rewrite ctor_width_spec in Hexit. unfold shape_ctor_result in Hexit.
      destruct (decide (Forall _ _)) as [|Hn]; [by case_decide|].
      apply not_Forall_Exists in Hn; [|apply _].
      eapply Exists_impl; [done|]. simpl. intros; lia.
    + left. rewrite ctor_array_spec in Hexit by done. unfold shape_ctor_result in Hexit.
      destruct (decide (Forall _ _)) as [|Hn]; [by case_decide|].
      apply not_Forall_Exists in Hn; [|apply _].
      eapply Exists_impl; [done|]. simpl. intros; lia.
    + rewrite ctor_list_spec in Hexit.
      destruct (decide (length l <> D)); [by right|]. left.
      unfold shape_ctor_result in Hexit.
      destruct (decide (Forall _ _)) as [|Hn]; [by case_decide|].
      apply not_Forall_Exists in Hn; [|apply _].
      eapply Exists_impl; [done|]. simpl. intros; lia.
  - intros [Hbad|Hmis]; [|eexists; by apply construct_mismatch].
    assert (Hn : ~ Forall (fun e => 0 < e) (extents D c)).
    { intros Hall. apply Exists_exists in Hbad as (e & Hin & He).
      rewrite Forall_forall in Hall. specialize (Hall e Hin). lia. }
    destruct c as [w|sh|l]; simpl in *.
    + eexists. rewrite ctor_width_spec. unfold shape_ctor_result. by rewrite decide_False.
    + eexists. rewrite ctor_array_spec by done. unfold shape_ctor_result.
      by rewrite decide_False.
    + rewrite ctor_list_spec. case_decide; [by eexists|].
      eexists. unfold shape_ctor_result. by rewrite decide_False.
  - intros Hpos Hl Hfit.
    destruct (shape_ctor_result_fits s _ Hpos Hfit) as [Hres _].
    destruct (constructed indet s (extents D c)) as [this s'] eqn:Hc.
    exists this, s'. by rewrite construct_match.
Qed.

End Constructed.

Section Copy.
Context {dtype : Type}.
Variable (D : nat).
Variable indet_int : loc -> nat -> Z.
Variable indet : loc -> nat -> dtype.
(** [D] is an [int] template argument. *)
Hypothesis D_int : Z.of_nat D <= Int32.max_int.
Implicit Types (s : @state dtype) (o : ndarray).
Import Int32 Int32Facts.

Lemma stride_cp_step st k st' w :
  stride_cp_inv D st k st' -> (k < D)%nat -> st !! S k = Some w ->
  is_Some (idx st' (Z.of_nat k + 1)) /\
  stride_cp_inv D st (S k) (upd st' (Z.of_nat k + 1) w).
Proof.
  intros [Hlen Hpre] Hk Hw. split.
  - apply idx_is_Some. lia.
  - unfold upd. replace (Z.to_nat (Z.of_nat k + 1)) with (S k) by lia.
    split; [by rewrite length_insert|]. intros i Hi.
    destruct (decide (i = S k)) as [->|Hne].
    + rewrite list_lookup_insert_eq by lia. done.
    + rewrite list_lookup_insert_ne by done. apply Hpre. lia.
Qed.

Lemma stride_cp_final st st' n :
  length st = S D -> stride_cp_inv D st D st' -> st !! 0%nat = Some n ->
  upd st' 0 n = st.
Proof.
  intros Hlen [Hl Hpre] Hn. apply list_eq. intros i. unfold upd.
  change (Z.to_nat 0) with 0%nat.
  destruct (decide (i = 0)%nat) as [->|Hne].
  - rewrite list_lookup_insert_eq by lia. done.
  - rewrite list_lookup_insert_ne by done.
    destruct (decide (i <= D)%nat); [apply Hpre; lia|].
    rewrite !lookup_ge_None_2 by lia. done.
Qed.

Lemma elem_cp_final (d b : list dtype) : elem_cp_inv d (length d) b -> b = d.
Proof.
  intros [Hl Hpre]. apply list_eq. intros i.
  destruct (decide (i < length d)%nat); [by apply Hpre|].
  rewrite !lookup_ge_None_2 by lia. done.
Qed.

Ltac state_fields := unfold with_elems, built; cbn [objs ints elems].

(** The two buffers the copy constructor allocates for the new object. *)
Lemma copy_buffers {A} (k : unit -> M (@state dtype) A) s this psh pst :
  psh = fresh (dom (ints s)) -> pst = fresh ({[psh]} ∪ dom (ints s)) ->
  bind (bind (new_ints indet_int D) (fun p => set_shape this p)) (fun _ =>
    bind (bind (new_ints indet_int (S D)) (fun p => set_stride this p)) k)
    (State (<[this := null_array]> (objs s)) (ints s) (elems s))
  = k tt (built s this psh pst None
            (map (indet_int psh) (seq 0 D)) (map (indet_int pst) (seq 0 (S D)))).
Proof.
  intros -> ->.
  unfold bind, new_ints, set_shape, set_stride, bind, obj, set_obj. simpl.
  rewrite lookup_insert_eq. simpl. rewrite lookup_insert_eq. simpl.
  rewrite lookup_insert_eq. simpl. rewrite lookup_insert_eq. simpl.
  rewrite !insert_insert_eq, dom_insert_L. done.
Qed.

(** One round of the element copy. *)
Lemma copy_element s this psh pst ph sh st x xo xh d b k v :
  x <> this -> xh <> ph ->
  objs s !! x = Some xo -> head xo = Some xh -> elems s !! xh = Some d ->
  d !! k = Some v -> (k < length b)%nat ->
  bind (at_raw x (Z.of_nat k)) (fun r =>
    bind (rd r) (fun v =>
      bind (get_head this) (fun p => st_elem p (Z.of_nat k) v)))
    (with_elems (built s this psh pst (Some ph) sh st) ph b)
  = Done (tt, with_elems (built s this psh pst (Some ph) sh st) ph (upd b (Z.of_nat k) v)).
Proof.
  intros Hxt Hxh Hx Hhead Hd Hv Hk.
  set (s1 := with_elems (built s this psh pst (Some ph) sh st) ph b).
  assert (Hx' : objs s1 !! x = Some xo).
  { unfold s1. state_fields. by rewrite lookup_insert_ne by congruence. }
  assert (Hd' : elems s1 !! xh = Some d).
  { unfold s1. state_fields. by rewrite lookup_insert_ne by congruence. }
  assert (Ht : objs s1 !! this = Some (Ndarray (Some psh) (Some pst) (Some ph))).
  { unfold s1. state_fields. apply lookup_insert_eq. }
  assert (Hb : elems s1 !! ph = Some b).
  { unfold s1. state_fields. apply lookup_insert_eq. }
  unfold at_raw. rewrite bind_assoc.
  rewrite (bind_done _ _ _ _ _ (get_head_view _ _ _ Hx')), Hhead.
  unfold ret at 1. unfold bind at 1. unfold rd. cbn [fst snd].
  rewrite (bind_done _ _ _ _ _ (ld_elem_view _ xh d (Z.of_nat k) v Hd' ltac:(by rewrite idx_nat))).
  rewrite (bind_done _ _ _ _ _ (get_head_view _ this _ Ht)).
  cbn [head].
  rewrite (st_elem_view _ ph b (Z.of_nat k) v Hb ltac:(apply idx_is_Some; lia)).
  unfold s1. state_fields. by rewrite insert_insert_eq.
Qed.

(** *** Copy constructor from an allocated source *)
Lemma ctor_copy_full s x xsh xst xh sh st d :
  objs s !! x = Some (Ndarray (Some xsh) (Some xst) (Some xh)) ->
  ints s !! xsh = Some sh -> ints s !! xst = Some st -> elems s !! xh = Some d ->
  length sh = D -> length st = S D -> st !! 0%nat = Some (Z.of_nat (length d)) ->
  ctor_copy D indet_int indet x s = Done (fresh_array s sh st d).
Proof.
  intros Hx Hsh Hst Hd Hlsh Hlst Hsz. unfold ctor_copy, fresh_array.
  set (psh := fresh (dom (ints s))). set (pst := fresh ({[psh]} ∪ dom (ints s))).
  set (this := fresh (dom (objs s))). set (ph := fresh (dom (elems s))).
  assert (Hne : psh <> pst) by exact (fresh_buffers_differ s).
  assert (Hxt : x <> this) by exact (fresh_obj_ne s x _ Hx).
  assert (Hxsh1 : xsh <> psh) by exact (fresh_ints_ne s xsh _ Hsh).
  assert (Hxsh2 : xsh <> pst) by exact (fresh_ints_ne2 s xsh _ Hsh).
  assert (Hxst1 : xst <> psh) by exact (fresh_ints_ne s xst _ Hst).
  assert (Hxst2 : xst <> pst) by exact (fresh_ints_ne2 s xst _ Hst).
  assert (Hxh : xh <> ph) by exact (fresh_elems_ne s xh _ Hd).
  set (jsh := map (indet_int psh) (seq 0 D)).
  set (jst := map (indet_int pst) (seq 0 (S D))).
  assert (Hljsh : length jsh = D) by (unfold jsh; by rewrite length_map, length_seq).
  assert (Hljst : length jst = S D) by (unfold jst; by rewrite length_map, length_seq).
  (* the new object, empty so far, and its two fresh buffers *)
  rewrite (bind_done _ _ _ this
             (State (<[this := null_array]> (objs s)) (ints s) (elems s))) by done.
  assert (Hx1 : objs (State (<[this := null_array]> (objs s)) (ints s) (elems s)) !! x
                = Some (Ndarray (Some xsh) (Some xst) (Some xh))).
  { cbn [objs]. by rewrite lookup_insert_ne by congruence. }
  rewrite (bind_done _ _ _ _ _ (empty_view _ x _ Hx1)).
  cbn [_stride]. rewrite bool_decide_eq_false_2 by done.
  rewrite (copy_buffers _ s this psh pst eq_refl eq_refl). cbv beta. fold jsh jst.
  (* shape and strides, entry by entry *)
  assert (Hobjx : forall sh' st' ph',
             objs (built s this psh pst ph' sh' st') !! x
             = Some (Ndarray (Some xsh) (Some xst) (Some xh))).
  { intros. state_fields. by rewrite lookup_insert_ne. }
  assert (Hixsh : forall sh' st' ph', ints (built s this psh pst ph' sh' st') !! xsh = Some sh).
  { intros. state_fields. by rewrite !lookup_insert_ne by congruence. }
  assert (Hixst : forall sh' st' ph', ints (built s this psh pst ph' sh' st') !! xst = Some st).
  { intros. state_fields. by rewrite !lookup_insert_ne by congruence. }
  match goal with |- bind (for_loop D ?b) _ ?s1 = _ =>
    destruct (for_from_total
      (fun k s' => exists sh' st', s' = built s this psh pst None sh' st'
                                   /\ shape_inv D sh k sh' /\ stride_cp_inv D st k st')
      b D 0%nat s1) as (s' & Hloop & (sh' & st' & -> & Hsh' & Hst'))
  end.
  { eexists _, _. split; [done|]. split; [by apply shape_inv_init|].
    split; [done|]. intros i Hi. lia. }
  { intros k s1 Hk (sh' & st' & -> & Hsh' & Hst').
    destruct (lookup_lt_is_Some_2 sh k) as [e He]; [lia|].
    destruct (lookup_lt_is_Some_2 st (S k)) as [w Hw]; [lia|].
    destruct (shape_inv_step D sh k sh' e Hsh' ltac:(lia) He) as [Hi Hsh''].
    destruct (stride_cp_step st k st' w Hst' ltac:(lia) Hw) as [Hi' Hst''].
    eexists. split.
    - rewrite bind_assoc. unfold shape at 1.
      rewrite (bind_done _ _ _ _ _
                 (ld_shape_view _ x _ xsh sh (Z.of_nat k) e (Hobjx _ _ _) eq_refl (Hixsh _ _ _)
                    ltac:(by rewrite idx_nat))).
      rewrite (bind_done _ _ _ _ _ (st_shape_built s this psh pst None sh' st' _ e Hne Hi)).
      unfold stride at 1.
      assert (Hadd : add (Z.of_nat k) 1 = Z.of_nat k + 1).
      { apply wrap_small. unfold in_range, max_int in *. lia. }
      rewrite Hadd.
      assert (Hidx : idx st (Z.of_nat k + 1) = Some w).
      { apply idx_Some. split; [lia|]. by replace (Z.to_nat _) with (S k) by lia. }
      rewrite (bind_done _ _ _ _ _
                 (ld_stride_view _ x _ xst st _ w (Hobjx _ _ _) eq_refl (Hixst _ _ _) Hidx)).
      by apply st_stride_built.
    - eauto. }
  unfold for_loop. rewrite (bind_done _ _ _ _ _ Hloop).
  apply (shape_inv_final D sh sh' Hlsh) in Hsh'. subst sh'.
  (* [_stride[0] = x.size()] *)
  assert (Hsize : forall sh' st' ph',
             size x (built s this psh pst ph' sh' st')
             = Done (Z.of_nat (length d), built s this psh pst ph' sh' st')).
  { intros. eapply ld_stride_view; [apply Hobjx|done|apply Hixst|]. by apply idx_Some. }
  rewrite bind_assoc. rewrite (bind_done _ _ _ _ _ (Hsize _ _ _)).
  rewrite (bind_done _ _ _ _ _ (st_stride_built s this psh pst None sh st' 0 _
             ltac:(apply idx_is_Some; destruct Hst'; lia))).
  rewrite (stride_cp_final st st' _ Hlst Hst' Hsz).
  (* the element buffer *)
  rewrite bind_assoc. rewrite (bind_done _ _ _ _ _ (Hsize _ _ _)).
  set (jd := map (indet ph) (seq 0 (length d))).
  assert (Hljd : length jd = length d) by (unfold jd; by rewrite length_map, length_seq).
  rewrite bind_assoc.
  rewrite (bind_done _ _ _ (Some ph)
             (with_elems (built s this psh pst None sh st) ph jd)).
  2:{ unfold new_elems. rewrite decide_False by lia. by rewrite Nat2Z.id. }
  assert (Ht : objs (with_elems (built s this psh pst None sh st) ph jd) !! this
               = Some (Ndarray (Some psh) (Some pst) None)).
  { state_fields. apply lookup_insert_eq. }
  rewrite (bind_done _ _ _ _ _ (set_head_view _ this _ (Some ph) Ht)).
  cbn [_shape _stride objs ints elems with_elems built].
  rewrite insert_insert_eq.
  change (State (<[this:=Ndarray (Some psh) (Some pst) (Some ph)]> (objs s))
                (<[pst:=st]> (<[psh:=sh]> (ints s))) (<[ph:=jd]> (elems s)))
    with (with_elems (built s this psh pst (Some ph) sh st) ph jd).
  assert (Hsz' : forall b, size this (with_elems (built s this psh pst (Some ph) sh st) ph b)
                 = Done (Z.of_nat (length d), with_elems (built s this psh pst (Some ph) sh st) ph b)).
  { intros. eapply ld_stride_view; [apply built_obj|done|apply built_stride|]. by apply idx_Some. }
  rewrite (bind_done _ _ _ _ _ (Hsz' _)). rewrite Nat2Z.id.
  match goal with |- bind (for_from 0 _ ?b) _ ?s1 = _ =>
    destruct (for_from_total
      (fun k s' => exists b', s' = with_elems (built s this psh pst (Some ph) sh st) ph b'
                              /\ elem_cp_inv d k b')
      b (length d) 0%nat s1) as (s' & Hloop' & (b' & -> & Hb'))
  end.
  { eexists. split; [done|]. split; [done|]. intros i Hi. lia. }
  { intros k s1 Hk (b' & -> & [Hlb' Hpre]).
    destruct (lookup_lt_is_Some_2 d k) as [v Hv]; [lia|].
    eexists. split.
    - eapply copy_element; [done..|lia].
    - eexists. split; [done|]. split; [by rewrite length_upd|].
      intros i Hi. unfold upd. rewrite Nat2Z.id.
      destruct (decide (i = k)) as [->|Hik].
      + rewrite list_lookup_insert_eq by lia. done.
      + rewrite list_lookup_insert_ne by done. apply Hpre. lia. }
  rewrite (bind_done _ _ _ _ _ Hloop').
  by rewrite (elem_cp_final d b' Hb').
Qed.

(** *** Copy constructor from an empty source *)
Lemma ctor_copy_empty s x o :
  objs s !! x = Some o -> _stride o = None ->
  ctor_copy D indet_int indet x s
  = Done (fresh (dom (objs s)),
          State (<[fresh (dom (objs s)) := null_array]> (objs s)) (ints s) (elems s)).
Proof.
  intros Hx Hnull. unfold ctor_copy.
  rewrite (bind_done _ _ _ (fresh (dom (objs s)))
             (State (<[fresh (dom (objs s)) := null_array]> (objs s)) (ints s) (elems s)))
    by done.
  assert (Hx1 : objs (State (<[fresh (dom (objs s)) := null_array]> (objs s))
                            (ints s) (elems s)) !! x = Some o).
  { cbn [objs]. rewrite lookup_insert_ne; [done|].
    symmetry. exact (fresh_obj_ne s x _ Hx). }
  rewrite (bind_done _ _ _ _ _ (empty_view _ x _ Hx1)).
  rewrite Hnull. done.
Qed.

End Copy.

Section Moves.
Context {dtype : Type}.
Variable (D : nat).
Implicit Types (s : @state dtype) (o : ndarray).

(** Resolve a lookup in a store that is a stack of inserts. *)
Ltac lookups :=
  unfold with_elems, built; cbn [objs ints elems];
  repeat first [ rewrite lookup_insert_eq
               | rewrite lookup_insert_ne by congruence
               | rewrite lookup_delete_ne by congruence ];
  first [ reflexivity | eassumption ].

(** Run the first call of a sequence with the equation [lem] gives. *)
Tactic Notation "step" uconstr(lem) := erewrite bind_done by (eapply lem; lookups).

Lemma ndarray_eta o : Ndarray (_shape o) (_stride o) (head o) = o.
Proof. by destruct o. Qed.

(** *** Move constructor *)
Lemma ctor_move_spec s x xo :
  objs s !! x = Some xo ->
  ctor_move x s
  = Done (fresh (dom (objs s)),
          State (<[x := null_array]> (<[fresh (dom (objs s)) := xo]> (objs s)))
                (ints s) (elems s)).
Proof.
  intros Hx. set (t := fresh (dom (objs s))).
  assert (Hxt : x <> t) by exact (fresh_obj_ne s x _ Hx).
  unfold ctor_move.
  rewrite (bind_done _ _ _ _ _ (get_shape_view _ _ _ Hx)).
  rewrite (bind_done _ _ _ _ _ (get_head_view _ _ _ Hx)).
  rewrite (bind_done _ _ _ _ _ (get_stride_view _ _ _ Hx)).
  rewrite ndarray_eta.
  rewrite (bind_done _ _ _ t (State (<[t := xo]> (objs s)) (ints s) (elems s))) by done.
  step set_shape_view. step set_head_view. step set_stride_view. unfold ret.
  cbn [objs ints elems _shape _stride head]. by rewrite !insert_insert_eq.
Qed.

(** *** Move assignment: the two objects trade their three pointers *)
Lemma swap_shape_spec s this x a b :
  objs s !! this = Some a -> objs s !! x = Some b ->
  swap_shape this x s
  = Done (tt, State (<[x := Ndarray (_shape a) (_stride b) (head b)]>
                       (<[this := Ndarray (_shape b) (_stride a) (head a)]> (objs s)))
                    (ints s) (elems s)).
Proof.
  intros Ha Hb. unfold swap_shape.
  rewrite (bind_done _ _ _ _ _ (get_shape_view _ _ _ Ha)).
  rewrite (bind_done _ _ _ _ _ (get_shape_view _ _ _ Hb)).
  rewrite (bind_done _ _ _ _ _ (set_shape_view _ this a _ Ha)).
  destruct (decide (this = x)) as [->|Hne].
  - assert (a = b) as -> by congruence.
    erewrite set_shape_view by lookups. done.
  - erewrite set_shape_view by lookups. done.
Qed.

Lemma swap_stride_spec s this x a b :
  objs s !! this = Some a -> objs s !! x = Some b ->
  swap_stride this x s
  = Done (tt, State (<[x := Ndarray (_shape b) (_stride a) (head b)]>
                       (<[this := Ndarray (_shape a) (_stride b) (head a)]> (objs s)))
                    (ints s) (elems s)).
Proof.
  intros Ha Hb. unfold swap_stride.
  rewrite (bind_done _ _ _ _ _ (get_stride_view _ _ _ Ha)).
  rewrite (bind_done _ _ _ _ _ (get_stride_view _ _ _ Hb)).
  rewrite (bind_done _ _ _ _ _ (set_stride_view _ this a _ Ha)).
  destruct (decide (this = x)) as [->|Hne].
  - assert (a = b) as -> by congruence.
    erewrite set_stride_view by lookups. done.
  - erewrite set_stride_view by lookups. done.
Qed.

Lemma swap_head_spec s this x a b :
  objs s !! this = Some a -> objs s !! x = Some b ->
  swap_head this x s
  = Done (tt, State (<[x := Ndarray (_shape b) (_stride b) (head a)]>
                       (<[this := Ndarray (_shape a) (_stride a) (head b)]> (objs s)))
                    (ints s) (elems s)).
Proof.
  intros Ha Hb. unfold swap_head.
  rewrite (bind_done _ _ _ _ _ (get_head_view _ _ _ Ha)).
  rewrite (bind_done _ _ _ _ _ (get_head_view _ _ _ Hb)).
  rewrite (bind_done _ _ _ _ _ (set_head_view _ this a _ Ha)).
  destruct (decide (this = x)) as [->|Hne].
  - assert (a = b) as -> by congruence.
    erewrite set_head_view by lookups. done.
  - erewrite set_head_view by lookups. done.
Qed.

Lemma assign_move_spec s this x a b :
  objs s !! this = Some a -> objs s !! x = Some b ->
  assign_move this x s
  = Done (this, State (<[x := a]> (<[this := b]> (objs s))) (ints s) (elems s)).
Proof.
  intros Ha Hb. unfold assign_move.
  rewrite (bind_done _ _ _ _ _ (swap_shape_spec s this x a b Ha Hb)).
  destruct (decide (this = x)) as [->|Hne].
  - assert (a = b) as -> by congruence.
    step swap_stride_spec. step swap_head_spec.
    unfold ret. cbn [objs ints elems _shape _stride head].
    rewrite ndarray_eta. by rewrite !insert_insert_eq.
  - step swap_stride_spec. step swap_head_spec.
    unfold ret. cbn [objs ints elems _shape _stride head].
    rewrite !ndarray_eta. do 3 f_equal.
    rewrite (insert_insert_ne _ this x) by done. rewrite insert_insert_eq.
    rewrite (insert_insert_ne _ this x) by done. rewrite insert_insert_eq.
    rewrite (insert_insert_ne _ x this) by done. rewrite insert_insert_eq.
    rewrite (insert_insert_ne _ x this) by done. rewrite insert_insert_eq.
    by rewrite (insert_insert_ne _ x this) by done.
Qed.

(** *** Destructor *)
Lemma delete_elems_view s l (b : list dtype) :
  elems s !! l = Some b ->
  delete_elems (Some l) s = Done (tt, State (objs s) (ints s) (delete l (elems s))).
Proof. unfold delete_elems. by intros ->. Qed.

Lemma delete_ints_view s l b :
  ints s !! l = Some b ->
  delete_ints (Some l) s = Done (tt, State (objs s) (delete l (ints s)) (elems s)).
Proof. unfold delete_ints. by intros ->. Qed.

Lemma dtor_spec s a o :
  objs s !! a = Some o -> two_state D s o -> dtor a s = Done (tt, destroyed s a o).
Proof.
  intros Ha [->|(psh & pst & ph & sh & st & d & -> & Hne & Hsh & Hst & Hd & _)];
    unfold dtor.
  - rewrite bind_assoc. step get_head_view. cbn [head null_array].
    rewrite (bind_done _ _ _ tt s) by done.
    rewrite bind_assoc. step get_shape_view. cbn [_shape null_array].
    rewrite (bind_done _ _ _ tt s) by done.
    rewrite bind_assoc. step get_stride_view. cbn [_stride null_array].
    rewrite (bind_done _ _ _ tt s) by done. done.
  - rewrite bind_assoc. step get_head_view. cbn [head].
    step delete_elems_view.
    rewrite bind_assoc. step get_shape_view. cbn [_shape].
    step delete_ints_view.
    rewrite bind_assoc. step get_stride_view. cbn [_stride].
    step delete_ints_view. done.
Qed.

(** *** [std::swap] on two distinct arrays *)
Lemma std_swap_spec s a b oa ob :
  objs s !! a = Some oa -> objs s !! b = Some ob -> a <> b ->
  std_swap a b s
  = Done (tt, State (<[b := oa]> (<[a := ob]> (objs s))) (ints s) (elems s)).
Proof.
  intros Ha Hb Hab. unfold std_swap.
  set (t := fresh (dom (objs s))).
  assert (Hat : a <> t) by exact (fresh_obj_ne s a _ Ha).
  assert (Hbt : b <> t) by exact (fresh_obj_ne s b _ Hb).
  rewrite (bind_done _ _ _ _ _ (ctor_move_spec s a oa Ha)). fold t.
  step assign_move_spec. step assign_move_spec.
  erewrite dtor_spec; [|lookups|by left].
  unfold destroyed. cbn [objs ints elems null_array _shape _stride head drop_block].
  do 3 f_equal. apply map_eq. intros i.
  destruct (decide (i = t)) as [->|Hit].
  - rewrite lookup_delete_eq. rewrite !lookup_insert_ne by congruence.
    symmetry. apply not_elem_of_dom, is_fresh.
  - rewrite lookup_delete_ne by congruence.
    rewrite (lookup_insert_ne _ t) by congruence.
    destruct (decide (i = b)) as [->|Hib].
    + by rewrite !lookup_insert_eq.
    + rewrite !(lookup_insert_ne _ b) by congruence.
      destruct (decide (i = a)) as [->|Hia].
      * by rewrite !lookup_insert_eq.
      * by rewrite !lookup_insert_ne by congruence.
Qed.

End Moves.

Section Invariant.
Context {dtype : Type}.
Variable (D : nat).
Implicit Types (s : @state dtype) (o : ndarray).

Local Abbreviation full := (@full dtype D).
Local Abbreviation two_state := (@two_state dtype D).
Local Abbreviation inv := (@inv dtype D).

Lemma elem_of_pair {A} (p a b : A) : p ∈ [a; b] <-> p = a \/ p = b.
Proof.
  rewrite !elem_of_cons. split; [|tauto].
  intros [?|[?|H%elem_of_nil]]; tauto.
Qed.

(** An allocated array stays allocated in any state that keeps its
    three buffers in place, at their lengths and with the first stride. *)
Lemma full_transport s s' o :
  (forall l b, Some l ∈ [_shape o; _stride o] -> ints s !! l = Some b ->
     exists b', ints s' !! l = Some b' /\ length b' = length b /\ b' !! 0%nat = b !! 0%nat) ->
  (forall l (b : list dtype), head o = Some l -> elems s !! l = Some b ->
     exists b', elems s' !! l = Some b' /\ length b' = length b) ->
  full s o -> full s' o.
Proof.
  intros Hi He (psh & pst & ph & sh & st & d & -> & Hne & Hsh & Hst & Hd & Hlsh & Hlst & Hsz).
  destruct (Hi psh sh ltac:(apply elem_of_pair; by left) Hsh) as (sh' & Hsh' & Hl1 & _).
  destruct (Hi pst st ltac:(apply elem_of_pair; by right) Hst) as (st' & Hst' & Hl2 & H0).
  destruct (He ph d eq_refl Hd) as (d' & Hd' & Hl3).
  exists psh, pst, ph, sh', st', d'. repeat split; try done; try congruence.
Qed.

Lemma two_state_transport s s' o :
  (forall l b, Some l ∈ [_shape o; _stride o] -> ints s !! l = Some b ->
     exists b', ints s' !! l = Some b' /\ length b' = length b /\ b' !! 0%nat = b !! 0%nat) ->
  (forall l (b : list dtype), head o = Some l -> elems s !! l = Some b ->
     exists b', elems s' !! l = Some b' /\ length b' = length b) ->
  two_state s o -> two_state s' o.
Proof. intros Hi He [->|Hf]; [by left|right]. by eapply full_transport. Qed.

Lemma two_state_heaps s s' o :
  ints s' = ints s -> elems s' = elems s -> two_state s o -> two_state s' o.
Proof.
  intros Hi He. apply two_state_transport.
  - intros l b _ Hb. rewrite Hi. eauto.
  - intros l b _ Hb. rewrite He. eauto.
Qed.

Lemma separate_null_l o : separate null_array o.
Proof. split; [|done]. intros p [->| ->]%elem_of_pair _; done. Qed.

Lemma separate_null_r o : separate o null_array.
Proof. split; [|intros E; exact E]. intros p _ [->| ->]%elem_of_pair; done. Qed.

Lemma separate_sym o1 o2 : separate o1 o2 -> separate o2 o1.
Proof.
  intros [Hi He]. split.
  - intros p H1 H2. by apply Hi.
  - intros E. rewrite E. apply He. done.
Qed.

(** The buffers of an allocated array are allocated. *)
Lemma full_ints_alloc s o l :
  full s o -> Some l ∈ [_shape o; _stride o] -> is_Some (ints s !! l).
Proof.
  intros (psh & pst & ph & sh & st & d & -> & Hne & Hsh & Hst & Hd & _) Hl.
  apply elem_of_pair in Hl as [[= ->]|[= ->]]; eauto.
Qed.

Lemma full_elems_alloc s o l : full s o -> head o = Some l -> is_Some (elems s !! l).
Proof.
  intros (psh & pst & ph & sh & st & d & -> & Hne & Hsh & Hst & Hd & _) [= ->]. eauto.
Qed.

Lemma full_not_null s o : full s o -> o <> null_array.
Proof. intros (psh & pst & ph & sh & st & d & -> & _). done. Qed.

(** *** The invariant under each kind of step *)

Lemma inv_initial : inv (State ∅ ∅ ∅).
Proof. split; intros *; by rewrite ?lookup_empty. Qed.

Lemma inv_same_layout s s' : same_layout s s' -> inv s -> inv s'.
Proof.
  intros (Ho & Hi & He) [Htwo Hsep]. split.
  - intros a o Ha. rewrite Ho in Ha. specialize (Htwo a o Ha).
    revert Htwo. apply two_state_transport.
    + intros l b _ Hb. specialize (Hi l). rewrite Hb in Hi.
      destruct (ints s' !! l) as [b'|]; [|done]. simpl in Hi.
      exists b'. split; [done|]. by injection Hi as -> ->.
    + intros l b _ Hb. specialize (He l). rewrite Hb in He.
      destruct (elems s' !! l) as [b'|]; [|done]. simpl in He.
      exists b'. split; [done|]. by injection He.
  - intros a b oa ob Hab Ha Hb. rewrite Ho in Ha, Hb. by eapply Hsep.
Qed.

(** Objects that move between addresses, or appear empty, over the same
    heaps: [f] says where each object of the new store came from. *)
Lemma inv_rearrange s s' (f : addr -> addr) :
  ints s' = ints s -> elems s' = elems s ->
  (forall a o, objs s' !! a = Some o -> o = null_array \/ objs s !! f a = Some o) ->
  (forall a b oa ob, a <> b -> objs s' !! a = Some oa -> objs s' !! b = Some ob ->
     oa <> null_array -> ob <> null_array -> f a <> f b) ->
  inv s -> inv s'.
Proof.
  intros Hi He Hfrom Hinj [Htwo Hsep]. split.
  - intros a o Ha. destruct (Hfrom a o Ha) as [->|Hold]; [by left|].
    eapply two_state_heaps; [done..|]. by eapply Htwo.
  - intros a b oa ob Hab Ha Hb.
    destruct (decide (oa = null_array)) as [->|Hna]; [apply separate_null_l|].
    destruct (decide (ob = null_array)) as [->|Hnb]; [apply separate_null_r|].
    destruct (Hfrom a oa Ha) as [|Ha']; [done|].
    destruct (Hfrom b ob Hb) as [|Hb']; [done|].
    eapply (Hsep (f a) (f b)); [by eapply Hinj|done..].
Qed.

Lemma inv_new_null s :
  inv s -> inv (State (<[fresh (dom (objs s)) := null_array]> (objs s)) (ints s) (elems s)).
Proof.
  apply (inv_rearrange s _ id); [done..| |].
  - intros a o. cbn [objs]. destruct (decide (a = fresh (dom (objs s)))) as [->|Hne].
    + rewrite lookup_insert_eq. intros [= <-]. by left.
    + rewrite lookup_insert_ne by done. by right.
  - intros a b oa ob Hab _ _ _ _. done.
Qed.

Lemma inv_moved s x xo :
  objs s !! x = Some xo -> inv s ->
  inv (State (<[x := null_array]> (<[fresh (dom (objs s)) := xo]> (objs s)))
             (ints s) (elems s)).
Proof.
  intros Hx. set (t := fresh (dom (objs s))).
  assert (Hxt : x <> t) by exact (fresh_obj_ne s x _ Hx).
  apply (inv_rearrange s _ (fun a => if decide (a = t) then x else a)); [done..| |].
  - intros a o. cbn [objs]. destruct (decide (a = x)) as [->|Hax].
    + rewrite lookup_insert_eq. intros [= <-]. by left.
    + rewrite lookup_insert_ne by done. destruct (decide (a = t)) as [->|Hat].
      * rewrite lookup_insert_eq. intros [= <-]. by right.
      * rewrite lookup_insert_ne by done. by right.
  - intros a b oa ob Hab. cbn [objs].
    destruct (decide (a = x)) as [->|Hax].
    { rewrite lookup_insert_eq. by intros [= <-]. }
    destruct (decide (b = x)) as [->|Hbx].
    { rewrite lookup_insert_eq. by intros _ [= <-]. }
    intros _ _ _ _. repeat case_decide; congruence.
Qed.

Lemma inv_traded s this x a b :
  objs s !! this = Some a -> objs s !! x = Some b -> inv s ->
  inv (State (<[x := a]> (<[this := b]> (objs s))) (ints s) (elems s)).
Proof.
  intros Ha Hb.
  apply (inv_rearrange s _
    (fun i => if decide (i = x) then this else if decide (i = this) then x else i));
    [done..| |].
  - intros i o. cbn [objs]. destruct (decide (i = x)) as [->|Hix].
    + rewrite lookup_insert_eq. intros [= <-]. by right.
    + rewrite lookup_insert_ne by done. destruct (decide (i = this)) as [->|Hit].
      * rewrite lookup_insert_eq. intros [= <-]. by right.
      * rewrite lookup_insert_ne by done. by right.
  - intros i j oi oj Hij _ _ _ _. repeat case_decide; congruence.
Qed.

Lemma inv_fresh_array s sh st (d : list dtype) :
  length sh = D -> length st = S D -> st !! 0%nat = Some (Z.of_nat (length d)) ->
  inv s -> inv (fresh_array s sh st d).2.
Proof.
  intros Hlsh Hlst Hsz [Htwo Hsep]. unfold fresh_array. cbn [snd].
  set (psh := fresh (dom (ints s))). set (pst := fresh ({[psh]} ∪ dom (ints s))).
  set (this := fresh (dom (objs s))). set (ph := fresh (dom (elems s))).
  assert (Hne : psh <> pst) by exact (fresh_buffers_differ s).
  set (s' := State _ _ _).
  assert (Hnew : full s' (Ndarray (Some psh) (Some pst) (Some ph))).
  { exists psh, pst, ph, sh, st, d. repeat split; try done.
    - unfold s'. cbn [ints]. rewrite lookup_insert_ne by done. apply lookup_insert_eq.
    - unfold s'. cbn [ints]. apply lookup_insert_eq.
    - unfold s'. cbn [elems]. apply lookup_insert_eq. }
  assert (Hold : forall a o, objs s !! a = Some o -> two_state s' o).
  { intros a o Ha. specialize (Htwo a o Ha). revert Htwo.
    apply two_state_transport.
    - intros l b _ Hb. exists b. split; [|done]. unfold s'. cbn [ints].
      rewrite !lookup_insert_ne; [done|..].
      + exact (not_eq_sym (fresh_ints_ne s l _ Hb)).
      + exact (not_eq_sym (fresh_ints_ne2 s l _ Hb)).
    - intros l b _ Hb. exists b. split; [|done]. unfold s'. cbn [elems].
      rewrite lookup_insert_ne; [done|]. exact (not_eq_sym (fresh_elems_ne s l _ Hb)). }
  assert (Hfresh : forall a o, objs s !! a = Some o ->
            separate (Ndarray (Some psh) (Some pst) (Some ph)) o).
  { intros a o Ha. destruct (Htwo a o Ha) as [->|Hf]; [apply separate_null_r|].
    split.
    - intros [l|] Hl1 Hl2; [exfalso|done].
      destruct (full_ints_alloc s o l Hf Hl2) as [b Hb].
      apply elem_of_pair in Hl1 as [[= ->]|[= ->]].
      + by eapply fresh_ints_ne.
      + by eapply fresh_ints_ne2.
    - cbn [head]. intros E. exfalso. symmetry in E.
      destruct (full_elems_alloc s o ph Hf E) as [b Hb]. by eapply fresh_elems_ne. }
  split.
  - intros a o. unfold s'. cbn [objs]. destruct (decide (a = this)) as [->|Hat].
    + rewrite lookup_insert_eq. intros [= <-]. by right.
    + rewrite lookup_insert_ne by done. apply Hold.
  - intros a b oa ob Hab. unfold s'. cbn [objs].
    destruct (decide (a = this)) as [->|Hat]; destruct (decide (b = this)) as [->|Hbt].
    + done.
    + rewrite lookup_insert_eq, lookup_insert_ne by done. intros [= <-] Hb. by eapply Hfresh.
    + rewrite lookup_insert_eq, lookup_insert_ne by done. intros Ha [= <-].
      apply separate_sym. by eapply Hfresh.
    + rewrite !lookup_insert_ne by done. by apply Hsep.
Qed.

Lemma lookup_drop_block {A} (p : option loc) (m : gmap loc A) l :
  p <> Some l -> drop_block p m !! l = m !! l.
Proof.
  destruct p as [l'|]; [|done]. intros Hne. simpl.
  apply lookup_delete_ne. congruence.
Qed.

Lemma inv_destroyed s a o :
  objs s !! a = Some o -> inv s -> inv (destroyed s a o).
Proof.
  intros Ha [Htwo Hsep]. split.
  - intros b ob. unfold destroyed. cbn [objs].
    destruct (decide (b = a)) as [->|Hba]; [by rewrite lookup_delete_eq|].
    rewrite lookup_delete_ne by done. intros Hb.
    destruct (Htwo b ob Hb) as [->|Hf]; [by left|right].
    destruct (Hsep a b o ob ltac:(done) Ha Hb) as [Hi He].
    revert Hf. apply full_transport.
    + intros l blk Hl Hblk. exists blk. split; [|done]. cbn [ints].
      rewrite !lookup_drop_block; [done|..].
      * intros E. assert (Some l = None); [|done].
        apply Hi; [|done]. rewrite <- E. apply elem_of_pair. by left.
      * intros E. assert (Some l = None); [|done].
        apply Hi; [|done]. rewrite <- E. apply elem_of_pair. by right.
    + intros l blk Hl Hblk. exists blk. split; [|done]. cbn [elems].
      rewrite lookup_drop_block; [done|]. intros E.
      assert (head o = None); [|congruence]. apply He. congruence.
  - intros b c ob oc Hbc. unfold destroyed. cbn [objs].
    intros Hb%lookup_delete_Some Hc%lookup_delete_Some.
    destruct Hb as [_ Hb], Hc as [_ Hc]. by eapply Hsep.
Qed.

End Invariant.

Section Lifecycle.
Context {dtype : Type}.
Variable dadd : dtype -> dtype -> dtype.
Variable dscale : Z -> dtype -> dtype.
Variable (D : nat).
Variable indet_int : loc -> nat -> Z.
Variable indet : loc -> nat -> dtype.
(** [D] is an [int] template argument. *)
Hypothesis D_int : Z.of_nat D <= Int32.max_int.
Implicit Types (s : @state dtype) (o : ndarray).
Import Int32 Int32Facts.

Local Abbreviation full := (@full dtype D).
Local Abbreviation two_state := (@two_state dtype D).
Local Abbreviation inv := (@inv dtype D).
Local Abbreviation ctor_copy := (ctor_copy D indet_int indet).

(** What the copy constructor returns, whichever state the source is in. *)
Lemma ctor_copy_spec s x xo :
  objs s !! x = Some xo -> two_state s xo ->
  exists c s1 C,
    ctor_copy x s = Done (c, s1) /\ c = fresh (dom (objs s)) /\
    objs s1 = <[c := C]> (objs s) /\
    (xo = null_array /\ C = null_array /\ ints s1 = ints s /\ elems s1 = elems s
     \/ exists xsh xst xh sh st d,
          xo = Ndarray (Some xsh) (Some xst) (Some xh) /\
          ints s !! xsh = Some sh /\ ints s !! xst = Some st /\ elems s !! xh = Some d /\
          length sh = D /\ length st = S D /\ st !! 0%nat = Some (Z.of_nat (length d)) /\
          (c, s1) = fresh_array s sh st d).
Proof.
  intros Hx [->|(xsh & xst & xh & sh & st & d & -> & Hne & Hsh & Hst & Hd & Hlsh & Hlst & Hsz)].
  - eexists _, _, null_array. split; [by eapply ctor_copy_empty|].
    split; [done|]. split; [done|]. by left.
  - eexists _, _, _. split; [by eapply ctor_copy_full|].
    split; [done|]. split; [done|]. right. by eexists xsh, xst, xh, sh, st, d.
Qed.

Lemma inv_ctor_copy s x xo c s1 :
  objs s !! x = Some xo -> inv s -> ctor_copy x s = Done (c, s1) -> inv s1.
Proof.
  intros Hx Hinv Hrun.
  destruct (ctor_copy_spec s x xo Hx (proj1 Hinv x xo Hx))
    as (c' & s1' & C & Hrun' & -> & Hobjs & Hcase).
  rewrite Hrun in Hrun'. injection Hrun' as -> ->.
  destruct Hcase as [(-> & -> & Hi & He)|(xsh & xst & xh & sh & st & d & -> & _ & _ & _
                                           & Hlsh & Hlst & Hsz & Heq)].
  - destruct s1' as [O I E]. simpl in *. subst. by apply inv_new_null.
  - replace s1' with (fresh_array s sh st d).2 by (by rewrite <- Heq).
    by apply inv_fresh_array.
Qed.

(** *** Copy assignment between two distinct objects *)
Lemma assign_copy_spec s this x o c s1 C :
  this <> x -> ctor_copy x s = Done (c, s1) ->
  objs s1 !! this = Some o -> objs s1 !! c = Some C -> this <> c -> two_state s1 o ->
  assign_copy D indet_int indet this x s
  = Done (this, destroyed (State (<[c := o]> (<[this := C]> (objs s1))) (ints s1) (elems s1))
                          c o).
Proof.
  intros Hne Hcopy Ho HC Hc Htwo. unfold assign_copy.
  rewrite decide_True by done.
  rewrite (bind_done _ _ _ _ _ Hcopy).
  rewrite (bind_done _ _ _ _ _ (std_swap_spec D s1 this c o C Ho HC Hc)).
  erewrite (bind_done _ _ _ _ _ (dtor_spec D _ c o _ _)). done.
  Unshelve.
  - cbn [objs]. apply lookup_insert_eq.
  - revert Htwo. by apply two_state_heaps.
Qed.

Lemma no_object_no_field s a :
  objs s !! a = None -> get_head a s = Fault NoObject.
Proof. intros H. unfold get_head, bind, obj. by rewrite H. Qed.

(** Every call of the interface that returns keeps the two-state
    invariant. *)
Lemma inv_exec s c s' :
  inv s -> well_formed_call D s c ->
  exec dadd dscale D indet_int indet c s = Done (tt, s') -> inv s'.
Proof.
  intros Hinv Hwf Hrun. destruct c as [|sc|x|x|this x|this x|this op|this]; cbn [exec] in Hrun.
  - (* default constructor *)
    injection Hrun as <-. by apply inv_new_null.
  - (* shape constructors *)
    apply bind_inv in Hrun as (a & s1 & Hc & [= <-]).
    cbn [well_formed_call] in Hwf.
    destruct (decide (list_length_mismatch D sc)) as [Hmis|Hok].
    { by rewrite construct_mismatch in Hc. }
    rewrite construct_match in Hc by done. unfold shape_ctor_result in Hc.
    repeat case_decide; try done.
    assert (Hs1 : s1 = (constructed indet s (extents D sc)).2).
    { by destruct (constructed indet s (extents D sc)); injection Hc as _ ->. }
    rewrite Hs1. unfold constructed.
    apply inv_fresh_array; [|by rewrite length_wrap_strides, length_extents| |done].
    + by apply length_extents.
    + rewrite length_map, length_seq, Z2Nat.id by lia.
      by destruct (extents D sc).
  - (* copy constructor *)
    apply bind_inv in Hrun as (a & s1 & Hc & [= <-]).
    destruct Hwf as [xo Hx]. by eapply inv_ctor_copy.
  - (* move constructor *)
    apply bind_inv in Hrun as (a & s1 & Hc & [= <-]).
    destruct Hwf as [xo Hx]. rewrite (ctor_move_spec s x xo Hx) in Hc.
    injection Hc as _ <-. by apply inv_moved.
  - (* copy assignment *)
    apply bind_inv in Hrun as (a & s1 & Hc & [= <-]).
    destruct Hwf as [[o Ho] [xo Hx]].
    destruct (decide (this = x)) as [->|Hne].
    { unfold assign_copy in Hc. rewrite decide_False in Hc by (by intros []).
      by injection Hc as _ <-. }
    destruct (ctor_copy_spec s x xo Hx (proj1 Hinv x xo Hx))
      as (c & s2 & C & Hcopy & -> & Hobjs & _).
    pose proof (inv_ctor_copy s x xo _ s2 Hx Hinv Hcopy) as Hinv2.
    set (c := fresh (dom (objs s))) in *.
    assert (Htc : this <> c) by exact (fresh_obj_ne s this _ Ho).
    assert (Ho2 : objs s2 !! this = Some o) by (by rewrite Hobjs, lookup_insert_ne).
    assert (HC2 : objs s2 !! c = Some C) by (by rewrite Hobjs, lookup_insert_eq).
    rewrite (assign_copy_spec s this x o c s2 C Hne Hcopy Ho2 HC2 Htc
               (proj1 Hinv2 this o Ho2)) in Hc.
    injection Hc as _ <-.
    apply inv_destroyed; [cbn [objs]; apply lookup_insert_eq|].
    by apply inv_traded.
  - (* move assignment *)
    apply bind_inv in Hrun as (a & s1 & Hc & [= <-]).
    destruct Hwf as [[o Ho] [xo Hx]].
    rewrite (assign_move_spec s this x o xo Ho Hx) in Hc.
    injection Hc as _ <-. by apply inv_traded.
  - (* element assignment, fill, +=, -=, transpose *)
    eapply inv_same_layout; [|done].
    by eapply (keeps_apply_inplace dadd dscale D D_int).
  - (* destructor *)
    destruct (objs s !! this) as [o|] eqn:Ho.
    + rewrite (dtor_spec D s this o Ho (proj1 Hinv this o Ho)) in Hrun.
      injection Hrun as <-. by apply inv_destroyed.
    + unfold dtor in Hrun. rewrite bind_assoc in Hrun.
      unfold bind at 1 in Hrun. by rewrite no_object_no_field in Hrun.
Qed.

End Lifecycle.

Section Copies.
Context {dtype : Type}.
Variable dadd : dtype -> dtype -> dtype.
Variable dscale : Z -> dtype -> dtype.
Variable (D : nat).
Variable indet_int : loc -> nat -> Z.
Variable indet : loc -> nat -> dtype.
(** [D] is an [int] template argument. *)
Hypothesis D_int : Z.of_nat D <= Int32.max_int.
Implicit Types (s : @state dtype) (o : ndarray).
Import Int32 Int32Facts.

Local Abbreviation full := (@full dtype D).
Local Abbreviation two_state := (@two_state dtype D).
Local Abbreviation inv := (@inv dtype D).
Local Abbreviation ctor_copy := (ctor_copy D indet_int indet).

Lemma views_intro s a psh pst ph sh st (d : list dtype) :
  objs s !! a = Some (Ndarray (Some psh) (Some pst) (Some ph)) ->
  ints s !! psh = Some sh -> ints s !! pst = Some st -> elems s !! ph = Some d ->
  shape_of s a = Some sh /\ stride_of s a = Some st /\ data_of s a = Some d.
Proof.
  intros Ho Hsh Hst Hd. unfold shape_of, stride_of, data_of. rewrite Ho. simpl.
  by rewrite Hsh, Hst, Hd.
Qed.

(** The three indexing operators hand out references into [head]. *)
Lemma at_raw_ref s this o i r s' :
  objs s !! this = Some o -> at_raw this i s = Done (r, s') -> s' = s /\ r.1 = head o.
Proof.
  intros Ho. unfold at_raw. rewrite (bind_done _ _ _ _ _ (get_head_view _ _ _ Ho)).
  by intros [= <- <-].
Qed.

Lemma at_coo_ref s this o coo r s' :
  objs s !! this = Some o -> at_coo D this coo s = Done (r, s') -> s' = s /\ r.1 = head o.
Proof.
  intros Ho Hrun.
  assert (s' = s) as -> by (symmetry; exact (pure_at_coo D this coo s r s' Hrun)).
  split; [done|]. unfold at_coo in Hrun.
  apply bind_inv in Hrun as (off & s1 & Hfold & Hrest).
  assert (s1 = s) as ->.
  { symmetry. revert Hfold. apply (preserves_fold_from eq); [done|congruence|].
    intros k acc. destruct (idx coo (Z.of_nat k)); [|by apply preserves_raise].
    apply pure_bind; [apply pure_ld_stride|]. intros v. by apply preserves_ret. }
  rewrite (bind_done _ _ _ _ _ (get_head_view _ _ _ Ho)) in Hrest.
  by injection Hrest as <-.
Qed.

Lemma at_args_ref s this o first rest r s' :
  objs s !! this = Some o -> at_args this first rest s = Done (r, s') ->
  s' = s /\ r.1 = head o.
Proof.
  intros Ho Hrun.
  assert (s' = s) as -> by (symmetry; exact (pure_at_args this first rest s r s' Hrun)).
  split; [done|]. unfold at_args in Hrun.
  rewrite (bind_done _ _ _ _ _ (get_head_view _ _ _ Ho)) in Hrun.
  rewrite (bind_done _ _ _ _ _ (get_stride_view _ _ _ Ho)) in Hrun.
  apply bind_inv in Hrun as (off & s1 & _ & Hret). by injection Hret as <- _.
Qed.

(** A store through a reference changes the one element buffer. *)
Lemma wr_frame s (r : ref) v s' ph :
  r.1 = Some ph -> wr r v s = Done (tt, s') ->
  objs s' = objs s /\ ints s' = ints s /\
  forall l, l <> ph -> elems s' !! l = elems s !! l.
Proof.
  intros Hr. unfold wr, st_elem. rewrite Hr.
  destruct (elems s !! ph) as [b|]; [|done].
  destruct (idx b r.2); [|done]. intros [= <-]. repeat split.
  intros l Hl. cbn [elems]. by rewrite lookup_insert_ne.
Qed.

Lemma element_write_frame s c ph psh pst w s' :
  objs s !! c = Some (Ndarray psh pst (Some ph)) ->
  element_write w -> apply_inplace dadd dscale D c w s = Done (tt, s') ->
  objs s' = objs s /\ ints s' = ints s /\
  forall l, l <> ph -> elems s' !! l = elems s !! l.
Proof.
  intros Hc Hw Hrun. destruct w as [i v|coo v|first rest v| | | |]; try done;
    cbn [apply_inplace] in Hrun;
    apply bind_inv in Hrun as (r & s1 & Hat & Hwr).
  - destruct (at_raw_ref _ _ _ _ _ _ Hc Hat) as [-> Hr]. by eapply wr_frame.
  - destruct (at_coo_ref _ _ _ _ _ _ Hc Hat) as [-> Hr]. by eapply wr_frame.
  - destruct (at_args_ref _ _ _ _ _ _ _ Hc Hat) as [-> Hr]. by eapply wr_frame.
Qed.

(** The facts about the state after a copy from which independence
    follows. *)
Lemma independent_copy_intro s x s' c xsh xst xh psh pst ph sh st d :
  objs s !! x = Some (Ndarray (Some xsh) (Some xst) (Some xh)) ->
  ints s !! xsh = Some sh -> ints s !! xst = Some st -> elems s !! xh = Some d ->
  objs s' !! x = Some (Ndarray (Some xsh) (Some xst) (Some xh)) ->
  ints s' !! xsh = Some sh -> ints s' !! xst = Some st -> elems s' !! xh = Some d ->
  objs s' !! c = Some (Ndarray (Some psh) (Some pst) (Some ph)) ->
  ints s' !! psh = Some sh -> ints s' !! pst = Some st -> elems s' !! ph = Some d ->
  ints s !! psh = None -> ints s !! pst = None -> elems s !! ph = None ->
  independent_copy dadd dscale D s x s' c.
Proof.
  intros Hx Hxsh Hxst Hxd Hx' Hxsh' Hxst' Hxd' Hc Hsh Hst Hd Hf1 Hf2 Hf3.
  destruct (views_intro s x _ _ _ _ _ _ Hx Hxsh Hxst Hxd) as (V1 & V2 & V3).
  destruct (views_intro s' x _ _ _ _ _ _ Hx' Hxsh' Hxst' Hxd') as (V1' & V2' & V3').
  destruct (views_intro s' c _ _ _ _ _ _ Hc Hsh Hst Hd) as (W1 & W2 & W3).
  split; [by rewrite V3|]. split; [unfold same_contents; by rewrite V1, V2, V3|].
  split; [unfold same_contents; by rewrite V1, V2, V3|].
  split; [by exists psh, pst, ph|].
  intros w s'' Hw Hrun.
  destruct (element_write_frame s' c ph _ _ w s'' Hc Hw Hrun) as (Ho & Hi & He).
  assert (Hne : xh <> ph) by congruence.
  unfold same_contents. rewrite V1, V2, V3.
  apply (views_intro s'' x xsh xst xh); rewrite ?Ho, ?Hi, ?He; done.
Qed.

(** X27.  The converting copy: in a store that satisfies the two-state
    invariant, the constructor template applied to a non-empty array [x]
    returns an array that shows the shape, the current strides and the
    elements of [x], leaves [x] as it was, sits in buffers that were not
    allocated before, and is such that no element assignment to the copy
    changes what [x] shows. *)
Theorem a_converting_copy_is_equal_and_independent s x xo :
  inv s -> objs s !! x = Some xo -> xo <> null_array ->
  exists c s', ctor_copy x s = Done (c, s') /\ independent_copy dadd dscale D s x s' c.
Proof.
  intros Hinv Hx Hfull.
  destruct (proj1 Hinv x xo Hx) as [->|Hxfull]; [done|].
  destruct (ctor_copy_spec D indet_int indet D_int s x xo Hx (or_intror Hxfull))
    as (c & s1 & C & Hcopy & Hc & Hobjs & [(-> & _)|Hcase]); [done|].
  destruct Hcase as (xsh & xst & xh & sh & st & d & -> & Hxsh & Hxst & Hxd
                     & Hlsh & Hlst & Hsz & Heq).
  unfold fresh_array in Heq. injection Heq as Hc' Hs1.
  set (psh := fresh (dom (ints s))) in *. set (pst := fresh ({[psh]} ∪ dom (ints s))) in *.
  set (ph := fresh (dom (elems s))) in *.
  assert (Hpp : psh <> pst) by exact (fresh_buffers_differ s).
  assert (Hf1 : ints s !! psh = None) by apply not_elem_of_dom, is_fresh.
  assert (Hf2 : ints s !! pst = None).
  { apply not_elem_of_dom. intros Hin.
    apply (is_fresh ({[psh]} ∪ dom (ints s))). by apply elem_of_union_r. }
  assert (Hf3 : elems s !! ph = None) by apply not_elem_of_dom, is_fresh.
  assert (Hxc : x <> c) by (rewrite Hc; exact (fresh_obj_ne s x _ Hx)).
  assert (HC : C = Ndarray (Some psh) (Some pst) (Some ph)).
  { rewrite Hs1 in Hobjs. cbn [objs] in Hobjs.
    apply (f_equal (fun m => m !! c)) in Hobjs.
    rewrite <- Hc', !lookup_insert_eq in Hobjs. congruence. }
  assert (Hi1 : ints s1 = <[pst := st]> (<[psh := sh]> (ints s))) by (by rewrite Hs1).
  assert (He1 : elems s1 = <[ph := d]> (elems s)) by (by rewrite Hs1).
  assert (N1 : xsh <> psh) by congruence. assert (N2 : xsh <> pst) by congruence.
  assert (N3 : xst <> psh) by congruence. assert (N4 : xst <> pst) by congruence.
  assert (N5 : xh <> ph) by congruence.
  exists c, s1. split; [done|].
  eapply (independent_copy_intro s x s1 c xsh xst xh psh pst ph sh st d); try done.
  - by rewrite Hobjs, lookup_insert_ne.
  - by rewrite Hi1, !lookup_insert_ne.
  - by rewrite Hi1, !lookup_insert_ne.
  - by rewrite He1, lookup_insert_ne.
  - by rewrite Hobjs, lookup_insert_eq, HC.
  - by rewrite Hi1, lookup_insert_ne, lookup_insert_eq.
  - by rewrite Hi1, lookup_insert_eq.
  - by rewrite He1, lookup_insert_eq.
Qed.

End Copies.

Section MoveAndSelf.
Context {dtype : Type}.
Variable (D : nat).
Variable indet_int : loc -> nat -> Z.
Variable indet : loc -> nat -> dtype.
Implicit Types (s : @state dtype) (o : ndarray).

Lemma same_contents_moved s s' a b o :
  objs s !! a = Some o -> objs s' !! b = Some o ->
  ints s' = ints s -> elems s' = elems s -> same_contents s a s' b.
Proof.
  intros Ha Hb Hi He. unfold same_contents, shape_of, stride_of, data_of.
  by rewrite Ha, Hb, Hi, He.
Qed.

(** C6, with move assignment as the exchange it is.  Move construction
    from [x] gives the new object the three buffers of [x], hence its
    shape, strides and elements, and leaves [x] with three null pointers
    and [empty()] true.  Move assignment [this = std::move(x)] gives
    [this] the buffers of [x] and hands [x] the buffers [this] had
    before.  Neither touches the content of a buffer. *)
Theorem move_hands_over_the_buffers s x xo :
  objs s !! x = Some xo ->
  (exists t s',
     ctor_move x s = Done (t, s') /\
     objs s' !! t = Some xo /\ same_contents s x s' t /\
     objs s' !! x = Some null_array /\ empty x s' = Done (true, s') /\
     ints s' = ints s /\ elems s' = elems s)
  /\ (forall this o, objs s !! this = Some o ->
        exists s',
          assign_move this x s = Done (this, s') /\
          objs s' !! this = Some xo /\ same_contents s x s' this /\
          (this <> x -> objs s' !! x = Some o /\ same_contents s this s' x) /\
          ints s' = ints s /\ elems s' = elems s).
Proof.
  intros Hx. split.
  - eexists _, _. split; [by apply ctor_move_spec|].
    assert (Hxt : x <> fresh (dom (objs s))) by exact (fresh_obj_ne s x _ Hx).
    assert (Ht : objs (State (<[x:=null_array]> (<[fresh (dom (objs s)):=xo]> (objs s)))
                             (ints s) (elems s)) !! fresh (dom (objs s)) = Some xo).
    { cbn [objs]. by rewrite lookup_insert_ne, lookup_insert_eq. }
    split; [done|]. split; [by eapply same_contents_moved|].
    split; [cbn [objs]; apply lookup_insert_eq|].
    split; [|done].
    erewrite empty_view by (cbn [objs]; apply lookup_insert_eq). done.
  - intros this o Ho. eexists. split; [by apply assign_move_spec|].
    assert (Ht : objs (State (<[x:=o]> (<[this:=xo]> (objs s))) (ints s) (elems s)) !! this
                 = Some xo).
    { cbn [objs]. destruct (decide (this = x)) as [->|Hne].
      - rewrite lookup_insert_eq. congruence.
      - by rewrite lookup_insert_ne, lookup_insert_eq. }
    split; [done|]. split; [by eapply same_contents_moved|].
    split; [|done]. intros Hne.
    assert (Hx' : objs (State (<[x:=o]> (<[this:=xo]> (objs s))) (ints s) (elems s)) !! x
                  = Some o) by (cbn [objs]; apply lookup_insert_eq).
    split; [done|]. by eapply same_contents_moved.
Qed.

End MoveAndSelf.

Import Example Cases.

(** C1, where the code departs from the claim.  [transpose(i, j)]
    exchanges [_stride[i+1]] with [_stride[j+1]] as claimed, but
    [_shape[i+1]] with [_shape[j+1]] rather than [_shape[i]] with
    [_shape[j]]: on a rank-3 array of shape (1,2,3), [transpose(0, 1)]
    leaves the shape (1,3,2) where (2,1,3) is claimed; on a rank-2 array
    the default [transpose()] subscripts the shape buffer at 2, past its
    end. *)
Theorem transpose_swaps_shape_one_slot_late :
  observe transposed_123 = Some ([1; 3; 2], [6; 3; 6; 1], [0; 0; 0; 0; 0; 0])
  /\ transposed_23 = Fault OutOfBounds.
Proof. split; vm_compute; reflexivity. Qed.

(** C8, where the code departs from the claim.  Unary minus negates
    into a local copy and then returns [*this]: on the array [1, 2] the
    reference it returns is the operand itself, which still holds
    [1, 2]. *)
Theorem negation_returns_its_operand :
  observe negated_12 = Some ([2], [2; 1], [1; 2])
  /\ returned negated_12 = returned (filled_12 start).
Proof. split; vm_compute; reflexivity. Qed.

(** C2 as stated fails in two places.  On the array asked for with
    extents (65537, 65537), whose 32-bit element count is 131073, one
    roll forward and one roll back along axis 0 take the valid offset
    131072 to 262145.  On a (2,2,2) array with axes 0 and 1 exchanged,
    two forward rolls along axis 0 (an axis of length 2) take offset 0
    to -4. *)
Lemma rolling_does_not_always_return :
  returned rolled_past_int32 = Some 262145 /\ returned rolled_twice = Some (-4).
Proof. split; vm_compute; reflexivity. Qed.

(** C3 as stated fails when the product of the extents passes
    [2^31 - 1]: the extents (65536, 65536) are positive, their product is
    [2^32], and the constructed array reports size 0. *)
Lemma size_wraps_around :
  Forall (fun e => 0 < e) (extents 2 (ByList [65536; 65536]))
  /\ returned overflowing_size = Some 0
  /\ product (extents 2 (ByList [65536; 65536])) = 4294967296.
Proof.
  split; [|split]; [|vm_compute; reflexivity..].
  repeat constructor.
Qed.

(** C7 as stated fails when the 32-bit element count comes out
    negative: width 46341 at rank 2 is positive, passes [check], and the
    allocation of the element buffer throws. *)
Lemma positive_width_can_fail :
  Forall (fun e => 0 < e) (extents 2 (ByWidth 46341))
  /\ overflowing_width = Fault BadArrayNewLength.
Proof.
  split; [|vm_compute; reflexivity].
  repeat constructor.
Qed.

(** C6 as stated fails for move assignment into an allocated array:
    after [a = std::move(b)] with [a] of length 2, [b] is not empty and
    reports size 2; and after move construction [size()] of the source
    reads through a null pointer. *)
Lemma move_assignment_swaps :
  returned moved_into_full = Some (false, 2)
  /\ size_of_moved_from = Fault NullDeref.
Proof. split; vm_compute; reflexivity. Qed.

Import Example Cases.

Lemma rank_2_is_an_int : Z.of_nat 2 <= Int32.max_int.
Proof. by vm_compute. Qed.

Lemma one_array_inv : inv 2 one_array.2.
Proof. apply inv_fresh_array; [done..|apply inv_initial]. Qed.

Lemma two_arrays_inv : inv 2 two_arrays.2.
Proof. apply (inv_new_null 2 one_array.2), one_array_inv. Qed.

Lemma rank_4_is_an_int : Z.of_nat 4 <= Int32.max_int.
Proof. by vm_compute. Qed.

(** C2 along the last axis of the (2,3,4,5) array after
    [transpose(0, 1)], from offset 7. *)
Lemma nested_rolling_witness :
  contents hyper_transposed hyper.1
  = Some ([2; 4; 3; 5], [120; 20; 60; 5; 1], replicate 120 0) /\
  roll_n 4 (Z.to_nat 5) hyper.1 7 3 hyper_transposed = Done (7, hyper_transposed) /\
  bind (rollind 4 hyper.1 7 3) (fun r' => rollind 4 hyper.1 r' (3 - Z.of_nat 4))
    hyper_transposed = Done (7, hyper_transposed).
Proof.
  split; [vm_compute; reflexivity|].
  apply (rolling_is_periodic_along_nested_strides 4 rank_4_is_an_int
           hyper_transposed hyper.1 [2; 4; 3; 5] [120; 20; 60; 5; 1] 3 5 1 120 7).
  - vm_compute; reflexivity.
  - vm_compute; reflexivity.
  - lia.
  - reflexivity.
  - reflexivity.
  - reflexivity.
  - reflexivity.
  - lia.
  - lia.
  - exists 24. reflexivity.
  - by vm_compute.
  - lia.
Defined.

(** The last element of a (2,3) array, along axis 1. *)
Lemma rolling_witness :
  0 <= 5 < product [2; 3] /\
  exists n, idx [2; 3] 1 = Some n /\
    roll_n 2 (Z.to_nat n) one_array.1 5 1 one_array.2 = Done (5, one_array.2) /\
    bind (rollind 2 one_array.1 5 1) (fun r' => rollind 2 one_array.1 r' (1 - Z.of_nat 2))
      one_array.2 = Done (5, one_array.2).
Proof.
  split; [by vm_compute|].
  apply (rolling_is_periodic_on_constructed_strides 2 rank_2_is_an_int
           one_array.2 one_array.1 [2; 3] 1 5).
  - vm_compute; reflexivity.
  - vm_compute; reflexivity.
  - reflexivity.
  - repeat constructor.
  - by vm_compute.
  - lia.
  - by vm_compute.
Defined.

(** C3 for the shape list (2,3). *)
Lemma construction_witness :
  exists this s',
    construct 2 junk_int junk (ByList [2; 3]) start = Done (this, s') /\
    stride_of s' this = Some [6; 3; 1] /\ size this s' = Done (6, s').
Proof.
  destruct (construction_gives_row_major_strides Z.add Z.mul 2 junk_int junk
              rank_2_is_an_int (ByList [2; 3]) start)
    as (this & s' & st & Hrun & _ & Hst & -> & _ & _ & Hsz & _).
  - exact I.
  - simpl. lia.
  - repeat constructor.
  - by vm_compute.
  - exists this, s'. split; [exact Hrun|]. split; [exact Hst|exact Hsz].
Defined.

(** C4 for [a(1)] on a (2,3) array. *)
Lemma variadic_witness :
  at_args one_array.1 1 [] one_array.2 = Done ((Some 0%nat, 3), one_array.2) /\
  at_coo 2 one_array.1 [1; 0] one_array.2 = Done ((Some 0%nat, 3), one_array.2).
Proof.
  destruct (variadic_equals_padded_coordinates 2 one_array.2 one_array.1
              (Ndarray (Some 0%nat) (Some 1%nat) (Some 0%nat)) 1%nat [6; 3; 1] 1 [])
    as (H1 & H2 & _).
  - vm_compute; reflexivity.
  - reflexivity.
  - vm_compute; reflexivity.
  - reflexivity.
  - simpl. lia.
  - split; [exact H1|exact H2].
Defined.

(** A converting copy of the (2,3) array. *)
Lemma converting_copy_witness :
  exists c s', ctor_copy 2 junk_int junk one_array.1 two_arrays.2 = Done (c, s')
               /\ independent_copy Z.add Z.mul 2 two_arrays.2 one_array.1 s' c.
Proof.
  apply (a_converting_copy_is_equal_and_independent Z.add Z.mul 2 junk_int junk
           rank_2_is_an_int two_arrays.2 one_array.1
           (Ndarray (Some 0%nat) (Some 1%nat) (Some 0%nat))).
  - exact two_arrays_inv.
  - vm_compute; reflexivity.
  - discriminate.
Defined.

(** C6 for a move out of the (2,3) array. *)
Lemma move_witness :
  exists t s',
    ctor_move one_array.1 two_arrays.2 = Done (t, s') /\
    objs s' !! one_array.1 = Some null_array /\
    same_contents two_arrays.2 one_array.1 s' t.
Proof.
  destruct (move_hands_over_the_buffers two_arrays.2 one_array.1
              (Ndarray (Some 0%nat) (Some 1%nat) (Some 0%nat)))
    as [(t & s' & Hrun & _ & Hsame & Hnull & _) _].
  - vm_compute; reflexivity.
  - exists t, s'. split; [exact Hrun|]. split; [exact Hnull|exact Hsame].
Defined.

(** C7 for the shape list (2,0). *)
Lemma rejection_witness :
  exists msg, construct 2 junk_int junk (ByList [2; 0]) start = Exit msg.
Proof.
  apply (proj1 (construction_exits_iff_bad_shape 2 junk_int junk (ByList [2; 0]) start I)).
  left. simpl. apply Exists_cons_tl, Exists_cons_hd. lia.
Defined.

(** ** Exchanging two slots of a buffer *)

Section Exchange.
Context {A : Type}.
Implicit Types l : list A.

Lemma exchanged_Some l i j x y :
  idx l i = Some x -> idx l j = Some y -> exchanged l i j = upd (upd l i y) j x.
Proof. unfold exchanged. by intros -> ->. Qed.

Lemma length_exchanged l i j : length (exchanged l i j) = length l.
Proof.
  unfold exchanged. destruct (idx l i), (idx l j); try done.
  by rewrite !length_upd.
Qed.

Lemma swap_back l (a c : nat) x y :
  l !! a = Some x -> l !! c = Some y ->
  <[c := y]> (<[a := x]> (<[c := x]> (<[a := y]> l))) = l.
Proof.
  intros Ha Hc. apply list_eq. intros k.
  pose proof (lookup_lt_Some _ _ _ Ha). pose proof (lookup_lt_Some _ _ _ Hc).
  destruct (decide (k = c)) as [->|Hkc].
  - rewrite list_lookup_insert_eq by (by rewrite !length_insert). done.
  - rewrite list_lookup_insert_ne by done.
    destruct (decide (k = a)) as [->|Hka].
    + rewrite list_lookup_insert_eq by (by rewrite !length_insert). done.
    + by rewrite !list_lookup_insert_ne.
Qed.

Lemma idx_exchanged_l l i j x y :
  idx l i = Some x -> idx l j = Some y -> idx (exchanged l i j) i = Some y.
Proof.
  intros Hi Hj. rewrite (exchanged_Some _ _ _ _ _ Hi Hj).
  apply idx_Some in Hi as [Hi0 Hi], Hj as [Hj0 Hj]. apply idx_Some. split; [done|].
  unfold upd. pose proof (lookup_lt_Some _ _ _ Hi). pose proof (lookup_lt_Some _ _ _ Hj).
  destruct (decide (Z.to_nat j = Z.to_nat i)) as [E|E].
  - rewrite E, list_lookup_insert_eq by (by rewrite length_insert).
    rewrite E in Hj. congruence.
  - rewrite list_lookup_insert_ne by done. by rewrite list_lookup_insert_eq.
Qed.

Lemma idx_exchanged_r l i j x y :
  idx l i = Some x -> idx l j = Some y -> idx (exchanged l i j) j = Some x.
Proof.
  intros Hi Hj. rewrite (exchanged_Some _ _ _ _ _ Hi Hj).
  apply idx_Some in Hi as [Hi0 Hi], Hj as [Hj0 Hj]. apply idx_Some. split; [done|].
  unfold upd. pose proof (lookup_lt_Some _ _ _ Hj).
  by rewrite list_lookup_insert_eq by (by rewrite length_insert).
Qed.

Lemma exchanged_twice l i j : exchanged (exchanged l i j) i j = l.
Proof.
  destruct (idx l i) as [x|] eqn:Hi; [|unfold exchanged; by rewrite !Hi].
  destruct (idx l j) as [y|] eqn:Hj; [|unfold exchanged; by rewrite !Hi, !Hj, ?Hi].
  rewrite (exchanged_Some (exchanged l i j) i j y x)
    by eauto using idx_exchanged_l, idx_exchanged_r.
  rewrite (exchanged_Some _ _ _ _ _ Hi Hj).
  apply idx_Some in Hi as [_ Hi], Hj as [_ Hj]. by apply swap_back.
Qed.

Lemma tail_exchanged l i j :
  0 <= i -> 0 <= j -> tail (exchanged l (i + 1) (j + 1)) = exchanged (tail l) i j.
Proof.
  intros Hi Hj. destruct l as [|h l]; [unfold exchanged, idx; by repeat case_decide|].
  unfold exchanged, idx. rewrite !decide_True by lia.
  replace (Z.to_nat (i + 1)) with (S (Z.to_nat i)) by lia.
  replace (Z.to_nat (j + 1)) with (S (Z.to_nat j)) by lia. simpl.
  destruct (l !! Z.to_nat i), (l !! Z.to_nat j); try done.
  unfold upd.
  replace (Z.to_nat (i + 1)) with (S (Z.to_nat i)) by lia.
  replace (Z.to_nat (j + 1)) with (S (Z.to_nat j)) by lia. done.
Qed.

End Exchange.

(** ** The sum of products under a change of one or two places *)

Lemma dot_insert c t : forall k x y ck tk,
  c !! k = Some ck -> t !! k = Some tk ->
  dot (<[k := x]> c) (<[k := y]> t) = dot c t - ck * tk + x * y.
Proof.
  revert t. induction c as [|c0 c IH]; intros [|t0 t] [|k] x y ck tk Hc Ht;
    simplify_eq/=; try lia.
  rewrite (IH t k x y ck tk) by done. lia.
Qed.

Lemma dot_exchanged c t i j :
  0 <= i < Z.of_nat (length c) -> 0 <= j < Z.of_nat (length c) ->
  length t = length c ->
  dot (exchanged c i j) (exchanged t i j) = dot c t.
Proof.
  intros Hi Hj Hl.
  destruct (idx_is_Some c i Hi) as [ci Hci]. destruct (idx_is_Some c j Hj) as [cj Hcj].
  destruct (idx_is_Some t i ltac:(lia)) as [ti Hti].
  destruct (idx_is_Some t j ltac:(lia)) as [tj Htj].
  rewrite (exchanged_Some _ _ _ _ _ Hci Hcj), (exchanged_Some _ _ _ _ _ Hti Htj).
  apply idx_Some in Hci as [_ Hci], Hcj as [_ Hcj], Hti as [_ Hti], Htj as [_ Htj].
  unfold upd. set (a := Z.to_nat i) in *. set (b := Z.to_nat j) in *.
  destruct (decide (a = b)) as [E|E].
  - rewrite <- E in *. simplify_eq.
    rewrite !list_insert_insert_eq, !list_insert_id by done. done.
  - rewrite (dot_insert _ _ b ci ti cj tj)
      by (by rewrite list_lookup_insert_ne).
    rewrite (dot_insert _ _ a cj tj ci ti) by done. lia.
Qed.

(** ** Transposition *)

Section Transposition.
Context {dtype : Type} (D : nat).
Implicit Types (s : @state dtype) (o : ndarray).
Import Int32 Int32Facts.

Lemma swap_int_view s p b i j x y :
  ints s !! p = Some b -> idx b i = Some x -> idx b j = Some y ->
  swap_int (Some p) i j s
  = Done (tt, State (objs s) (<[p := exchanged b i j]> (ints s)) (elems s)).
Proof.
  intros Hb Hi Hj. unfold swap_int.
  rewrite (bind_done _ _ _ _ _ (ld_int_view s p b i x Hb Hi)).
  rewrite (bind_done _ _ _ _ _ (ld_int_view s p b j y Hb Hj)).
  rewrite (bind_done _ _ _ _ _ (st_int_view s p b i y Hb (mk_is_Some _ _ Hi))).
  erewrite st_int_view; cbn [ints objs elems].
  - by rewrite insert_insert_eq, (exchanged_Some _ _ _ _ _ Hi Hj).
  - apply lookup_insert_eq.
  - apply idx_is_Some. rewrite length_upd. by eapply idx_lt.
Qed.

Lemma swap_int_inv s p i j s' :
  swap_int p i j s = Done (tt, s') ->
  exists l b x y, p = Some l /\ ints s !! l = Some b /\ idx b i = Some x /\ idx b j = Some y.
Proof.
  unfold swap_int, bind, ld_int. destruct p as [l|]; [|done].
  destruct (ints s !! l) as [b|] eqn:Hb; [|done].
  destruct (idx b i) as [x|] eqn:Hi; [|done]. rewrite Hb.
  destruct (idx b j) as [y|] eqn:Hj; [|done]. eauto 10.
Qed.

(** What a call of [transpose] that returns has done: both buffers have
    their slots [i + 1] and [j + 1] exchanged, the stride buffer first. *)
Lemma transpose_inv s this i j s' :
  transpose this i j s = Done (tt, s') ->
  exists o psh pst st sh,
    objs s !! this = Some o /\ _shape o = Some psh /\ _stride o = Some pst /\
    ints s !! pst = Some st /\
    <[pst := exchanged st (add i 1) (add j 1)]> (ints s) !! psh = Some sh /\
    is_Some (idx st (add i 1)) /\ is_Some (idx st (add j 1)) /\
    is_Some (idx sh (add i 1)) /\ is_Some (idx sh (add j 1)) /\
    s' = State (objs s)
           (<[psh := exchanged sh (add i 1) (add j 1)]>
              (<[pst := exchanged st (add i 1) (add j 1)]> (ints s)))
           (elems s).
Proof.
  unfold transpose. intros ([] & s1 & H1 & H2)%bind_inv.
  apply bind_inv in H1 as (pst' & s0 & Hg & H1).
  unfold get_stride in Hg. apply bind_inv in Hg as (o0 & s0' & Ho & [= <- <-]).
  unfold obj in Ho. destruct (objs s !! this) as [o|] eqn:Hobj; [|done].
  injection Ho as <- <-.
  destruct s1 as [O1 I1 E1].
  pose proof H1 as (pst & st & x & y & Hp & Hst & Hx & Hy)%swap_int_inv.
  rewrite Hp in H1. rewrite (swap_int_view _ _ _ _ _ _ _ Hst Hx Hy) in H1.
  injection H1 as <- <- <-.
  apply bind_inv in H2 as (psh' & s2 & Hg & H2).
  rewrite (get_shape_view (State (objs s) _ (elems s)) this o Hobj) in Hg. injection Hg as <- <-.
  pose proof H2 as (psh & sh & u & v & Hq & Hsh & Hu & Hv)%swap_int_inv.
  rewrite Hq in H2. rewrite (swap_int_view (State (objs s) _ (elems s)) _ _ _ _ _ _ Hsh Hu Hv) in H2.
  injection H2 as <-. cbn [objs ints elems] in *.
  exists o, psh, pst, st, sh. eauto 15.
Qed.

Lemma transpose_run s this o psh pst st sh i j :
  objs s !! this = Some o -> _shape o = Some psh -> _stride o = Some pst ->
  ints s !! pst = Some st ->
  <[pst := exchanged st (add i 1) (add j 1)]> (ints s) !! psh = Some sh ->
  is_Some (idx st (add i 1)) -> is_Some (idx st (add j 1)) ->
  is_Some (idx sh (add i 1)) -> is_Some (idx sh (add j 1)) ->
  transpose this i j s
  = Done (tt, State (objs s)
           (<[psh := exchanged sh (add i 1) (add j 1)]>
              (<[pst := exchanged st (add i 1) (add j 1)]> (ints s)))
           (elems s)).
Proof.
  intros Ho Hpsh Hpst Hst Hsh [x Hx] [y Hy] [u Hu] [v Hv]. unfold transpose.
  rewrite bind_assoc, (bind_done _ _ _ _ _ (get_stride_view _ _ _ Ho)), Hpst.
  rewrite (bind_done _ _ _ _ _ (swap_int_view _ _ _ _ _ _ _ Hst Hx Hy)).
  rewrite (bind_done _ _ _ _ _ (get_shape_view (State (objs s) _ (elems s)) this o Ho)), Hpsh.
  by rewrite (swap_int_view (State (objs s) _ (elems s)) _ _ _ _ _ _ Hsh Hu Hv).
Qed.

(** X1.  Transposition is its own inverse.  Whenever [transpose(i, j)]
    returns, the same call on the resulting store returns and gives back
    the store the first call started from, buffer for buffer. *)
Theorem transpose_twice_restores_the_store s this i j s' :
  transpose this i j s = Done (tt, s') -> transpose this i j s' = Done (tt, s).
Proof.
  intros (o & psh & pst & st & sh & Ho & Hpsh & Hpst & Hst & Hsh & Hi1 & Hj1 & Hi2 & Hj2 & ->)
    %transpose_inv.
  set (ii := add i 1) in *. set (jj := add j 1) in *.
  assert (Hex : forall (b : list Z), is_Some (idx b ii) -> is_Some (idx b jj) ->
            is_Some (idx (exchanged b ii jj) ii) /\ is_Some (idx (exchanged b ii jj) jj)).
  { intros b [x Hx] [y Hy].
    split; [exists y; by eapply idx_exchanged_l|exists x; by eapply idx_exchanged_r]. }
  destruct s as [O I E]. cbn [objs ints elems] in *.
  destruct (decide (psh = pst)) as [->|Hne].
  - rewrite lookup_insert_eq in Hsh. injection Hsh as <-.
    rewrite exchanged_twice, insert_insert_eq, (insert_id _ _ _ Hst).
    rewrite (transpose_run _ this o pst pst st (exchanged st ii jj) i j); try done.
    + cbn [objs ints elems]. fold ii jj.
      by rewrite exchanged_twice, insert_insert_eq, (insert_id _ _ _ Hst).
    + cbn [ints]. fold ii jj. apply lookup_insert_eq.
  - rewrite lookup_insert_ne in Hsh by done.
    rewrite (transpose_run _ this o psh pst (exchanged st ii jj) (exchanged sh ii jj) i j);
      try done; cbn [objs ints elems]; fold ii jj.
    + rewrite !exchanged_twice. do 3 f_equal. apply map_eq. intros k.
      destruct (decide (k = psh)) as [->|Hk1];
        [by rewrite lookup_insert_eq|rewrite lookup_insert_ne by done].
      destruct (decide (k = pst)) as [->|Hk2];
        [by rewrite lookup_insert_eq|by rewrite !lookup_insert_ne by done].
    + rewrite lookup_insert_ne by done. apply lookup_insert_eq.
    + rewrite lookup_insert_ne by done. apply lookup_insert_eq.
    + by apply Hex.
    + by apply Hex.
    + by apply Hex.
    + by apply Hex.
Qed.

(** Coordinate indexing on an array whose stride buffer is [st]. *)
Lemma at_coo_view s this o pst st coo :
  objs s !! this = Some o -> _stride o = Some pst -> ints s !! pst = Some st ->
  length st = S D -> length coo = D ->
  at_coo D this coo s = Done ((head o, wrap (dot coo (tail st))), s).
Proof.
  intros Ho Hp Hst Hl Hc. unfold at_coo.
  rewrite (bind_done _ _ _ _ _
    (fold_coo_view s this o pst st coo D 0%nat 0 Ho Hp Hst ltac:(done) ltac:(lia) ltac:(lia))).
  rewrite (bind_done _ _ _ _ _ (get_head_view _ _ _ Ho)).
  unfold ret. rewrite drop_0, firstn_all2 by lia.
  destruct st; [done|]. reflexivity.
Qed.

Hypothesis D_int : Z.of_nat D <= max_int.

(** X2.  Transposition moves no element: on an array that owns its
    buffers, with [0 <= i, j < D] and [D] coordinates [coo], a call
    [transpose(i, j)] that returns leaves the element buffers as they
    were, and coordinate indexing with [coo[i]] and [coo[j]] exchanged
    then returns the reference that [coo] returned before. *)
Theorem transposed_coordinates_reach_the_same_element s this o i j s' coo :
  objs s !! this = Some o -> full D s o ->
  0 <= i < Z.of_nat D -> 0 <= j < Z.of_nat D -> length coo = D ->
  transpose this i j s = Done (tt, s') ->
  elems s' = elems s /\
  exists r, at_coo D this coo s = Done (r, s) /\
            at_coo D this (exchanged coo i j) s' = Done (r, s').
Proof.
  intros Ho (psh & pst & ph & sh & st & d & -> & Hne & Hsh & Hst & Hd & Hlsh & Hlst & Hsz)
    Hi Hj Hc
    (o' & psh' & pst' & st' & sh' & Ho' & Hpsh & Hpst & Hst' & Hsh' & _ & _ & _ & _ & ->)
    %transpose_inv.
  rewrite Ho in Ho'. injection Ho' as <-. cbn in Hpsh, Hpst.
  injection Hpsh as <-. injection Hpst as <-.
  rewrite Hst in Hst'. injection Hst' as <-.
  split; [done|].
  assert (Hii : add i 1 = i + 1) by (apply wrap_small; unfold in_range, half, max_int in *; lia).
  assert (Hjj : add j 1 = j + 1) by (apply wrap_small; unfold in_range, half, max_int in *; lia).
  rewrite Hii, Hjj in *.
  eexists. split; [by eapply (at_coo_view s this _ pst st)|].
  erewrite (at_coo_view _ this _ pst (exchanged st (i + 1) (j + 1))); cbn [objs ints elems _stride].
  - rewrite tail_exchanged by lia. rewrite dot_exchanged; [done|lia|lia|].
    destruct st; simpl in *; lia.
  - done.
  - done.
  - rewrite lookup_insert_ne by done. apply lookup_insert_eq.
  - by rewrite length_exchanged.
  - by rewrite length_exchanged.
Qed.

(** X3.  Transposition cannot name the last axis: on an array that owns
    its buffers, with [0 <= i, j < D] and [i = D - 1] or [j = D - 1], the
    call [transpose(i, j)] subscripts the shape buffer at [D], past its
    [D] entries, and so leaves defined behaviour. *)
Theorem transposing_the_last_axis_overruns_the_shape s this o i j :
  objs s !! this = Some o -> full D s o ->
  0 <= i < Z.of_nat D -> 0 <= j < Z.of_nat D ->
  i = Z.of_nat D - 1 \/ j = Z.of_nat D - 1 ->
  transpose this i j s = Fault OutOfBounds.
Proof.
  intros Ho (psh & pst & ph & sh & st & d & -> & Hne & Hsh & Hst & Hd & Hlsh & Hlst & Hsz)
    Hi Hj Hlast.
  assert (Hii : add i 1 = i + 1) by (apply wrap_small; unfold in_range, half, max_int in *; lia).
  assert (Hjj : add j 1 = j + 1) by (apply wrap_small; unfold in_range, half, max_int in *; lia).
  destruct (idx_is_Some st (i + 1) ltac:(lia)) as [x Hx].
  destruct (idx_is_Some st (j + 1) ltac:(lia)) as [y Hy].
  unfold transpose. rewrite Hii, Hjj.
  rewrite bind_assoc, (bind_done _ _ _ _ _ (get_stride_view _ _ _ Ho)). cbn [_stride].
  rewrite (bind_done _ _ _ _ _ (swap_int_view _ _ _ _ _ _ _ Hst Hx Hy)).
  rewrite (bind_done _ _ _ _ _ (get_shape_view (State (objs s) _ (elems s)) this _ Ho)).
  cbn [_shape]. unfold swap_int, bind, ld_int. cbn [ints].
  rewrite lookup_insert_ne by done. rewrite Hsh.
  assert (Hout : forall k, k = Z.of_nat D - 1 -> idx sh (k + 1) = None).
  { intros k ->. unfold idx. rewrite decide_True by lia.
    apply lookup_ge_None_2. lia. }
  destruct Hlast as [E|E].
  - by rewrite (Hout i E).
  - destruct (idx sh (i + 1)); [|done]. cbn [ints].
    rewrite lookup_insert_ne by done. by rewrite Hsh, (Hout j E).
Qed.

End Transposition.

(** ** Offsets of coordinates in row-major order *)

Lemma spec_strides_cons e sh : spec_strides (e :: sh) = product sh * e :: spec_strides sh.
Proof. unfold spec_strides at 1. simpl. fold (spec_strides sh). by rewrite hd_spec_strides. Qed.

Lemma spec_strides_unfold sh : spec_strides sh = product sh :: tail (spec_strides sh).
Proof.
  destruct sh as [|e sh]; [done|]. rewrite spec_strides_cons. simpl. f_equal. lia.
Qed.

Lemma offset_of_cons e sh c coo :
  offset_of (e :: sh) (c :: coo) = c * product sh + offset_of sh coo.
Proof.
  unfold offset_of. rewrite spec_strides_cons. simpl.
  by rewrite (spec_strides_unfold sh) at 1.
Qed.

Lemma offset_of_nil sh : offset_of sh [] = 0.
Proof. done. Qed.

Lemma in_bounds_length coo sh : in_bounds coo sh -> length coo = length sh.
Proof. apply Forall2_length. Qed.

Lemma in_bounds_positive coo sh : in_bounds coo sh -> Forall (fun e => 0 < e) sh.
Proof. induction 1; constructor; [lia|done]. Qed.

Lemma offset_of_range coo sh :
  in_bounds coo sh -> 0 <= offset_of sh coo < product sh.
Proof.
  induction 1 as [|c e coo sh Hc Hb IH]; [by cbn|].
  rewrite offset_of_cons. cbn [product foldr]. fold (product sh). nia.
Qed.

Lemma offset_of_inj coo coo' sh :
  in_bounds coo sh -> in_bounds coo' sh -> offset_of sh coo = offset_of sh coo' ->
  coo = coo'.
Proof.
  intros H. revert coo'. induction H as [|c e coo sh Hc Hb IH]; intros coo' H' E.
  - by inversion H'.
  - inversion H' as [|c' e' coo2 sh' Hc' Hb']; subst.
    rewrite !offset_of_cons in E.
    pose proof (offset_of_range _ _ Hb). pose proof (offset_of_range _ _ Hb').
    assert (c = c') by nia. subst c'. f_equal. apply IH; [done|lia].
Qed.

(** The offset of [coo], read along the axis [ax]: a whole number of
    blocks, the coordinate along [ax] times the stride of [ax], and what
    the finer axes add; the first and the last do not depend on the
    coordinate along [ax]. *)
Lemma offset_of_axis ax : forall sh coo n,
  in_bounds coo sh -> sh !! ax = Some n ->
  exists q t, 0 <= q /\ 0 <= t < product (drop (S ax) sh) /\
    forall c, offset_of sh (<[ax := c]> coo)
              = q * (product (drop (S ax) sh) * n) + (c * product (drop (S ax) sh) + t).
Proof.
  induction ax as [|ax IH]; intros sh coo n Hb Hn.
  - destruct Hb as [|c0 e coo sh Hc Hb]; [done|]. injection Hn as ->.
    exists 0, (offset_of sh coo). change (drop 1 (n :: sh)) with sh.
    split; [done|]. split; [by apply offset_of_range|].
    intros c. cbn [insert list_insert]. rewrite offset_of_cons. lia.
  - destruct Hb as [|c0 e coo sh Hc Hb]; [done|]. cbn in Hn.
    destruct (IH sh coo n Hb Hn) as (q & t & Hq & Ht & Hoff).
    exists (c0 * product (take ax sh) + q), t.
    assert (0 < product (take ax sh)).
    { apply product_pos. apply Forall_take. by eapply in_bounds_positive. }
    split; [nia|]. split; [done|].
    intros c. cbn [insert list_insert drop]. rewrite offset_of_cons.
    change (list_insert ax c coo) with (<[ax := c]> coo). rewrite Hoff.
    rewrite (product_take_drop sh ax), (product_drop sh ax n Hn). lia.
Qed.

Section Coordinates.
Context {dtype : Type} (D : nat).
Hypothesis D_int : Z.of_nat D <= Int32.max_int.
Implicit Types (s : @state dtype) (o : ndarray).
Import Int32 Int32Facts.

(** Coordinate indexing on an array that has the strides of its
    construction. *)
Lemma at_coo_constructed s this sh coo :
  shape_of s this = Some sh -> stride_of s this = Some (spec_strides sh) ->
  length sh = D -> product sh <= max_int -> in_bounds coo sh ->
  exists o, objs s !! this = Some o /\
    at_coo D this coo s = Done ((head o, offset_of sh coo), s).
Proof.
  intros Hsh (o & pst & Ho & Hp & Hst)%stride_of_inv Hl Hfit Hb.
  exists o. split; [done|].
  rewrite (at_coo_view D s this o pst (spec_strides sh) coo Ho Hp Hst).
  - do 3 f_equal. apply wrap_small. pose proof (offset_of_range _ _ Hb).
    unfold offset_of, in_range, half, max_int in *. lia.
  - rewrite length_spec_strides. lia.
  - rewrite (in_bounds_length _ _ Hb). done.
Qed.

(** X4.  Coordinates inside the extents address the element buffer: on an
    array with the row-major strides of its shape [sh] and at most
    [2^31 - 1] elements, coordinate indexing with [0 <= coo[k] < sh[k]]
    on every axis returns the reference at [offset_of sh coo], an offset
    in [[0, product sh)], and the element there can be read. *)
Theorem coordinates_in_bounds_stay_in_the_buffer s this sh d coo :
  shape_of s this = Some sh -> stride_of s this = Some (spec_strides sh) ->
  data_of s this = Some d -> Z.of_nat (length d) = product sh ->
  length sh = D -> product sh <= max_int -> in_bounds coo sh ->
  exists p off v,
    at_coo D this coo s = Done ((p, off), s) /\
    0 <= off < product sh /\ off = offset_of sh coo /\
    d !! Z.to_nat off = Some v /\ rd (p, off) s = Done (v, s).
Proof.
  intros Hsh Hst Hd Hsz Hl Hfit Hb.
  destruct (at_coo_constructed s this sh coo Hsh Hst Hl Hfit Hb) as (o & Ho & Hrun).
  pose proof (offset_of_range _ _ Hb) as Hr.
  destruct (lookup_lt_is_Some_2 d (Z.to_nat (offset_of sh coo))) as [v Hv]; [lia|].
  exists (head o), (offset_of sh coo), v. split; [done|]. split; [done|]. split; [done|].
  split; [done|].
  unfold data_of in Hd. rewrite Ho in Hd. cbn in Hd.
  destruct (head o) as [ph|]; [|done]. cbn in Hd.
  unfold rd. cbn. eapply ld_elem_view; [done|]. apply idx_Some. split; [lia|done].
Qed.

(** X5.  Coordinate indexing is injective inside the extents: on an array
    with the row-major strides of its shape and at most [2^31 - 1]
    elements, two different tuples of coordinates, each inside the
    extents, are returned different references. *)
Theorem distinct_coordinates_reach_distinct_elements s this sh coo coo' :
  shape_of s this = Some sh -> stride_of s this = Some (spec_strides sh) ->
  length sh = D -> product sh <= max_int ->
  in_bounds coo sh -> in_bounds coo' sh -> coo <> coo' ->
  returned (at_coo D this coo s) <> returned (at_coo D this coo' s).
Proof.
  intros Hsh Hst Hl Hfit Hb Hb' Hne.
  destruct (at_coo_constructed s this sh coo Hsh Hst Hl Hfit Hb) as (o & Ho & ->).
  destruct (at_coo_constructed s this sh coo' Hsh Hst Hl Hfit Hb') as (o' & Ho' & ->).
  cbn. intros [= _ E]. apply Hne. by eapply offset_of_inj.
Qed.

End Coordinates.

(** ** One periodic step, in coordinates *)

Lemma in_bounds_lookup coo sh ax c n :
  in_bounds coo sh -> coo !! ax = Some c -> sh !! ax = Some n -> 0 <= c < n.
Proof. intros Hb Hc Hn. exact (Forall2_lookup_lr _ _ _ _ _ _ Hb Hc Hn). Qed.

Lemma step_in_coordinates sh coo ax n c :
  in_bounds coo sh -> sh !! ax = Some n -> coo !! ax = Some c ->
  let st := product (drop (S ax) sh) in
  fwd st n (offset_of sh coo) = offset_of sh (<[ax := (c + 1) mod n]> coo) /\
  bwd st n (offset_of sh coo) = offset_of sh (<[ax := (c - 1) mod n]> coo).
Proof.
  intros Hb Hn Hc st.
  pose proof (in_bounds_lookup _ _ _ _ _ Hb Hc Hn) as Hcn.
  destruct (offset_of_axis ax sh coo n Hb Hn) as (q & t & Hq & Ht & Hoff).
  fold st in Ht, Hoff.
  assert (Hst : 0 < st) by lia.
  assert (Hn0 : 0 < n) by lia.
  assert (Hr : offset_of sh coo = q * (st * n) + (c * st + t)).
  { rewrite <- Hoff. by rewrite list_insert_id. }
  assert (Hpos : pos st n (offset_of sh coo) = c).
  { rewrite Hr. by apply pos_encode. }
  split.
  - unfold fwd. rewrite Hpos, Hoff, Hr. case_decide as E.
    + replace (c + 1) with n by lia. rewrite Z_mod_same_full. lia.
    + rewrite Z.mod_small by lia. lia.
  - unfold bwd. rewrite Hpos, Hoff, Hr. case_decide as E.
    + rewrite E. replace ((0 - 1) mod n) with (n - 1); [lia|].
      apply (Z.mod_unique_pos _ _ (-1)); lia.
    + rewrite Z.mod_small by lia. lia.
Qed.

Section RollingCoordinates.
Context {dtype : Type} (D : nat).
Hypothesis D_int : Z.of_nat D <= Int32.max_int.
Implicit Types (s : @state dtype) (o : ndarray).
Import Int32 Int32Facts.

Lemma rollind_in_coordinates s this sh coo ax n c :
  shape_of s this = Some sh -> stride_of s this = Some (spec_strides sh) ->
  length sh = D -> product sh <= max_int ->
  in_bounds coo sh -> sh !! ax = Some n -> coo !! ax = Some c ->
  rollind D this (offset_of sh coo) (Z.of_nat ax) s
  = Done (offset_of sh (<[ax := (c + 1) mod n]> coo), s) /\
  rollind D this (offset_of sh coo) (Z.of_nat ax - Z.of_nat D) s
  = Done (offset_of sh (<[ax := (c - 1) mod n]> coo), s).
Proof.
  intros Hsh Hst Hl Hfit Hb Hn Hc.
  pose proof (lookup_lt_Some _ _ _ Hn) as Hax.
  destruct (constructed_axis_view D s this sh (Z.of_nat ax) Hsh Hst Hl
              (in_bounds_positive _ _ Hb) Hfit ltac:(lia))
    as (st & n' & m & Hview & Hn' & Hm).
  rewrite idx_nat, Hn in Hn'. injection Hn' as <-.
  assert (st = product (drop (S ax) sh)) as ->.
  { destruct (av_obj _ _ _ _ _ _ _ Hview)
      as (o & psh & pst & shl & stl & Ho & _ & Hpst & _ & Hstl & _ & Hs1 & _).
    apply stride_of_inv in Hst as (o' & p' & Ho' & Hp' & Hst).
    simplify_eq. apply idx_Some in Hs1 as [_ Hs1].
    replace (Z.to_nat (Z.of_nat ax + 1)) with (S ax) in Hs1 by lia.
    rewrite spec_strides_lookup in Hs1 by lia. congruence. }
  pose proof (offset_of_range _ _ Hb) as Hr. rewrite <- Hm in Hr.
  destruct (step_in_coordinates sh coo ax n c Hb Hn Hc) as [Hf Hbw].
  rewrite (rollind_forward D D_int s this _ _ _ _ _ Hview Hr), Hf.
  by rewrite (rollind_backward D D_int s this _ _ _ _ _ Hview Hr), Hbw.
Qed.

(** X6.  A periodic step changes one coordinate: on an array with the
    row-major strides of its shape [sh] and at most [2^31 - 1] elements,
    rolling the offset of the coordinates [coo] along the axis [ax] gives
    the offset of [coo] with [(coo[ax] + 1) mod sh[ax]] at [ax], and
    rolling along [ax - D] gives the offset of [coo] with
    [(coo[ax] - 1) mod sh[ax]] at [ax]. *)
Theorem rolling_moves_one_coordinate s this sh coo ax n c :
  shape_of s this = Some sh -> stride_of s this = Some (spec_strides sh) ->
  length sh = D -> product sh <= max_int ->
  in_bounds coo sh -> sh !! ax = Some n -> coo !! ax = Some c ->
  rollind D this (offset_of sh coo) (Z.of_nat ax) s
  = Done (offset_of sh (<[ax := (c + 1) mod n]> coo), s) /\
  rollind D this (offset_of sh coo) (Z.of_nat ax - Z.of_nat D) s
  = Done (offset_of sh (<[ax := (c - 1) mod n]> coo), s).
Proof. apply rollind_in_coordinates. Qed.

Lemma in_bounds_insert coo sh ax n c :
  in_bounds coo sh -> sh !! ax = Some n -> 0 <= c < n -> in_bounds (<[ax := c]> coo) sh.
Proof.
  intros Hb Hn Hc. rewrite <- (list_insert_id sh ax n Hn). by apply Forall2_insert.
Qed.

(** X7.  Periodic steps along different axes commute: on an array with
    the row-major strides of its shape and at most [2^31 - 1] elements,
    from the offset of coordinates inside the extents a forward step
    along [ax1] and then one along [ax2] ends where a step along [ax2]
    and then one along [ax1] ends: at the offset of the coordinates with
    both entries advanced by one modulo their extents. *)
Theorem rolling_along_two_axes_commutes s this sh coo ax1 ax2 n1 n2 c1 c2 :
  shape_of s this = Some sh -> stride_of s this = Some (spec_strides sh) ->
  length sh = D -> product sh <= max_int -> in_bounds coo sh ->
  sh !! ax1 = Some n1 -> coo !! ax1 = Some c1 ->
  sh !! ax2 = Some n2 -> coo !! ax2 = Some c2 -> ax1 <> ax2 ->
  bind (rollind D this (offset_of sh coo) (Z.of_nat ax1))
       (fun r1 => rollind D this r1 (Z.of_nat ax2)) s
  = Done (offset_of sh (<[ax2 := (c2 + 1) mod n2]> (<[ax1 := (c1 + 1) mod n1]> coo)), s) /\
  bind (rollind D this (offset_of sh coo) (Z.of_nat ax2))
       (fun r2 => rollind D this r2 (Z.of_nat ax1)) s
  = Done (offset_of sh (<[ax2 := (c2 + 1) mod n2]> (<[ax1 := (c1 + 1) mod n1]> coo)), s).
Proof.
  intros Hsh Hst Hl Hfit Hb Hn1 Hc1 Hn2 Hc2 Hne.
  pose proof (in_bounds_lookup _ _ _ _ _ Hb Hc1 Hn1) as H1.
  pose proof (in_bounds_lookup _ _ _ _ _ Hb Hc2 Hn2) as H2.
  assert (Hb1 : in_bounds (<[ax1 := (c1 + 1) mod n1]> coo) sh).
  { apply in_bounds_insert with n1; [done..|]. apply Z.mod_pos_bound. lia. }
  assert (Hb2 : in_bounds (<[ax2 := (c2 + 1) mod n2]> coo) sh).
  { apply in_bounds_insert with n2; [done..|]. apply Z.mod_pos_bound. lia. }
  split.
  - rewrite (bind_done _ _ _ _ _
      (proj1 (rollind_in_coordinates s this sh coo ax1 n1 c1 Hsh Hst Hl Hfit Hb Hn1 Hc1))).
    apply (rollind_in_coordinates s this sh _ ax2 n2 c2 Hsh Hst Hl Hfit Hb1 Hn2).
    by rewrite list_lookup_insert_ne.
  - rewrite (bind_done _ _ _ _ _
      (proj1 (rollind_in_coordinates s this sh coo ax2 n2 c2 Hsh Hst Hl Hfit Hb Hn2 Hc2))).
    rewrite list_insert_insert_ne by done.
    apply (rollind_in_coordinates s this sh _ ax1 n1 c1 Hsh Hst Hl Hfit Hb2 Hn1).
    by rewrite list_lookup_insert_ne by done.
Qed.

End RollingCoordinates.

(** ** More indices than axes *)

Section TooManyIndices.
Context {dtype : Type} (D : nat).
Implicit Types (s : @state dtype) (o : ndarray).

Lemma adder_overrun s p st rest : forall first j,
  ints s !! p = Some st -> 0 <= j ->
  (length st <= Z.to_nat j + length rest)%nat ->
  adder (Some p, j) first rest s = Fault OutOfBounds.
Proof.
  induction rest as [|a rest IH]; intros first j Hst Hj Hlen; cbn [adder fst snd].
  - unfold bind, ld_int. rewrite Hst. unfold idx. rewrite decide_True by done.
    rewrite lookup_ge_None_2; [done|]. simpl in Hlen. lia.
  - unfold bind at 1. unfold ld_int. rewrite Hst.
    destruct (idx st j) as [v|] eqn:Hv; [|done].
    unfold bind. rewrite (IH a (j + 1) Hst) by (simpl in Hlen; lia). done.
Qed.

(** X8.  Variadic indexing with more than [D] indices reads past the
    stride buffer: on an array that owns its buffers, [first] followed by
    [D] or more further indices makes [adder] subscript [_stride] at
    [D + 1]. *)
Theorem more_indices_than_axes_overrun_the_strides s this o first rest :
  objs s !! this = Some o -> full D s o -> (D <= length rest)%nat ->
  at_args this first rest s = Fault OutOfBounds.
Proof.
  intros Ho (psh & pst & ph & sh & st & d & -> & Hne & Hsh & Hst & Hd & Hlsh & Hlst & Hsz) Hk.
  unfold at_args.
  rewrite (bind_done _ _ _ _ _ (get_head_view _ _ _ Ho)).
  rewrite (bind_done _ _ _ _ _ (get_stride_view _ _ _ Ho)). cbn [_stride].
  unfold bind. rewrite (adder_overrun s pst st rest first 1 Hst); [done|lia|].
  rewrite Hlst. change (Z.to_nat 1) with 1%nat. lia.
Qed.

End TooManyIndices.

(** ** Loops that rewrite an element buffer from left to right *)

Section Elementwise.
Context {dtype : Type}.
Implicit Types (s : @state dtype) (o : ndarray).

Lemma with_elems_id s ph d : elems s !! ph = Some d -> with_elems s ph d = s.
Proof. destruct s. unfold with_elems. cbn. intros H. by rewrite insert_id. Qed.

Lemma with_elems_twice s ph (b b' : list dtype) :
  with_elems (with_elems s ph b) ph b' = with_elems s ph b'.
Proof. unfold with_elems. cbn. by rewrite insert_insert_eq. Qed.

Lemma upd_frontier (target d : list dtype) k v :
  length target = length d -> target !! k = Some v ->
  upd (take k target ++ drop k d) (Z.of_nat k) v = take (S k) target ++ drop (S k) d.
Proof.
  intros Hl Hv. pose proof (lookup_lt_Some _ _ _ Hv) as Hk.
  unfold upd. rewrite Nat2Z.id.
  rewrite insert_app_r_alt by (rewrite length_take; lia).
  rewrite length_take, Nat.min_l, Nat.sub_diag by lia.
  destruct (lookup_lt_is_Some_2 d k) as [x Hx]; [lia|].
  rewrite (drop_S _ _ _ Hx). cbn. rewrite (take_S_r _ _ _ Hv).
  by rewrite <- app_assoc.
Qed.

Lemma frontier_lookup (target d : list dtype) k :
  (k <= length target)%nat -> (take k target ++ drop k d) !! k = d !! k.
Proof.
  intros Hk. rewrite lookup_app_r by (rewrite length_take; lia).
  rewrite length_take, Nat.min_l, Nat.sub_diag, lookup_drop by lia. f_equal. lia.
Qed.

Lemma length_frontier (target d : list dtype) k :
  length target = length d -> length (take k target ++ drop k d) = length d.
Proof. intros Hl. rewrite length_app, length_take, length_drop. lia. Qed.

Lemma elementwise_loop s ph d target (body : nat -> M state unit) :
  elems s !! ph = Some d -> length target = length d ->
  (forall k v, target !! k = Some v ->
     body k (with_elems s ph (take k target ++ drop k d))
     = Done (tt, with_elems s ph (take (S k) target ++ drop (S k) d))) ->
  for_loop (length d) body s = Done (tt, with_elems s ph target).
Proof.
  intros Hd Hl Hbody. unfold for_loop.
  destruct (for_from_total
              (fun k s1 => s1 = with_elems s ph (take k target ++ drop k d))
              body (length d) 0%nat s) as (s' & Hrun & Hs').
  - cbn. by rewrite with_elems_id.
  - intros k s1 Hk ->.
    destruct (lookup_lt_is_Some_2 target k) as [v Hv]; [lia|]. eauto.
  - rewrite Hrun, Hs'. cbn. rewrite firstn_all2, drop_all, app_nil_r by lia. done.
Qed.

Lemma st_elem_with s ph (b : list dtype) k v :
  (k < length b)%nat ->
  st_elem (Some ph) (Z.of_nat k) v (with_elems s ph b)
  = Done (tt, with_elems s ph (upd b (Z.of_nat k) v)).
Proof.
  intros Hk. erewrite st_elem_view.
  - unfold with_elems. cbn. by rewrite insert_insert_eq.
  - cbn. apply lookup_insert_eq.
  - apply idx_is_Some. lia.
Qed.

Lemma ld_elem_with s ph (b : list dtype) k v :
  b !! k = Some v ->
  ld_elem (Some ph) (Z.of_nat k) (with_elems s ph b) = Done (v, with_elems s ph b).
Proof.
  intros Hv. eapply ld_elem_view; [cbn; apply lookup_insert_eq|by rewrite idx_nat].
Qed.

Lemma ld_elem_with_ne s ph p (b d : list dtype) k v :
  p <> ph -> elems s !! p = Some d -> d !! k = Some v ->
  ld_elem (Some p) (Z.of_nat k) (with_elems s ph b) = Done (v, with_elems s ph b).
Proof.
  intros Hne Hd Hv.
  eapply ld_elem_view; [cbn; by rewrite lookup_insert_ne by congruence|by rewrite idx_nat].
Qed.

Lemma get_head_with s ph (b : list dtype) a o :
  objs s !! a = Some o -> get_head a (with_elems s ph b) = Done (head o, with_elems s ph b).
Proof. intros Ho. by apply get_head_view. Qed.

End Elementwise.

Section FillAndCompound.
Context {dtype : Type}.
Variable dadd : dtype -> dtype -> dtype.
Variable dscale : Z -> dtype -> dtype.
Variable (D : nat).
Implicit Types (s : @state dtype) (o : ndarray).

Lemma size_full s this psh pst ph st :
  objs s !! this = Some (Ndarray psh (Some pst) ph) -> ints s !! pst = Some st ->
  forall n, st !! 0%nat = Some n -> size this s = Done (n, s).
Proof.
  intros Ho Hst n Hn. eapply ld_stride_view; [done|done|done|by apply idx_Some].
Qed.

(** Fill assignment on an array that owns an element buffer. *)
Lemma assign_fill_full s this psh pst ph st (d : list dtype) val :
  objs s !! this = Some (Ndarray psh (Some pst) (Some ph)) ->
  ints s !! pst = Some st -> st !! 0%nat = Some (Z.of_nat (length d)) ->
  elems s !! ph = Some d ->
  assign_fill this val s = Done (this, with_elems s ph (replicate (length d) val)).
Proof.
  intros Ho Hst Hsz Hd.
  unfold assign_fill. rewrite (bind_done _ _ _ _ _ (empty_view _ _ _ Ho)). cbn.
  rewrite (bind_done _ _ _ _ _ (size_full s this _ _ _ _ Ho Hst _ Hsz)).
  rewrite Nat2Z.id.
  erewrite bind_done; cycle 1.
  { apply (elementwise_loop s ph d (replicate (length d) val) _ Hd);
      [by rewrite length_replicate|].
    intros k v Hv. cbn beta.
    pose proof (lookup_lt_Some _ _ _ Hv) as Hk. rewrite length_replicate in Hk.
    apply lookup_replicate in Hv as [-> _].
    rewrite (bind_done _ _ _ _ _ (get_head_with s ph _ this _ Ho)). cbn [head].
    rewrite st_elem_with by (rewrite length_frontier by (by rewrite length_replicate); lia).
    rewrite upd_frontier; [done|by rewrite length_replicate|by apply lookup_replicate_2]. }
  done.
Qed.

(** X9.  Fill assignment: [a = val] returns [*this]; on an array that owns
    its buffers the element buffer becomes that many copies of [val] and
    nothing else in the store changes; on an empty array the store is
    left as it was. *)
Theorem fill_writes_every_element s this o val :
  objs s !! this = Some o -> two_state D s o ->
  assign_fill this val s = Done (this, refilled s o (fun d => replicate (length d) val)).
Proof.
  intros Ho [->|(psh & pst & ph & sh & st & d & -> & Hne & Hsh & Hst & Hd & Hlsh & Hlst & Hsz)].
  - unfold assign_fill. by rewrite (bind_done _ _ _ _ _ (empty_view _ _ _ Ho)).
  - unfold refilled. cbn [head]. rewrite Hd. by eapply assign_fill_full.
Qed.

(** The round of [pm<N>] at index [k]. *)
Lemma pm_round N s this rhs o ro ph rh (d d' : list dtype) k h v :
  objs s !! this = Some o -> head o = Some ph -> elems s !! ph = Some d ->
  objs s !! rhs = Some ro -> head ro = Some rh -> elems s !! rh = Some d' ->
  d !! k = Some h -> d' !! k = Some v ->
  let target := zip_with (fun h v => dadd h (dscale N v)) d d' in
  length target = length d ->
  bind (at_raw rhs (Z.of_nat k)) (fun r =>
    bind (rd r) (fun v =>
      bind (get_head this) (fun p =>
        bind (ld_elem p (Z.of_nat k)) (fun h =>
          st_elem p (Z.of_nat k) (dadd h (dscale N v))))))
    (with_elems s ph (take k target ++ drop k d))
  = Done (tt, with_elems s ph (take (S k) target ++ drop (S k) d)).
Proof.
  intros Ho Hph Hd Hro Hrh Hd' Hh Hv target Hl.
  pose proof (lookup_lt_Some _ _ _ Hh) as Hk.
  assert (Hcur : (take k target ++ drop k d) !! k = Some h).
  { rewrite frontier_lookup by lia. done. }
  unfold at_raw.
  rewrite bind_assoc, (bind_done _ _ _ _ _ (get_head_with s ph _ rhs _ Hro)), Hrh.
  unfold ret at 1. cbn beta. unfold bind at 1. unfold rd. cbn [fst snd].
  assert (Hrd : ld_elem (Some rh) (Z.of_nat k) (with_elems s ph (take k target ++ drop k d))
                = Done (v, with_elems s ph (take k target ++ drop k d))).
  { destruct (decide (rh = ph)) as [->|Hne].
    - rewrite Hd in Hd'. injection Hd' as <-. apply ld_elem_with. congruence.
    - by eapply ld_elem_with_ne. }
  rewrite (bind_done _ _ _ _ _ Hrd).
  rewrite (bind_done _ _ _ _ _ (get_head_with s ph _ this _ Ho)), Hph.
  rewrite (bind_done _ _ _ _ _ (ld_elem_with s ph _ k h Hcur)).
  rewrite st_elem_with by (rewrite length_frontier by done; lia).
  rewrite upd_frontier; [done|done|].
  unfold target. rewrite lookup_zip_with, Hh, Hv. done.
Qed.

Lemma pm_spec N s this rhs o ro psh pst ph st rh (d d' : list dtype) :
  objs s !! this = Some o -> o = Ndarray psh (Some pst) (Some ph) ->
  ints s !! pst = Some st -> st !! 0%nat = Some (Z.of_nat (length d)) ->
  elems s !! ph = Some d ->
  objs s !! rhs = Some ro -> head ro = Some rh -> elems s !! rh = Some d' ->
  (length d <= length d')%nat ->
  pm dadd dscale N this rhs s
  = Done (this, with_elems s ph (zip_with (fun h v => dadd h (dscale N v)) d d')).
Proof.
  intros Ho -> Hst Hsz Hd Hro Hrh Hd' Hle. unfold pm.
  rewrite (bind_done _ _ _ _ _ (size_full s this _ _ _ _ Ho Hst _ Hsz)).
  rewrite Nat2Z.id.
  assert (Hl : length (zip_with (fun h v => dadd h (dscale N v)) d d') = length d).
  { rewrite length_zip_with. lia. }
  erewrite bind_done; cycle 1.
  { apply (elementwise_loop s ph d _ _ Hd Hl). intros k v Hv. cbn beta.
    apply lookup_zip_with_Some in Hv as (h & w & -> & Hh & Hw).
    by eapply (pm_round N s this rhs _ ro ph rh d d' k h w Ho). }
  done.
Qed.

(** X10.  Compound assignment is elementwise: for [a] owning the elements
    [d] and [rhs] (which may be [a] itself) owning at least as many
    elements [d'], [a += rhs] leaves [d[k] + 1 * d'[k]] at every place [k]
    of [a] and [a -= rhs], taken as the call of [pm<-1>] it makes,
    [d[k] + (-1) * d'[k]]; both return [*this] and change nothing
    else. *)
Theorem compound_assignment_is_elementwise s this rhs o d d' :
  objs s !! this = Some o -> full D s o ->
  data_of s this = Some d -> data_of s rhs = Some d' -> (length d <= length d')%nat ->
  plus_assign dadd dscale this rhs s
  = Done (this, refilled s o (fun d => zip_with (fun h v => dadd h (dscale 1 v)) d d')) /\
  minus_assign dadd dscale this rhs s
  = Done (this, refilled s o (fun d => zip_with (fun h v => dadd h (dscale (-1) v)) d d')).
Proof.
  intros Ho (psh & pst & ph & sh & st & d0 & -> & Hne & Hsh & Hst & Hd0 & Hlsh & Hlst & Hsz)
    Hd Hd' Hle.
  unfold data_of in Hd, Hd'. rewrite Ho in Hd. cbn in Hd. rewrite Hd0 in Hd.
  injection Hd as ->.
  destruct (objs s !! rhs) as [ro|] eqn:Hro; [|done]. cbn in Hd'.
  destruct (head ro) as [rh|] eqn:Hrh; [|done]. cbn in Hd'.
  unfold refilled. cbn [head]. rewrite Hd0.
  unfold plus_assign, minus_assign.
  split; by eapply pm_spec.
Qed.

End FillAndCompound.

(** ** An array in fresh buffers, as a temporary *)

Section Temporaries.
Context {dtype : Type}.
Variable (D : nat).
Implicit Types (s : @state dtype) (o : ndarray).

Lemma fresh_obj_None s : objs s !! fresh (dom (objs s)) = None.
Proof. apply not_elem_of_dom, is_fresh. Qed.

Lemma fresh_elems_None s : elems s !! fresh (dom (elems s)) = None.
Proof. apply not_elem_of_dom, is_fresh. Qed.

Lemma fresh_ints_None s : ints s !! fresh (dom (ints s)) = None.
Proof. apply not_elem_of_dom, is_fresh. Qed.

Lemma fresh_ints_None2 s : ints s !! fresh ({[fresh (dom (ints s))]} ∪ dom (ints s)) = None.
Proof.
  apply not_elem_of_dom. intros Hin.
  apply (is_fresh ({[fresh (dom (ints s))]} ∪ dom (ints s))). by apply elem_of_union_r.
Qed.

Lemma fresh_array_obj s sh st (b : list dtype) :
  objs (fresh_array s sh st b).2 !! (fresh_array s sh st b).1
  = Some (Ndarray (Some (fresh (dom (ints s))))
                  (Some (fresh ({[fresh (dom (ints s))]} ∪ dom (ints s))))
                  (Some (fresh (dom (elems s))))).
Proof. cbn. apply lookup_insert_eq. Qed.

Lemma fresh_array_elems s sh st (b : list dtype) :
  elems (fresh_array s sh st b).2 !! fresh (dom (elems s)) = Some b.
Proof. cbn. apply lookup_insert_eq. Qed.

Lemma live_obj s sh st (b : list dtype) a o :
  objs s !! a = Some o -> objs (fresh_array s sh st b).2 !! a = Some o.
Proof.
  intros Ho. cbn. rewrite lookup_insert_ne; [done|].
  intros E. by rewrite <- E, fresh_obj_None in Ho.
Qed.

Lemma live_elems s sh st (b : list dtype) p d :
  elems s !! p = Some d -> elems (fresh_array s sh st b).2 !! p = Some d.
Proof.
  intros Hd. cbn. rewrite lookup_insert_ne; [done|].
  intros E. by rewrite <- E, fresh_elems_None in Hd.
Qed.

Lemma live_ints s sh st (b : list dtype) p l :
  ints s !! p = Some l -> ints (fresh_array s sh st b).2 !! p = Some l.
Proof.
  intros Hl. cbn. rewrite !lookup_insert_ne; [done|..].
  - intros E. by rewrite <- E, fresh_ints_None in Hl.
  - intros E. by rewrite <- E, fresh_ints_None2 in Hl.
Qed.

Lemma with_elems_fresh_array s sh st (d b : list dtype) :
  with_elems (fresh_array s sh st d).2 (fresh (dom (elems s))) b = (fresh_array s sh st b).2.
Proof. unfold with_elems. cbn. by rewrite insert_insert_eq. Qed.

Lemma full_fresh_array s sh st (b : list dtype) :
  length sh = D -> length st = S D -> st !! 0%nat = Some (Z.of_nat (length b)) ->
  full D (fresh_array s sh st b).2
    (Ndarray (Some (fresh (dom (ints s))))
             (Some (fresh ({[fresh (dom (ints s))]} ∪ dom (ints s))))
             (Some (fresh (dom (elems s))))).
Proof.
  intros Hsh Hst Hsz. eexists _, _, _, sh, st, b. split; [done|].
  split; [exact (fresh_buffers_differ s)|]. cbn.
  rewrite lookup_insert_eq, lookup_insert_ne, !lookup_insert_eq
    by (symmetry; exact (fresh_buffers_differ s)).
  done.
Qed.

(** The destructor undoes [fresh_array]. *)
Lemma dtor_fresh_array s sh st (b : list dtype) :
  length sh = D -> length st = S D -> st !! 0%nat = Some (Z.of_nat (length b)) ->
  dtor (fresh_array s sh st b).1 (fresh_array s sh st b).2 = Done (tt, s).
Proof.
  intros Hsh Hst Hsz.
  rewrite (dtor_spec D _ _ _ (fresh_array_obj s sh st b)
             (or_intror (full_fresh_array s sh st b Hsh Hst Hsz))).
  do 2 f_equal. destruct s as [O I E]. unfold destroyed. cbn -[fresh].
  pose proof (fresh_buffers_differ (State O I E)) as Hne. cbn -[fresh] in Hne.
  pose proof (fresh_obj_None (State O I E)) as HO.
  pose proof (fresh_ints_None (State O I E)) as HI.
  pose proof (fresh_ints_None2 (State O I E)) as HI2.
  pose proof (fresh_elems_None (State O I E)) as HE. cbn -[fresh] in HO, HI, HI2, HE.
  f_equal.
  - by apply delete_insert_id.
  - rewrite delete_insert_ne by done. rewrite (delete_insert_id _ _ _ HI).
    by apply delete_insert_id.
  - by apply delete_insert_id.
Qed.

End Temporaries.

Section Lifetimes.
Context {dtype : Type}.
Variable (D : nat).
Variable indet_int : loc -> nat -> Z.
Variable indet : loc -> nat -> dtype.
Hypothesis D_int : Z.of_nat D <= Int32.max_int.
Implicit Types (s : @state dtype) (o : ndarray).

(** X11.  Construction and destruction cancel: when a shape constructor
    returns an array, the destructor run on it returns and the store is
    the one the constructor started from. *)
Theorem a_constructed_array_is_destroyed_without_trace c s this s' :
  readable D c -> construct D indet_int indet c s = Done (this, s') ->
  dtor this s' = Done (tt, s).
Proof.
  intros Hr Hrun.
  destruct (decide (list_length_mismatch D c)) as [Hmis|Hok].
  { by rewrite construct_mismatch in Hrun. }
  rewrite construct_match in Hrun by done. unfold shape_ctor_result in Hrun.
  repeat case_decide; try done. injection Hrun as <- <-.
  apply (dtor_fresh_array D).
  - by apply length_extents.
  - by rewrite length_wrap_strides, length_extents.
  - rewrite length_map, length_seq, Z2Nat.id by lia.
    by destruct (extents D c).
Qed.

(** X12.  A copy is a temporary without trace: the copy constructor, on an
    empty array or on one that owns its buffers, returns an object at an
    address not in use before, and the destructor run on it gives back
    the store the copy started from. *)
Theorem a_copy_is_destroyed_without_trace s x xo :
  objs s !! x = Some xo -> two_state D s xo ->
  exists c s', ctor_copy D indet_int indet x s = Done (c, s') /\
               objs s !! c = None /\ dtor c s' = Done (tt, s).
Proof.
  intros Hx [->|(xsh & xst & xh & sh & st & d & -> & Hne & Hsh & Hst & Hd & Hlsh & Hlst & Hsz)].
  - eexists _, _. split; [by eapply ctor_copy_empty|]. split; [apply fresh_obj_None|].
    erewrite (dtor_spec D); [|cbn; apply lookup_insert_eq|by left].
    do 2 f_equal. destruct s as [O I E]. unfold destroyed. cbn -[fresh]. f_equal.
    apply delete_insert_id. exact (fresh_obj_None (State O I E)).
  - eexists _, _. split; [by eapply ctor_copy_full|]. split; [apply fresh_obj_None|].
    by apply (dtor_fresh_array D).
Qed.

End Lifetimes.

(** ** Assignment at its edges *)

Section AssignmentEdges.
Context {dtype : Type}.
Variable (D : nat).
Variable indet_int : loc -> nat -> Z.
Variable indet : loc -> nat -> dtype.
Implicit Types (s : @state dtype) (o : ndarray).

(** X15.  Self move assignment: [a = std::move(a)] on a live array returns
    [*this] and leaves the store as it was. *)
Theorem self_move_assignment_changes_nothing s x o :
  objs s !! x = Some o -> assign_move x x s = Done (x, s).
Proof.
  intros Ho. rewrite (assign_move_spec s x x o o Ho Ho). do 2 f_equal.
  destruct s as [O I E]. cbn in *. f_equal.
  by rewrite insert_insert_eq, insert_id.
Qed.

(** X17.  The three shape constructors agree: the uniform-width
    constructor and, on an array that holds [D] extents, the shape-array
    constructor have the outcome of the shape-list constructor on the
    extents they ask for. *)
Theorem every_shape_constructor_is_the_list_constructor c s :
  readable D c ->
  construct D indet_int indet c s = ctor_list D indet_int indet (extents D c) s.
Proof.
  intros Hr. destruct c as [width|sh|l]; cbn [construct extents]; [| |done].
  - rewrite ctor_width_spec, ctor_list_spec.
    by rewrite decide_False by (rewrite length_replicate; auto).
  - cbn in Hr. rewrite ctor_array_spec, ctor_list_spec by done.
    by rewrite decide_False by (rewrite length_take; lia).
Qed.

End AssignmentEdges.

(** ** Empty arrays *)

Section EmptyArrays.
Context {dtype : Type}.
Variable (D : nat).
Implicit Types (s : @state dtype) (o : ndarray).

(** X18.  An empty array answers [empty()] and nothing else: [size()],
    [shape(i)], [stride(i)], a read of [a[i]], coordinate indexing,
    [rollind] and [transpose] all go through a null pointer. *)
Theorem only_empty_may_be_asked_of_an_empty_array s this :
  objs s !! this = Some null_array ->
  empty this s = Done (true, s) /\
  size this s = Fault NullDeref /\
  (forall i, shape this i s = Fault NullDeref) /\
  (forall i, stride this i s = Fault NullDeref) /\
  (forall i, bind (at_raw this i) rd s = Fault NullDeref) /\
  (forall coo, D <> 0%nat -> length coo = D -> at_coo D this coo s = Fault NullDeref) /\
  (forall i ax, rollind D this i ax s = Fault NullDeref) /\
  (forall i j, transpose this i j s = Fault NullDeref).
Proof.
  intros Ho.
  assert (Hst : forall i, ld_stride this i s = Fault NullDeref).
  { intros i. unfold ld_stride. by rewrite (bind_done _ _ _ _ _ (get_stride_view _ _ _ Ho)). }
  assert (Hsh : forall i, ld_shape this i s = Fault NullDeref).
  { intros i. unfold ld_shape. by rewrite (bind_done _ _ _ _ _ (get_shape_view _ _ _ Ho)). }
  split; [by rewrite (empty_view _ _ _ Ho)|].
  split; [apply Hst|]. split; [apply Hsh|]. split; [intros i; apply Hst|].
  split; [|split; [|split]].
  - intros i. unfold at_raw.
    by rewrite bind_assoc, (bind_done _ _ _ _ _ (get_head_view _ _ _ Ho)).
  - intros coo HD Hc. unfold at_coo. destruct D as [|n]; [done|]. cbn [fold_from].
    destruct (idx coo (Z.of_nat 0)) as [c|] eqn:E.
    + unfold bind at 1. unfold bind at 1. unfold bind at 1. by rewrite Hst.
    + rewrite idx_nat in E. apply lookup_ge_None in E. lia.
  - intros i ax. unfold rollind, rollindex. case_decide; unfold bind; by rewrite Hst.
  - intros i j. unfold transpose.
    by rewrite bind_assoc, (bind_done _ _ _ _ _ (get_stride_view _ _ _ Ho)).
Qed.

End EmptyArrays.

(** ** No buffer without an owner *)

Section Garbage.
Context {dtype : Type}.
Variable dadd : dtype -> dtype -> dtype.
Variable dscale : Z -> dtype -> dtype.
Variable (D : nat).
Variable indet_int : loc -> nat -> Z.
Variable indet : loc -> nat -> dtype.
Hypothesis D_int : Z.of_nat D <= Int32.max_int.
Implicit Types (s : @state dtype) (o : ndarray).

Lemma no_garbage_initial : no_garbage (State (dtype:=dtype) ∅ ∅ ∅).
Proof. split; intros l [b Hb]; cbn in Hb; by rewrite lookup_empty in Hb. Qed.

Lemma owner_not_null o l :
  Some l ∈ [_shape o; _stride o] \/ head o = Some l -> o <> null_array.
Proof. intros [[H|H]%elem_of_pair|H] ->; done. Qed.

Lemma no_garbage_rearrange s s' :
  ints s' = ints s -> elems s' = elems s ->
  (forall a o, objs s !! a = Some o -> o = null_array \/ exists a', objs s' !! a' = Some o) ->
  no_garbage s -> no_garbage s'.
Proof.
  intros Hi He Hobj [Hgi Hge]. split; intros l Hl.
  - rewrite Hi in Hl. destruct (Hgi l Hl) as (a & o & Ho & Hin).
    destruct (Hobj a o Ho) as [->|[a' Ha']]; [|by eauto].
    by destruct (owner_not_null null_array l (or_introl Hin)).
  - rewrite He in Hl. destruct (Hge l Hl) as (a & o & Ho & Hin).
    destruct (Hobj a o Ho) as [->|[a' Ha']]; [|by eauto].
    by destruct (owner_not_null null_array l (or_intror Hin)).
Qed.

Lemma no_garbage_new_null s :
  no_garbage s ->
  no_garbage (State (<[fresh (dom (objs s)) := null_array]> (objs s)) (ints s) (elems s)).
Proof.
  apply no_garbage_rearrange; [done..|]. intros a o Ho. right. exists a. cbn.
  rewrite lookup_insert_ne; [done|]. intros E. by rewrite <- E, fresh_obj_None in Ho.
Qed.

Lemma no_garbage_moved s x xo :
  objs s !! x = Some xo -> no_garbage s ->
  no_garbage (State (<[x := null_array]> (<[fresh (dom (objs s)) := xo]> (objs s)))
                    (ints s) (elems s)).
Proof.
  intros Hx. apply no_garbage_rearrange; [done..|]. intros a o Ho. right. cbn.
  pose proof (fresh_obj_ne s x _ Hx) as Hxf.
  destruct (decide (a = x)) as [->|Hne].
  - exists (fresh (dom (objs s))). rewrite lookup_insert_ne, lookup_insert_eq by done.
    congruence.
  - exists a. rewrite !lookup_insert_ne; [done|..|done].
    intros E. by rewrite <- E, fresh_obj_None in Ho.
Qed.

Lemma no_garbage_traded s this x a b :
  objs s !! this = Some a -> objs s !! x = Some b -> no_garbage s ->
  no_garbage (State (<[x := a]> (<[this := b]> (objs s))) (ints s) (elems s)).
Proof.
  intros Ha Hb. apply no_garbage_rearrange; [done..|]. intros c o Ho. right. cbn.
  destruct (decide (c = this)) as [->|Hct].
  - exists x. rewrite lookup_insert_eq. congruence.
  - destruct (decide (c = x)) as [->|Hcx].
    + exists this. rewrite lookup_insert_ne, lookup_insert_eq by done. congruence.
    + exists c. by rewrite !lookup_insert_ne.
Qed.

Lemma no_garbage_fresh_array s sh st (d : list dtype) :
  no_garbage s -> no_garbage (fresh_array s sh st d).2.
Proof.
  intros [Hgi Hge].
  pose proof (fresh_array_obj s sh st d) as Hnew.
  split; intros l Hl.
  - cbn -[fresh] in Hl.
    destruct (decide (l = fresh ({[fresh (dom (ints s))]} ∪ dom (ints s)))) as [->|H1].
    { eexists _, _. split; [exact Hnew|]. cbn -[fresh]. set_solver. }
    rewrite lookup_insert_ne in Hl by done.
    destruct (decide (l = fresh (dom (ints s)))) as [->|H2].
    { eexists _, _. split; [exact Hnew|]. cbn -[fresh]. set_solver. }
    rewrite lookup_insert_ne in Hl by done.
    destruct (Hgi l Hl) as (a & o & Ho & Hin).
    exists a, o. split; [by apply live_obj|done].
  - cbn -[fresh] in Hl.
    destruct (decide (l = fresh (dom (elems s)))) as [->|H1].
    { eexists _, _. split; [exact Hnew|]. done. }
    rewrite lookup_insert_ne in Hl by done.
    destruct (Hge l Hl) as (a & o & Ho & Hin).
    exists a, o. split; [by apply live_obj|done].
Qed.

Lemma drop_block_is_Some {A} (p : option loc) (m : gmap loc A) l :
  is_Some (drop_block p m !! l) -> p <> Some l /\ is_Some (m !! l).
Proof.
  destruct p as [q|]; cbn; [|done]. intros Hl.
  destruct (decide (q = l)) as [->|Hne].
  - rewrite lookup_delete_eq in Hl. by destruct Hl.
  - rewrite lookup_delete_ne in Hl by done. split; [congruence|done].
Qed.

Lemma no_garbage_destroyed s a o :
  objs s !! a = Some o -> no_garbage s -> no_garbage (destroyed s a o).
Proof.
  intros Ho [Hgi Hge]. split; intros l Hl; cbn in Hl.
  - apply drop_block_is_Some in Hl as [Hst [Hsh Hl]%drop_block_is_Some].
    destruct (Hgi l Hl) as (a' & o' & Ho' & Hin).
    exists a', o'. split; [|done]. cbn. rewrite lookup_delete_ne; [done|].
    intros ->. rewrite Ho in Ho'. injection Ho' as <-.
    apply elem_of_pair in Hin as [?|?]; congruence.
  - apply drop_block_is_Some in Hl as [Hh Hl].
    destruct (Hge l Hl) as (a' & o' & Ho' & Hin).
    exists a', o'. split; [|done]. cbn. rewrite lookup_delete_ne; [done|].
    intros ->. rewrite Ho in Ho'. injection Ho' as <-. congruence.
Qed.

Lemma no_garbage_same_layout s s' : same_layout s s' -> no_garbage s -> no_garbage s'.
Proof.
  intros (Hobj & Hi & He) [Hgi Hge]. split; intros l Hl; rewrite Hobj.
  - apply Hgi. specialize (Hi l). destruct Hl as [b Hb]. rewrite Hb in Hi.
    destruct (ints s !! l); [by eexists|done].
  - apply Hge. specialize (He l). destruct Hl as [b Hb]. rewrite Hb in He.
    destruct (elems s !! l); [by eexists|done].
Qed.

Lemma no_garbage_ctor_copy s x xo c s1 :
  objs s !! x = Some xo -> two_state D s xo -> no_garbage s ->
  ctor_copy D indet_int indet x s = Done (c, s1) -> no_garbage s1.
Proof.
  intros Hx Htwo Hg Hrun.
  destruct (ctor_copy_spec D indet_int indet D_int s x xo Hx Htwo)
    as (c' & s1' & C & Hrun' & -> & Hobjs & Hcase).
  rewrite Hrun in Hrun'. injection Hrun' as -> ->.
  destruct Hcase as [(-> & -> & Hi & He)|(xsh & xst & xh & sh & st & d & -> & _ & _ & _
                                           & Hlsh & Hlst & Hsz & Heq)].
  - destruct s1' as [O I E]. simpl in *. subst. by apply no_garbage_new_null.
  - replace s1' with (fresh_array s sh st d).2 by (by rewrite <- Heq).
    by apply no_garbage_fresh_array.
Qed.

(** X19.  Nothing leaks: if every allocated buffer is held by a live object
    and the invariant of C9 holds, then after every call of the
    interface that returns every allocated buffer is held by a live
    object. *)
Theorem no_call_leaves_a_buffer_without_owner s c s' :
  inv D s -> no_garbage s -> well_formed_call D s c ->
  exec dadd dscale D indet_int indet c s = Done (tt, s') -> no_garbage s'.
Proof.
  intros Hinv Hg Hwf Hrun.
  destruct c as [|sc|x|x|this x|this x|this op|this]; cbn [exec] in Hrun.
  - (* default constructor *)
    injection Hrun as <-. by apply no_garbage_new_null.
  - (* shape constructors *)
    apply bind_inv in Hrun as (a & s1 & Hc & [= <-]).
    cbn [well_formed_call] in Hwf.
    destruct (decide (list_length_mismatch D sc)) as [Hmis|Hok].
    { by rewrite construct_mismatch in Hc. }
    rewrite construct_match in Hc by done. unfold shape_ctor_result in Hc.
    repeat case_decide; try done. injection Hc as _ <-.
    by apply no_garbage_fresh_array.
  - (* copy constructor *)
    apply bind_inv in Hrun as (a & s1 & Hc & [= <-]).
    destruct Hwf as [xo Hx].
    exact (no_garbage_ctor_copy s x xo a s1 Hx (proj1 Hinv x xo Hx) Hg Hc).
  - (* move constructor *)
    apply bind_inv in Hrun as (a & s1 & Hc & [= <-]).
    destruct Hwf as [xo Hx]. rewrite (ctor_move_spec s x xo Hx) in Hc.
    injection Hc as _ <-. by apply no_garbage_moved.
  - (* copy assignment *)
    apply bind_inv in Hrun as (a & s1 & Hc & [= <-]).
    destruct Hwf as [[o Ho] [xo Hx]].
    destruct (decide (this = x)) as [->|Hne].
    { unfold assign_copy in Hc. rewrite decide_False in Hc by (by intros []).
      by injection Hc as _ <-. }
    destruct (ctor_copy_spec D indet_int indet D_int s x xo Hx (proj1 Hinv x xo Hx))
      as (c & s2 & C & Hcopy & -> & Hobjs & _).
    pose proof (inv_ctor_copy D indet_int indet D_int s x xo _ s2 Hx Hinv Hcopy) as Hinv2.
    pose proof (no_garbage_ctor_copy s x xo _ s2 Hx (proj1 Hinv x xo Hx) Hg Hcopy) as Hg2.
    set (c := fresh (dom (objs s))) in *.
    assert (Htc : this <> c) by exact (fresh_obj_ne s this _ Ho).
    assert (Ho2 : objs s2 !! this = Some o) by (by rewrite Hobjs, lookup_insert_ne).
    assert (HC2 : objs s2 !! c = Some C) by (by rewrite Hobjs, lookup_insert_eq).
    rewrite (assign_copy_spec D indet_int indet s this x o c s2 C Hne Hcopy Ho2 HC2 Htc
               (proj1 Hinv2 this o Ho2)) in Hc.
    injection Hc as _ <-.
    apply no_garbage_destroyed; [cbn [objs]; apply lookup_insert_eq|].
    by apply no_garbage_traded.
  - (* move assignment *)
    apply bind_inv in Hrun as (a & s1 & Hc & [= <-]).
    destruct Hwf as [[o Ho] [xo Hx]].
    rewrite (assign_move_spec s this x o xo Ho Hx) in Hc.
    injection Hc as _ <-. by apply no_garbage_traded.
  - (* element assignment, fill, +=, -=, transpose *)
    eapply no_garbage_same_layout; [|done].
    by eapply (keeps_apply_inplace dadd dscale D D_int).
  - (* destructor *)
    destruct (objs s !! this) as [o|] eqn:Ho.
    + rewrite (dtor_spec D s this o Ho (proj1 Hinv this o Ho)) in Hrun.
      injection Hrun as <-. by apply no_garbage_destroyed.
    + unfold dtor in Hrun. rewrite bind_assoc in Hrun.
      unfold bind at 1 in Hrun. by rewrite no_object_no_field in Hrun.
Qed.

End Garbage.

(** ** Iterators *)

Section IteratorFacts.
Context {dtype : Type}.
Variable (D : nat).
Implicit Types (s : @state dtype) (o : ndarray).

(** X20.  The iterator range: [begin()] and [cbegin()] return [head];
    [end()] and [cend()] return [head] plus the number of elements on an
    array that owns its buffers, and read [size()] through a null pointer
    on an empty array. *)
Theorem iterators_span_the_element_buffer s this o :
  objs s !! this = Some o -> two_state D s o ->
  begin this s = Done ((head o, 0), s) /\
  cbegin this s = Done ((head o, 0), s) /\
  (o = null_array -> end_ this s = Fault NullDeref /\ cend this s = Fault NullDeref) /\
  (forall d, data_of s this = Some d ->
     end_ this s = Done ((head o, Z.of_nat (length d)), s) /\
     cend this s = Done ((head o, Z.of_nat (length d)), s)).
Proof.
  intros Ho Htwo.
  assert (Hb : begin this s = Done ((head o, 0), s)).
  { unfold begin. by rewrite (bind_done _ _ _ _ _ (get_head_view _ _ _ Ho)). }
  split; [done|]. split; [done|]. split.
  - intros ->.
    assert (He : end_ this s = Fault NullDeref); [|by rewrite He].
    unfold end_. rewrite (bind_done _ _ _ _ _ (get_head_view _ _ _ Ho)).
    unfold size, ld_stride.
    by rewrite bind_assoc, (bind_done _ _ _ _ _ (get_stride_view _ _ _ Ho)).
  - intros d Hd. unfold data_of in Hd. rewrite Ho in Hd. cbn in Hd.
    destruct Htwo as [->|(psh & pst & ph & sh & st & d0 & -> & Hne & Hsh & Hst & Hd0 & Hlsh
                          & Hlst & Hsz)]; [done|].
    cbn in Hd. rewrite Hd0 in Hd. injection Hd as <-.
    assert (He : end_ this s = Done ((Some ph, Z.of_nat (length d0)), s)); [|by rewrite He].
    unfold end_. rewrite (bind_done _ _ _ _ _ (get_head_view _ _ _ Ho)).
    by rewrite (bind_done _ _ _ _ _ (size_full s this _ _ _ _ Ho Hst _ Hsz)).
Qed.

End IteratorFacts.

(** ** Matrices in the store *)

Section MatrixStore.
Context {dtype : Type}.
Variable dadd : dtype -> dtype -> dtype.
Variable dmul : dtype -> dtype -> dtype.
Variable of_int : Z -> dtype.
Implicit Types (s : @state dtype).
Import Int32 Int32Facts.

Lemma spec_strides_2 r c : spec_strides [r; c] = [r * c; c; 1].
Proof. unfold spec_strides. cbn. f_equal; [lia|f_equal; lia]. Qed.

Lemma entry_bound (r c i j : nat) : (i < r)%nat -> (j < c)%nat -> (i * c + j < r * c)%nat.
Proof. nia. Qed.

Lemma cell_lookup (d : list dtype) n : (n < length d)%nat -> d !! n = Some (cell of_int d n).
Proof.
  intros Hn. unfold cell. destruct (lookup_lt_is_Some_2 d n Hn) as [v ->]. done.
Qed.

Lemma holds_matrix_shape s a r c d :
  holds_matrix s a r c d ->
  shape a 0 s = Done (Z.of_nat r, s) /\ shape a 1 s = Done (Z.of_nat c, s).
Proof.
  intros (psh & pst & ph & Ho & Hne & Hsh & _).
  split; eapply ld_shape_view; eauto; done.
Qed.

Lemma matrix_ref s a psh pst ph (r c i j : nat) :
  objs s !! a = Some (Ndarray psh (Some pst) ph) ->
  ints s !! pst = Some (spec_strides [Z.of_nat r; Z.of_nat c]) ->
  (i < r)%nat -> (j < c)%nat -> Z.of_nat (r * c) <= max_int ->
  at_args a (Z.of_nat i) [Z.of_nat j] s = Done ((ph, Z.of_nat (i * c + j)), s).
Proof.
  intros Ho Hst Hi Hj Hfit. unfold at_args.
  rewrite (bind_done _ _ _ _ _ (get_head_view _ _ _ Ho)).
  rewrite (bind_done _ _ _ _ _ (get_stride_view _ _ _ Ho)). cbn [head _stride].
  assert (Hlen : (Z.to_nat 1 + length [Z.of_nat j]
                  < length (spec_strides [Z.of_nat r; Z.of_nat c]))%nat).
  { rewrite length_spec_strides. simpl. lia. }
  rewrite (bind_done _ _ _ _ _
    (adder_view s pst (spec_strides [Z.of_nat r; Z.of_nat c]) [Z.of_nat j] (Z.of_nat i) 1
       Hst ltac:(lia) Hlen)).
  rewrite spec_strides_2. change (Z.to_nat 1) with 1%nat. cbn [drop dot].
  unfold ret. do 3 f_equal.
  pose proof (entry_bound r c i j Hi Hj).
  rewrite wrap_small; [lia|]. unfold in_range, half, max_int in *. lia.
Qed.

Lemma holds_matrix_read s a r c d i j :
  holds_matrix s a r c d -> (i < r)%nat -> (j < c)%nat ->
  bind (at_args a (Z.of_nat i) [Z.of_nat j]) rd s = Done (cell of_int d (i * c + j), s).
Proof.
  intros (psh & pst & ph & Ho & Hne & Hsh & Hst & Hd & Hl & Hr & Hc & Hfit) Hi Hj.
  rewrite (bind_done _ _ _ _ _ (matrix_ref s a _ _ _ r c i j Ho Hst Hi Hj Hfit)).
  unfold rd. cbn [fst snd]. eapply ld_elem_view; [done|].
  rewrite idx_nat. apply cell_lookup. rewrite Hl. by apply entry_bound.
Qed.

Lemma holds_matrix_live s sh st (b : list dtype) a r c d :
  holds_matrix s a r c d -> holds_matrix (fresh_array s sh st b).2 a r c d.
Proof.
  intros (psh & pst & ph & Ho & Hne & Hsh & Hst & Hd & Hrest).
  exists psh, pst, ph. split; [by apply live_obj|]. split; [done|].
  split; [by apply live_ints|]. split; [by apply live_ints|].
  split; [by apply live_elems|done].
Qed.

Lemma holds_matrix_fresh s (m p : nat) (b : list dtype) :
  length b = (m * p)%nat -> (0 < m)%nat -> (0 < p)%nat -> Z.of_nat (m * p) <= max_int ->
  holds_matrix
    (fresh_array s [Z.of_nat m; Z.of_nat p] (spec_strides [Z.of_nat m; Z.of_nat p]) b).2
    (fresh (dom (objs s))) m p b.
Proof.
  intros Hl Hm Hp Hfit. eexists _, _, _. split; [apply fresh_array_obj|].
  split; [exact (fresh_buffers_differ s)|]. cbn -[fresh spec_strides].
  rewrite lookup_insert_ne by (symmetry; exact (fresh_buffers_differ s)).
  by rewrite !lookup_insert_eq.
Qed.

Lemma mat_product_lookup (da db : list dtype) (m ka p i j : nat) :
  (i < m)%nat -> (j < p)%nat ->
  mat_product dadd dmul of_int da db m ka p !! (i * p + j)%nat
  = Some (row_times_column dadd dmul of_int da db ka p i j).
Proof.
  intros Hi Hj. unfold mat_product.
  rewrite list_lookup_fmap, lookup_seq_lt by (by apply entry_bound). cbn.
  rewrite <- (Nat.div_unique (i * p + j) p i j) by lia.
  rewrite <- (Nat.mod_unique (i * p + j) p i j) by lia. done.
Qed.

Lemma length_mat_product (da db : list dtype) (m ka p : nat) :
  length (mat_product dadd dmul of_int da db m ka p) = (m * p)%nat.
Proof. unfold mat_product. by rewrite length_map, length_seq. Qed.

Section Product.
Variables (s : @state dtype) (this rhs : addr) (m ka p : nat) (da db : list dtype).
Hypothesis Hthis : holds_matrix s this m ka da.
Hypothesis Hrhs : holds_matrix s rhs ka p db.
Hypothesis (Hm : (0 < m)%nat) (Hp : (0 < p)%nat).
Hypothesis Hfit : Z.of_nat (m * p) <= max_int.

Local Abbreviation c := (fresh (dom (objs s))).
Local Abbreviation zeros := (replicate (m * p) (of_int 0)).
Local Abbreviation target := (mat_product dadd dmul of_int da db m ka p).

Lemma during_obj b :
  objs (during s m p b) !! c
  = Some (Ndarray (Some (fresh (dom (ints s))))
                  (Some (fresh ({[fresh (dom (ints s))]} ∪ dom (ints s))))
                  (Some (fresh (dom (elems s))))).
Proof. apply fresh_array_obj. Qed.

Lemma during_matrix b : length b = (m * p)%nat -> holds_matrix (during s m p b) c m p b.
Proof. intros Hl. by apply holds_matrix_fresh. Qed.

Lemma update_entry b i j (f : dtype -> dtype) :
  length b = (m * p)%nat -> (i < m)%nat -> (j < p)%nat ->
  bind (at_args c (Z.of_nat i) [Z.of_nat j]) (fun rc =>
    bind (rd rc) (fun cur => wr rc (f cur))) (during s m p b)
  = Done (tt, during s m p (<[(i * p + j)%nat := f (cell of_int b (i * p + j))]> b)).
Proof.
  intros Hl Hi Hj.
  pose proof (entry_bound m p i j Hi Hj) as Hoff.
  rewrite (bind_done _ _ _ _ _
    (matrix_ref (during s m p b) c _ _ _ m p i j (during_obj b)
       ltac:(cbn -[fresh spec_strides]; apply lookup_insert_eq) Hi Hj Hfit)).
  unfold rd, wr. cbn [fst snd].
  erewrite (bind_done _ _ _ _ _ (ld_elem_view _ _ b _ _ _ _)).
  - unfold during. rewrite <- (with_elems_fresh_array _ _ _ b b), st_elem_with by lia.
    rewrite with_elems_fresh_array. unfold upd. by rewrite Nat2Z.id.
  Unshelve.
  + apply fresh_array_elems.
  + rewrite idx_nat. apply cell_lookup. lia.
Qed.

Local Abbreviation step i j :=
  (fun acc k => dadd acc (dmul (cell of_int da (i * ka + k)) (cell of_int db (k * p + j)))).

Lemma inner_loop b0 i j :
  length b0 = (m * p)%nat -> (i < m)%nat -> (j < p)%nat ->
  for_loop ka (fun k =>
    bind (at_args this (Z.of_nat i) [Z.of_nat k]) (fun ra =>
      bind (rd ra) (fun a =>
        bind (at_args rhs (Z.of_nat k) [Z.of_nat j]) (fun rb =>
          bind (rd rb) (fun b =>
            bind (at_args c (Z.of_nat i) [Z.of_nat j]) (fun rc =>
              bind (rd rc) (fun cur => wr rc (dadd cur (dmul a b)))))))))
    (during s m p b0)
  = Done (tt, during s m p
            (<[(i * p + j)%nat := foldl (step i j) (cell of_int b0 (i * p + j)) (seq 0 ka)]> b0)).
Proof.
  intros Hl Hi Hj. pose proof (entry_bound m p i j Hi Hj) as Hoff. unfold for_loop.
  match goal with |- for_from 0 ka ?body _ = _ =>
    destruct (for_from_total
      (fun k s1 => s1 = during s m p
         (<[(i * p + j)%nat := foldl (step i j) (cell of_int b0 (i * p + j)) (seq 0 k)]> b0))
      body ka 0%nat (during s m p b0)) as (s' & Hrun & Hs')
  end.
  - cbn. rewrite list_insert_id; [done|]. apply cell_lookup. lia.
  - intros k s1 Hk ->. eexists. split; [|reflexivity]. cbn beta.
    set (bk := <[(i * p + j)%nat := _]> b0).
    assert (Hlk : length bk = (m * p)%nat) by (unfold bk; by rewrite length_insert).
    rewrite <- bind_assoc.
    rewrite (bind_done _ _ _ _ _
      (holds_matrix_read (during s m p bk) this m ka da i k
         (holds_matrix_live _ _ _ _ _ _ _ _ Hthis) Hi ltac:(lia))).
    rewrite <- bind_assoc.
    rewrite (bind_done _ _ _ _ _
      (holds_matrix_read (during s m p bk) rhs ka p db k j
         (holds_matrix_live _ _ _ _ _ _ _ _ Hrhs) ltac:(lia) Hj)).
    rewrite (update_entry bk i j
               (fun cur => dadd cur (dmul (cell of_int da (i * ka + k))
                                          (cell of_int db (k * p + j)))) Hlk Hi Hj).
    do 3 f_equal. unfold bk at 2. rewrite list_insert_insert_eq. f_equal.
    rewrite seq_S, foldl_app. cbn. f_equal.
    unfold cell, bk. rewrite list_lookup_insert_eq by lia. done.
  - rewrite Hrun, Hs'. done.
Qed.

Local Abbreviation frontier n := (take n target ++ drop n zeros).

Lemma frontier_cell i j :
  (i < m)%nat -> (j < p)%nat -> cell of_int (frontier (i * p + j)%nat) (i * p + j) = of_int 0.
Proof.
  intros Hi Hj. pose proof (entry_bound m p i j Hi Hj) as Hoff.
  unfold cell. rewrite frontier_lookup by (rewrite length_mat_product; lia).
  by rewrite lookup_replicate_2.
Qed.

Lemma middle_loop i :
  (i < m)%nat ->
  for_loop p (fun j =>
    bind (shape this 1) (fun n2 =>
      for_loop (Z.to_nat n2) (fun k =>
        bind (at_args this (Z.of_nat i) [Z.of_nat k]) (fun ra =>
          bind (rd ra) (fun a =>
            bind (at_args rhs (Z.of_nat k) [Z.of_nat j]) (fun rb =>
              bind (rd rb) (fun b =>
                bind (at_args c (Z.of_nat i) [Z.of_nat j]) (fun rc =>
                  bind (rd rc) (fun cur => wr rc (dadd cur (dmul a b)))))))))))
    (during s m p (frontier (i * p)%nat))
  = Done (tt, during s m p (frontier (i * p + p)%nat)).
Proof.
  intros Hi. unfold for_loop at 1.
  match goal with |- for_from 0 p ?body _ = _ =>
    destruct (for_from_total
      (fun j s1 => s1 = during s m p (frontier (i * p + j)%nat))
      body p 0%nat (during s m p (frontier (i * p)%nat))) as (s' & Hrun & Hs')
  end.
  - by rewrite Nat.add_0_r.
  - intros j s1 Hj ->. eexists. split; [|reflexivity]. cbn beta.
    pose proof (entry_bound m p i j Hi ltac:(lia)) as Hoff.
    destruct (holds_matrix_shape (during s m p (frontier (i * p + j)%nat)) this m ka da
                (holds_matrix_live _ _ _ _ _ _ _ _ Hthis)) as [_ Hcols].
    rewrite (bind_done _ _ _ _ _ Hcols), Nat2Z.id.
    rewrite inner_loop; [|rewrite length_frontier|lia|lia];
      [|by rewrite length_replicate|by rewrite length_mat_product, length_replicate].
    do 3 f_equal. rewrite frontier_cell by lia.
    replace (i * p + S j)%nat with (S (i * p + j)) by lia.
    rewrite <- (upd_frontier target zeros (i * p + j)
                  (row_times_column dadd dmul of_int da db ka p i j)).
    + unfold upd. by rewrite Nat2Z.id.
    + by rewrite length_mat_product, length_replicate.
    + apply mat_product_lookup; lia.
  - rewrite Hrun, Hs'. done.
Qed.

Lemma outer_loop :
  for_loop m (fun i =>
    bind (shape c 1) (fun n1 =>
      for_loop (Z.to_nat n1) (fun j =>
        bind (shape this 1) (fun n2 =>
          for_loop (Z.to_nat n2) (fun k =>
            bind (at_args this (Z.of_nat i) [Z.of_nat k]) (fun ra =>
              bind (rd ra) (fun a =>
                bind (at_args rhs (Z.of_nat k) [Z.of_nat j]) (fun rb =>
                  bind (rd rb) (fun b =>
                    bind (at_args c (Z.of_nat i) [Z.of_nat j]) (fun rc =>
                      bind (rd rc) (fun cur => wr rc (dadd cur (dmul a b)))))))))))))
    (during s m p zeros)
  = Done (tt, during s m p target).
Proof.
  unfold for_loop at 1.
  match goal with |- for_from 0 m ?body _ = _ =>
    destruct (for_from_total
      (fun i s1 => s1 = during s m p (frontier (i * p)%nat))
      body m 0%nat (during s m p zeros)) as (s' & Hrun & Hs')
  end.
  - done.
  - intros i s1 Hi ->. eexists. split; [|reflexivity]. cbn beta.
    destruct (holds_matrix_shape (during s m p (frontier (i * p)%nat)) c m p _
                (during_matrix _ ltac:(rewrite length_frontier;
                   [by rewrite length_replicate
                   |by rewrite length_mat_product, length_replicate]))) as [_ Hcols].
    rewrite (bind_done _ _ _ _ _ Hcols), Nat2Z.id.
    rewrite (middle_loop i) by lia.
    replace (S i * p)%nat with (i * p + p)%nat by lia. done.
  - rewrite Hrun, Hs'. cbn [Nat.add].
    rewrite firstn_all2 by (rewrite length_mat_product; lia).
    rewrite drop_ge by (rewrite length_replicate; lia). by rewrite app_nil_r.
Qed.

End Product.

End MatrixStore.

(** ** Matrices in a world with streams *)

Section MatrixWorld.
Context {dtype : Type}.
Variable dadd : dtype -> dtype -> dtype.
Variable dmul : dtype -> dtype -> dtype.
Variable of_int : Z -> dtype.
Variable indet_int : loc -> nat -> Z.
Variable indet : loc -> nat -> dtype.
Implicit Types (s : @state dtype) (w : @world dtype).
Import Int32 Int32Facts.

Lemma lift_done {A} (m : M (@state dtype) A) w a s' :
  m (store w) = Done (a, s') -> lift m w = Done (a, World s' (cout w) (cerr w)).
Proof. unfold lift. by intros ->. Qed.

Lemma lift_fault {A} (m : M (@state dtype) A) w f :
  m (store w) = Fault f -> lift m w = Fault f.
Proof. unfold lift. by intros ->. Qed.

Lemma world_eta w : World (store w) (cout w) (cerr w) = w.
Proof. by destruct w. Qed.

Lemma return_local_spec s c C :
  objs s !! c = Some C ->
  return_local c s
  = Done (fresh (dom (objs s)),
          State (<[fresh (dom (objs s)) := C]> (delete c (objs s))) (ints s) (elems s)).
Proof.
  intros HC. unfold return_local.
  rewrite (bind_done _ _ _ _ _ (ctor_move_spec s c C HC)).
  erewrite (bind_done _ _ _ _ _ (dtor_spec 2 _ c null_array _ _)).
  - unfold ret, destroyed. cbn [objs ints elems drop_block _shape _stride head null_array].
    do 3 f_equal. rewrite delete_insert_eq, delete_insert_ne; [done|].
    exact (fresh_obj_ne s c _ HC).
  Unshelve.
  + cbn. apply lookup_insert_eq.
  + by left.
Qed.

(** The store once the local [c] of the product has been handed to the
    caller as the object [r]. *)
Lemma handed_over s (m p : nat) (b : list dtype) :
  length b = (m * p)%nat -> (0 < m)%nat -> (0 < p)%nat -> Z.of_nat (m * p) <= max_int ->
  exists r s',
    return_local (fresh (dom (objs s))) (during s m p b) = Done (r, s') /\
    objs s !! r = None /\
    holds_matrix s' r m p b /\
    (forall a r' c' d, holds_matrix s a r' c' d -> holds_matrix s' a r' c' d) /\
    (forall a, a <> r -> objs s' !! a = objs s !! a).
Proof.
  intros Hl Hm Hp Hfit.
  pose proof (holds_matrix_fresh s m p b Hl Hm Hp Hfit)
    as (psh & pst & ph & Ho & Hne & Hsh & Hst & Hd & Hrest).
  fold (during s m p b) in Ho, Hsh, Hst, Hd.
  eexists _, _. split; [exact (return_local_spec _ _ _ Ho)|].
  set (r := fresh (dom (objs (during s m p b)))).
  assert (Hobjs : delete (fresh (dom (objs s))) (objs (during s m p b)) = objs s).
  { cbn -[fresh]. apply delete_insert_id, fresh_obj_None. }
  rewrite Hobjs.
  assert (Hr : objs s !! r = None).
  { destruct (objs s !! r) as [o|] eqn:E; [|done].
    pose proof (live_obj s [Z.of_nat m; Z.of_nat p] (spec_strides [Z.of_nat m; Z.of_nat p])
                  b r o E) as E'.
    fold (during s m p b) in E'. unfold r in E'. by rewrite fresh_obj_None in E'. }
  split; [done|]. split; [|split].
  - exists psh, pst, ph. cbn [objs ints elems]. rewrite lookup_insert_eq. done.
  - intros a r' c' d Ha.
    pose proof (holds_matrix_live s [Z.of_nat m; Z.of_nat p]
                  (spec_strides [Z.of_nat m; Z.of_nat p]) b a r' c' d Ha)
      as (qsh & qst & qh & Hqo & Hq).
    fold (during s m p b) in Hq.
    destruct Ha as (xsh & xst & xh & Hxo & _).
    exists qsh, qst, qh. cbn [objs ints elems]. split; [|done].
    rewrite lookup_insert_ne by (intros <-; congruence).
    pose proof (live_obj s [Z.of_nat m; Z.of_nat p] (spec_strides [Z.of_nat m; Z.of_nat p])
                  b a _ Hxo) as E'.
    fold (during s m p b) in E', Hqo. congruence.
  - intros a Ha. cbn [objs]. by rewrite lookup_insert_ne.
Qed.

(** X21.  Return by value moves: the result of [return c;] is a new object
    that holds the three buffers of the local [c]; [c] no longer exists
    and both heaps are as they were. *)
Theorem a_local_returned_by_value_hands_over_its_buffers s c C :
  objs s !! c = Some C ->
  exists r s',
    return_local c s = Done (r, s') /\
    objs s !! r = None /\ objs s' !! r = Some C /\ objs s' !! c = None /\
    same_contents s c s' r /\ ints s' = ints s /\ elems s' = elems s.
Proof.
  intros HC. eexists _, _. split; [by apply return_local_spec|].
  pose proof (fresh_obj_ne s c _ HC) as Hne. cbn [objs ints elems].
  split; [apply fresh_obj_None|]. split; [apply lookup_insert_eq|].
  split; [by rewrite lookup_insert_ne, lookup_delete_eq by done|].
  split; [|done].
  apply same_contents_moved with C; [done|apply lookup_insert_eq|done|done].
Qed.

(** The product up to its test of the inner extents: [c] is built and
    filled with zeros. *)
Lemma mat_mul_prefix (rest : addr -> Z -> Z -> M (@world dtype) addr)
    w this rhs (m ka kb p : nat) da db :
  holds_matrix (store w) this m ka da -> holds_matrix (store w) rhs kb p db ->
  Z.of_nat (m * p) <= max_int ->
  bind (lift (bind (shape this 0) (fun m =>
                bind (shape rhs 1) (fun p => ctor_list 2 indet_int indet [m; p]))))
    (fun c =>
       bind (lift (assign_fill c (of_int 0))) (fun _ =>
         bind (lift (shape this 1)) (fun k1 =>
           bind (lift (shape rhs 0)) (fun k2 => rest c k1 k2)))) w
  = rest (fresh (dom (objs (store w)))) (Z.of_nat ka) (Z.of_nat kb)
      (World (during (store w) m p (replicate (m * p) (of_int 0))) (cout w) (cerr w)).
Proof.
  intros Hthis Hrhs Hfit. set (s := store w).
  assert (Hm : (0 < m)%nat) by (destruct Hthis as (? & ? & ? & ?); tauto).
  assert (Hp : (0 < p)%nat) by (destruct Hrhs as (? & ? & ? & ?); tauto).
  destruct (holds_matrix_shape s this m ka da Hthis) as [Hrows _].
  destruct (holds_matrix_shape s rhs kb p db Hrhs) as [_ Hcols].
  destruct (shape_ctor_result_fits 2 indet s [Z.of_nat m; Z.of_nat p]) as [Hres Hws].
  { repeat constructor; lia. }
  { cbn. lia. }
  assert (Hbuild :
    bind (shape this 0) (fun m =>
      bind (shape rhs 1) (fun p => ctor_list 2 indet_int indet [m; p])) s
    = Done (fresh (dom (objs s)),
            during s m p (map (indet (fresh (dom (elems s)))) (seq 0 (m * p))))).
  { rewrite (bind_done _ _ _ _ _ Hrows), (bind_done _ _ _ _ _ Hcols).
    rewrite ctor_list_spec, decide_False by (cbn; auto). rewrite Hres.
    unfold constructed, during. rewrite Hws, spec_strides_2. cbn [hd].
    replace (Z.to_nat (Z.of_nat m * Z.of_nat p)) with (m * p)%nat by lia.
    done. }
  rewrite (bind_done _ _ _ _ _ (lift_done _ w _ _ Hbuild)).
  set (d0 := map (indet (fresh (dom (elems s)))) (seq 0 (m * p))).
  assert (Hl0 : length d0 = (m * p)%nat) by (unfold d0; by rewrite length_map, length_seq).
  pose proof (holds_matrix_fresh s m p d0 Hl0 Hm Hp Hfit)
    as (psh & pst & ph & Ho & Hne & Hsh & Hst & Hd & Hrest).
  fold (during s m p d0) in Ho, Hsh, Hst, Hd.
  assert (Hph : ph = fresh (dom (elems s))).
  { pose proof (fresh_array_obj s [Z.of_nat m; Z.of_nat p]
                  (spec_strides [Z.of_nat m; Z.of_nat p]) d0) as Ho'.
    fold (during s m p d0) in Ho'. cbn [fst fresh_array] in Ho'. congruence. }
  assert (Hfill : assign_fill (fresh (dom (objs s))) (of_int 0) (during s m p d0)
                  = Done (fresh (dom (objs s)), during s m p (replicate (m * p) (of_int 0)))).
  { rewrite (assign_fill_full (during s m p d0) _ _ pst ph _ d0 (of_int 0) Ho Hst).
    - rewrite Hl0, Hph. unfold during. by rewrite with_elems_fresh_array.
    - rewrite spec_strides_2, Hl0. cbn. f_equal. lia.
    - done. }
  rewrite (bind_done _ _ _ _ _
    (lift_done _ (World (during s m p d0) (cout w) (cerr w)) _ _ Hfill)).
  cbn [cout cerr].
  set (s2 := during s m p (replicate (m * p) (of_int 0))).
  destruct (holds_matrix_shape s2 this m ka da (holds_matrix_live _ _ _ _ _ _ _ _ Hthis))
    as [_ Hk1].
  destruct (holds_matrix_shape s2 rhs kb p db (holds_matrix_live _ _ _ _ _ _ _ _ Hrhs))
    as [Hk2 _].
  rewrite (bind_done _ _ _ _ _ (lift_done _ (World s2 (cout w) (cerr w)) _ _ Hk1)).
  cbn [cout cerr store].
  rewrite (bind_done _ _ _ _ _ (lift_done _ (World s2 (cout w) (cerr w)) _ _ Hk2)).
  done.
Qed.

(** X22.  The product of matrices: for an [m x ka] matrix [this] and a
    [ka x p] matrix [rhs] as the constructors build them, with
    [m * p <= 2^31 - 1], [operator*] returns a new [m x p] matrix holding
    [mat_product], leaves both operands and every other object as they
    were, and writes nothing. *)
Theorem the_product_is_the_matrix_product w this rhs (m ka p : nat) da db :
  holds_matrix (store w) this m ka da -> holds_matrix (store w) rhs ka p db ->
  Z.of_nat (m * p) <= max_int ->
  exists r w',
    mat_mul dadd dmul of_int indet_int indet this rhs w = Done (r, w') /\
    objs (store w) !! r = None /\
    holds_matrix (store w') r m p (mat_product dadd dmul of_int da db m ka p) /\
    holds_matrix (store w') this m ka da /\ holds_matrix (store w') rhs ka p db /\
    (forall a, a <> r -> objs (store w') !! a = objs (store w) !! a) /\
    cout w' = cout w /\ cerr w' = cerr w.
Proof.
  intros Hthis Hrhs Hfit.
  assert (Hm : (0 < m)%nat) by (destruct Hthis as (? & ? & ? & ?); tauto).
  assert (Hp : (0 < p)%nat) by (destruct Hrhs as (? & ? & ? & ?); tauto).
  destruct (handed_over (store w) m p (mat_product dadd dmul of_int da db m ka p))
    as (r & s' & Hret & Hr & Hres & Hkeep & Hframe);
    [by rewrite length_mat_product|done..|].
  exists r, (World s' (cout w) (cerr w)).
  split; [|cbn [store cout cerr]; eauto 10].
  unfold mat_mul.
  rewrite (mat_mul_prefix _ w this rhs m ka ka p da db Hthis Hrhs Hfit).
  rewrite decide_False by (intros H; by apply H).
  set (s2 := during (store w) m p (replicate (m * p) (of_int 0))).
  assert (Hn0 : shape (fresh (dom (objs (store w)))) 0 s2 = Done (Z.of_nat m, s2)).
  { eapply holds_matrix_shape, holds_matrix_fresh; [by rewrite length_replicate|done..]. }
  erewrite bind_done; cycle 1.
  { apply lift_done. cbn [store]. rewrite (bind_done _ _ _ _ _ Hn0), Nat2Z.id.
    exact (outer_loop dadd dmul of_int (store w) this rhs m ka p da db Hthis Hrhs Hm Hp Hfit). }
  cbn [cout cerr]. exact (lift_done _ (World _ (cout w) (cerr w)) _ _ Hret).
Qed.

(** X23.  A product that does not fit: for an [m x ka] matrix and a
    [kb x p] matrix with [ka <> kb], [operator*] writes its diagnostic
    and [endl] on [cerr] and returns a new [m x p] matrix of zeros; the
    operands are left as they were. *)
Theorem a_product_of_unfit_matrices_is_zero w this rhs (m ka kb p : nat) da db :
  holds_matrix (store w) this m ka da -> holds_matrix (store w) rhs kb p db ->
  ka <> kb -> Z.of_nat (m * p) <= max_int ->
  exists r w',
    mat_mul dadd dmul of_int indet_int indet this rhs w = Done (r, w') /\
    objs (store w) !! r = None /\
    holds_matrix (store w') r m p (replicate (m * p) (of_int 0)) /\
    holds_matrix (store w') this m ka da /\ holds_matrix (store w') rhs kb p db /\
    (forall a, a <> r -> objs (store w') !! a = objs (store w) !! a) /\
    cout w' = cout w /\ cerr w' = cerr w ++ [Message "Dimension not match!"; Endl].
Proof.
  intros Hthis Hrhs Hk Hfit.
  assert (Hm : (0 < m)%nat) by (destruct Hthis as (? & ? & ? & ?); tauto).
  assert (Hp : (0 < p)%nat) by (destruct Hrhs as (? & ? & ? & ?); tauto).
  destruct (handed_over (store w) m p (replicate (m * p) (of_int 0)))
    as (r & s' & Hret & Hr & Hres & Hkeep & Hframe);
    [by rewrite length_replicate|done..|].
  exists r, (World s' (cout w) (cerr w ++ [Message "Dimension not match!"; Endl])).
  split; [|cbn [store cout cerr]; eauto 10].
  unfold mat_mul.
  rewrite (mat_mul_prefix _ w this rhs m ka kb p da db Hthis Hrhs Hfit).
  rewrite decide_True by lia.
  unfold to_cerr at 1. unfold bind at 1. cbn [store cout cerr].
  unfold to_cerr at 1. unfold bind at 1. cbn [store cout cerr].
  rewrite <- app_assoc. cbn [app].
  exact (lift_done _ (World _ (cout w) _) _ _ Hret).
Qed.

Lemma printed_S (d : list dtype) (i p : nat) :
  printed of_int d (S i) p
  = printed of_int d i p
    ++ flat_map (fun j => [Value (cell of_int d (i * p + j)); Tab]) (seq 0 p) ++ [Endl].
Proof. unfold printed. rewrite seq_S, flat_map_app. cbn. by rewrite app_nil_r. Qed.

Lemma print_row w this (m p : nat) d i (out : list (@token dtype)) :
  holds_matrix (store w) this m p d -> (i < m)%nat ->
  for_loop p (fun j =>
    bind (lift (bind (at_args this (Z.of_nat i) [Z.of_nat j]) (fun r => rd r))) (fun v =>
      bind (to_cout (Value v)) (fun _ => to_cout Tab)))
    (World (store w) out (cerr w))
  = Done (tt, World (store w)
                (out ++ flat_map (fun j => [Value (cell of_int d (i * p + j)); Tab]) (seq 0 p))
                (cerr w)).
Proof.
  intros Hthis Hi. unfold for_loop.
  match goal with |- for_from 0 p ?body _ = _ =>
    destruct (for_from_total
      (fun j w1 => w1 = World (store w)
         (out ++ flat_map (fun j => [Value (cell of_int d (i * p + j)); Tab]) (seq 0 j))
         (cerr w))
      body p 0%nat (World (store w) out (cerr w))) as (w' & Hrun & Hw')
  end.
  - cbn. by rewrite app_nil_r.
  - intros j w1 Hj ->. eexists. split; [|reflexivity]. cbn beta.
    erewrite (bind_done _ _ _ _ _ (lift_done _ (World (store w) _ (cerr w)) _ _
                (holds_matrix_read of_int (store w) this m p d i j Hthis Hi ltac:(lia)))).
    unfold to_cout, bind. cbn [store cout cerr].
    rewrite seq_S, flat_map_app. cbn. by rewrite <- !app_assoc.
  - by rewrite Hrun, Hw'.
Qed.

(** X24.  Printing: on an [m x p] matrix as the constructors build it,
    [print] appends [printed] to [cout] - each row's elements, a tab after
    each, then [endl] - and changes nothing else. *)
Theorem print_writes_the_rows w this (m p : nat) d :
  holds_matrix (store w) this m p d ->
  print this w = Done (tt, World (store w) (cout w ++ printed of_int d m p) (cerr w)).
Proof.
  intros Hthis. unfold print.
  destruct (holds_matrix_shape (store w) this m p d Hthis) as [Hrows Hcols].
  rewrite (bind_done _ _ _ _ _ (lift_done _ w _ _ Hrows)), Nat2Z.id. unfold for_loop at 1.
  match goal with |- for_from 0 m ?body _ = _ =>
    destruct (for_from_total
      (fun i w1 => w1 = World (store w) (cout w ++ printed of_int d i p) (cerr w))
      body m 0%nat (World (store w) (cout w) (cerr w))) as (w' & Hrun & Hw')
  end.
  - cbn. by rewrite app_nil_r.
  - intros i w1 Hi ->. eexists. split; [|reflexivity]. cbn beta.
    rewrite bind_assoc.
    rewrite (bind_done _ _ _ _ _ (lift_done _ (World (store w) _ (cerr w)) _ _ Hcols)).
    rewrite Nat2Z.id. cbn [cout cerr].
    rewrite (bind_done _ _ _ _ _ (print_row w this m p d i _ Hthis ltac:(lia))).
    unfold to_cout. cbn [store cout cerr]. by rewrite printed_S, <- !app_assoc.
  - by rewrite Hrun, Hw'.
Qed.

(** X25.  An empty matrix: [nrow()] and [ncol()] return 0, but [print] and
    a product with the empty matrix on the left read [shape(0)] through
    a null pointer. *)
Theorem an_empty_matrix_has_no_rows_to_print w this rhs :
  objs (store w) !! this = Some null_array ->
  nrow this (store w) = Done (0, store w) /\
  ncol this (store w) = Done (0, store w) /\
  print this w = Fault NullDeref /\
  mat_mul dadd dmul of_int indet_int indet this rhs w = Fault NullDeref.
Proof.
  intros Ho.
  assert (Hsh : forall i, shape this i (store w) = Fault NullDeref).
  { intros i. unfold shape, ld_shape.
    by rewrite (bind_done _ _ _ _ _ (get_shape_view _ _ _ Ho)). }
  split; [|split; [|split]].
  - unfold nrow. by rewrite (bind_done _ _ _ _ _ (empty_view _ _ _ Ho)).
  - unfold ncol. by rewrite (bind_done _ _ _ _ _ (empty_view _ _ _ Ho)).
  - unfold print, bind. by rewrite (lift_fault _ _ _ (Hsh 0)).
  - unfold mat_mul. unfold bind at 1. erewrite lift_fault; [done|].
    unfold bind. by rewrite Hsh.
Qed.

Lemma nrow_and_ncol_are_the_extents s this (m p : nat) d :
  holds_matrix s this m p d ->
  nrow this s = Done (Z.of_nat m, s) /\ ncol this s = Done (Z.of_nat p, s).
Proof.
  intros Hthis. destruct (holds_matrix_shape s this m p d Hthis) as [Hrows Hcols].
  destruct Hthis as (psh & pst & ph & Ho & _).
  unfold nrow, ncol. rewrite !(bind_done _ _ _ _ _ (empty_view _ _ _ Ho)).
  cbn [_stride]. by rewrite bool_decide_false by done.
Qed.

End MatrixWorld.

(** ** The two states, with consistent buffers *)

Section Consistency.
Context {dtype : Type}.
Implicit Types (s : @state dtype) (o : ndarray) (d : list dtype).

Lemma contents_Some s a sh st d :
  contents s a = Some (sh, st, d) <->
  exists o psh pst ph,
    objs s !! a = Some o /\ _shape o = Some psh /\ _stride o = Some pst /\
    head o = Some ph /\
    ints s !! psh = Some sh /\ ints s !! pst = Some st /\ elems s !! ph = Some d.
Proof.
  split.
  - unfold contents. intros H.
    destruct (shape_of s a) as [sh'|] eqn:Hsh; [|done]. cbn in H.
    destruct (stride_of s a) as [st'|] eqn:Hst; [|done]. cbn in H.
    destruct (data_of s a) as [d'|] eqn:Hd; [|done]. cbn in H.
    injection H as -> -> ->.
    unfold shape_of, stride_of, data_of in *.
    destruct (objs s !! a) as [o|]; [|done]. cbn in *.
    destruct (_shape o) as [psh|] eqn:Hpsh; [|done].
    destruct (_stride o) as [pst|] eqn:Hpst; [|done].
    destruct (head o) as [ph|] eqn:Hph; [|done]. cbn in *.
    by exists o, psh, pst, ph.
  - intros (o & psh & pst & ph & Ho & Hpsh & Hpst & Hph & Hsh & Hst & Hd).
    unfold contents, shape_of, stride_of, data_of. rewrite Ho. cbn.
    rewrite Hpsh, Hpst, Hph. cbn. rewrite Hsh, Hst, Hd. done.
Qed.

Lemma consistent_length sh st d d' :
  length d' = length d -> consistent sh st d -> consistent sh st d'.
Proof.
  intros Hl (H1 & H2 & H3 & H4 & H5 & H6). unfold consistent. by rewrite Hl.
Qed.

(** The buffers a shape constructor builds within [int32_t]. *)
Lemma consistent_spec_strides ext d :
  Forall (fun e => 0 < e) ext -> product ext <= Int32.max_int ->
  Z.of_nat (length d) = product ext -> consistent ext (spec_strides ext) d.
Proof.
  intros Hpos Hfit Hlen. repeat split; try done.
  - pose proof (hd_spec_strides ext) as Hhd.
    destruct (spec_strides ext) as [|v l] eqn:E; [by destruct ext|].
    cbn in Hhd. by rewrite <- Hhd.
  - by apply (offset_of_range coo ext).
  - by apply (offset_of_range coo ext).
  - intros coo coo'. apply offset_of_inj.
Qed.

Lemma consistent_arrays_initial : consistent_arrays (State (dtype:=dtype) ∅ ∅ ∅).
Proof. intros a sh st d (o & ? & ? & ? & Ho & _)%contents_Some. done. Qed.

Lemma layouts_kept_refl s : layouts_kept s s.
Proof. intros a sh st d H. by exists a, d. Qed.

Lemma layouts_kept_trans s1 s2 s3 :
  layouts_kept s1 s2 -> layouts_kept s2 s3 -> layouts_kept s1 s3.
Proof.
  intros H12 H23 a3 sh st d3 H3.
  destruct (H23 a3 sh st d3 H3) as (a2 & d2 & H2 & Hl2).
  destruct (H12 a2 sh st d2 H2) as (a1 & d1 & H1 & Hl1).
  exists a1, d1. split; [done|congruence].
Qed.

Lemma layouts_kept_descends s s' a : layouts_kept s s' -> descends s s' a.
Proof. intros Hk sh st d H. right. by apply (Hk a). Qed.

(** Objects moved between addresses over unchanged heaps. *)
Lemma layouts_kept_rearrange s s' :
  ints s' = ints s -> elems s' = elems s ->
  (forall a o, objs s' !! a = Some o -> o = null_array \/ exists b, objs s !! b = Some o) ->
  layouts_kept s s'.
Proof.
  intros Hi He Hobj a sh st d
    (o & psh & pst & ph & Ho & Hpsh & Hpst & Hph & Hsh & Hst & Hd)%contents_Some.
  destruct (Hobj a o Ho) as [->|[b Hb]]; [done|].
  exists b, d. split; [|done]. apply contents_Some. exists o, psh, pst, ph.
  by rewrite <- Hi, <- He.
Qed.

Lemma layouts_kept_same_ints s s' : same_ints s s' -> layouts_kept s s'.
Proof.
  intros (Ho & Hi & He) a sh st d
    (o & psh & pst & ph & Hobj & Hpsh & Hpst & Hph & Hsh & Hst & Hd)%contents_Some.
  specialize (He ph). rewrite Hd in He. cbn in He.
  destruct (elems s !! ph) as [d0|] eqn:Hd0; [|done]. injection He as He.
  exists a, d0. split; [|done]. apply contents_Some. exists o, psh, pst, ph.
  by rewrite <- Ho, <- Hi.
Qed.

Lemma layouts_kept_destroyed s a o : layouts_kept s (destroyed s a o).
Proof.
  intros b sh st d
    (ob & psh & pst & ph & Hobj & Hpsh & Hpst & Hph & Hsh & Hst & Hd)%contents_Some.
  unfold destroyed in *. cbn [objs ints elems] in *.
  apply lookup_delete_Some in Hobj as [_ Hobj].
  assert (Hints : forall l b', drop_block (_stride o) (drop_block (_shape o) (ints s)) !! l
                               = Some b' -> ints s !! l = Some b').
  { intros l b'. destruct (_stride o), (_shape o); cbn;
      rewrite ?lookup_delete_Some; tauto. }
  assert (Helems : elems s !! ph = Some d).
  { destruct (head o); cbn in Hd; [|done]. by apply lookup_delete_Some in Hd as [_ Hd]. }
  exists b, d. split; [|done]. apply contents_Some. exists ob, psh, pst, ph. eauto 10.
Qed.

Lemma layouts_kept_new_null s :
  layouts_kept s (State (<[fresh (dom (objs s)) := null_array]> (objs s)) (ints s) (elems s)).
Proof.
  apply layouts_kept_rearrange; [done..|]. intros a o. cbn [objs].
  destruct (decide (a = fresh (dom (objs s)))) as [->|Hne].
  - rewrite lookup_insert_eq. intros [= <-]. by left.
  - rewrite lookup_insert_ne by done. eauto.
Qed.

Lemma layouts_kept_traded s this x a b :
  objs s !! this = Some a -> objs s !! x = Some b ->
  layouts_kept s (State (<[x := a]> (<[this := b]> (objs s))) (ints s) (elems s)).
Proof.
  intros Ha Hb. apply layouts_kept_rearrange; [done..|]. intros i o. cbn [objs].
  destruct (decide (i = x)) as [->|Hix].
  - rewrite lookup_insert_eq. intros [= <-]. eauto.
  - rewrite lookup_insert_ne by done. destruct (decide (i = this)) as [->|Hit].
    + rewrite lookup_insert_eq. intros [= <-]. eauto.
    + rewrite lookup_insert_ne by done. eauto.
Qed.

Lemma layouts_kept_moved s x xo :
  objs s !! x = Some xo ->
  layouts_kept s (State (<[x := null_array]> (<[fresh (dom (objs s)) := xo]> (objs s)))
                        (ints s) (elems s)).
Proof.
  intros Hx. apply layouts_kept_rearrange; [done..|]. intros i o. cbn [objs].
  destruct (decide (i = x)) as [->|Hix].
  - rewrite lookup_insert_eq. intros [= <-]. by left.
  - rewrite lookup_insert_ne by done.
    destruct (decide (i = fresh (dom (objs s)))) as [->|Hit].
    + rewrite lookup_insert_eq. intros [= <-]. eauto.
    + rewrite lookup_insert_ne by done. eauto.
Qed.

End Consistency.

Section Coherence.
Context {dtype : Type}.
Variable dadd : dtype -> dtype -> dtype.
Variable dscale : Z -> dtype -> dtype.
Variable (D : nat).
Variable indet_int : loc -> nat -> Z.
Variable indet : loc -> nat -> dtype.
(** [D] is an [int] template argument. *)
Hypothesis D_int : Z.of_nat D <= Int32.max_int.
Implicit Types (s : @state dtype) (o : ndarray) (d : list dtype).

(** One more array in fresh buffers: what it shows, and what the
    arrays beside it show. *)
Lemma contents_fresh_array s sh st d a sh' st' d' :
  inv D s -> contents (fresh_array s sh st d).2 a = Some (sh', st', d') ->
  a = fresh (dom (objs s)) /\ sh' = sh /\ st' = st /\ d' = d
  \/ a <> fresh (dom (objs s)) /\ contents s a = Some (sh', st', d').
Proof.
  intros [Htwo _]
    (o & psh & pst & ph & Hobj & Hpsh & Hpst & Hph & Hsh & Hst & Hd)%contents_Some.
  unfold fresh_array in *. cbn [snd objs ints elems] in *.
  destruct (decide (a = fresh (dom (objs s)))) as [->|Hne]; [left|right].
  - rewrite lookup_insert_eq in Hobj. injection Hobj as <-. cbn in Hpsh, Hpst, Hph.
    injection Hpsh as <-. injection Hpst as <-. injection Hph as <-.
    rewrite lookup_insert_eq in Hst. rewrite lookup_insert_eq in Hd.
    rewrite lookup_insert_ne, lookup_insert_eq in Hsh
      by exact (not_eq_sym (fresh_buffers_differ s)).
    repeat split; congruence.
  - split; [done|]. rewrite lookup_insert_ne in Hobj by done.
    destruct (Htwo a o Hobj) as [->|Hf]; [done|].
    destruct (full_ints_alloc D s o psh Hf) as [b1 Hb1]; [apply elem_of_pair; by left|].
    destruct (full_ints_alloc D s o pst Hf) as [b2 Hb2]; [apply elem_of_pair; by right|].
    destruct (full_elems_alloc D s o ph Hf Hph) as [b3 Hb3].
    rewrite !lookup_insert_ne in Hsh
      by (intros E; rewrite <- E in Hb1;
          by rewrite ?fresh_ints_None, ?fresh_ints_None2 in Hb1).
    rewrite !lookup_insert_ne in Hst
      by (intros E; rewrite <- E in Hb2;
          by rewrite ?fresh_ints_None, ?fresh_ints_None2 in Hb2).
    rewrite lookup_insert_ne in Hd
      by (intros E; rewrite <- E in Hb3; by rewrite fresh_elems_None in Hb3).
    apply contents_Some. by exists o, psh, pst, ph.
Qed.

Lemma same_ints_refl s : same_ints s s.
Proof. done. Qed.

Lemma same_ints_trans s1 s2 s3 : same_ints s1 s2 -> same_ints s2 s3 -> same_ints s1 s3.
Proof.
  intros (Ho & Hi & He) (Ho' & Hi' & He'). split; [congruence|]. split; [congruence|].
  intros l. by rewrite He', He.
Qed.

Local Abbreviation pure := (preserves (@eq (@state dtype))).
Local Abbreviation fixes := (preserves (@same_ints dtype)).

Lemma pure_fixes {A} (m : M state A) : pure m -> fixes m.
Proof. apply preserves_weaken. intros x y <-. apply same_ints_refl. Qed.

Lemma fixes_bind {A B} (m : M state A) (k : A -> M state B) :
  fixes m -> (forall a, fixes (k a)) -> fixes (bind m k).
Proof. apply preserves_bind, same_ints_trans. Qed.

Lemma fixes_ret {A} (a : A) : fixes (ret a).
Proof. apply preserves_ret, same_ints_refl. Qed.

Lemma fixes_st_elem p i v : fixes (st_elem (dtype:=dtype) p i v).
Proof.
  intros s u s'. unfold st_elem. destruct p as [l|]; [|done].
  destruct (elems s !! l) as [b|] eqn:Hb; [|done].
  destruct (idx b i); [|done]. intros [= _ <-]. split; [done|]. split; [done|].
  intros l'. simpl. destruct (decide (l = l')) as [<-|Hne].
  - rewrite lookup_insert_eq, Hb. simpl. by rewrite length_upd.
  - by rewrite lookup_insert_ne.
Qed.

Lemma fixes_for_loop n (body : nat -> M state unit) :
  (forall k, fixes (body k)) -> fixes (for_loop n body).
Proof. apply preserves_for_from; [apply same_ints_refl|apply same_ints_trans]. Qed.

Lemma fixes_assign_fill a v : fixes (assign_fill (dtype:=dtype) a v).
Proof.
  apply fixes_bind; [apply pure_fixes, pure_empty|]. intros [|]; [apply fixes_ret|].
  apply fixes_bind; [apply pure_fixes, pure_size|]. intros n.
  apply fixes_bind; [|intros _; apply fixes_ret].
  apply fixes_for_loop. intros k.
  apply fixes_bind; [apply pure_fixes, pure_get_head|]. intros p. apply fixes_st_elem.
Qed.

Lemma fixes_pm N a rhs : fixes (pm dadd dscale N a rhs).
Proof.
  apply fixes_bind; [apply pure_fixes, pure_size|]. intros n.
  apply fixes_bind; [|intros _; apply fixes_ret].
  apply fixes_for_loop. intros k.
  apply fixes_bind; [apply pure_fixes, pure_at_raw|]. intros r.
  apply fixes_bind; [apply pure_fixes, pure_rd|]. intros v.
  apply fixes_bind; [apply pure_fixes, pure_get_head|]. intros p.
  apply fixes_bind; [apply pure_fixes, pure_ld_elem|]. intros h. apply fixes_st_elem.
Qed.

(** Every in-place operation but the transposition leaves the shape
    and stride buffers as they are. *)
Lemma fixes_apply_inplace a op :
  (forall i j, op <> Transpose i j) -> fixes (apply_inplace dadd dscale D a op).
Proof.
  destruct op as [r v|coo v|first args v|v|rhs|rhs|i j]; cbn [apply_inplace]; intros Hv.
  - apply fixes_bind; [apply pure_fixes, pure_at_raw|]. intros r'. apply fixes_st_elem.
  - apply fixes_bind; [apply pure_fixes, pure_at_coo|]. intros r'. apply fixes_st_elem.
  - apply fixes_bind; [apply pure_fixes, pure_at_args|]. intros r'. apply fixes_st_elem.
  - apply fixes_bind; [apply fixes_assign_fill|]. intros _. apply fixes_ret.
  - apply fixes_bind; [apply fixes_pm|]. intros _. apply fixes_ret.
  - apply fixes_bind; [apply fixes_pm|]. intros _. apply fixes_ret.
  - by destruct (Hv i j).
Qed.

(** The store after the copy constructor. *)
Lemma layouts_kept_ctor_copy s x xo c s1 :
  objs s !! x = Some xo -> inv D s ->
  ctor_copy D indet_int indet x s = Done (c, s1) -> layouts_kept s s1.
Proof.
  intros Hx Hinv Hrun.
  destruct (ctor_copy_spec D indet_int indet D_int s x xo Hx (proj1 Hinv x xo Hx))
    as (c' & s1' & C & Hrun' & -> & Hobjs & Hcase).
  rewrite Hrun in Hrun'. injection Hrun' as -> ->.
  destruct Hcase as [(-> & -> & Hi & He)|(xsh & xst & xh & sh & st & d & -> & Hsh & Hst & Hd
                                           & Hlsh & Hlst & Hsz & Heq)].
  - destruct s1' as [O I E]. cbn in *. subst. apply layouts_kept_new_null.
  - replace s1' with (fresh_array s sh st d).2 by (by rewrite <- Heq).
    intros a sh' st' d' Ha.
    destruct (contents_fresh_array s sh st d a sh' st' d' Hinv Ha)
      as [(_ & -> & -> & ->)|[_ Hold]].
    + exists x, d. split; [|done]. apply contents_Some. by eexists _, xsh, xst, xh.
    + by exists a, d'.
Qed.

(** A transposition changes what the transposed array shows, and no
    other. *)
Lemma contents_transposed s this i j s' a sh st d :
  inv D s -> transpose this i j s = Done (tt, s') -> a <> this ->
  contents s' a = Some (sh, st, d) -> contents s a = Some (sh, st, d).
Proof.
  intros [Htwo Hsep]
    (o & psh & pst & st0 & sh0 & Ho & Hpsh & Hpst & Hst0 & Hsh0 & _ & _ & _ & _ & ->)
      %transpose_inv Hne
    (oa & qsh & qst & qh & Hoa & Hqsh & Hqst & Hqh & Hsh & Hst & Hd)%contents_Some.
  cbn [objs ints elems] in *.
  destruct (Hsep a this oa o Hne Hoa Ho) as [Hdis _].
  assert (Hout : forall q, Some q ∈ [_shape oa; _stride oa] -> q <> psh /\ q <> pst).
  { intros q Hq. split; intros ->.
    - assert (Some psh = None); [|done].
      apply Hdis; [done|]. rewrite <- Hpsh. apply elem_of_pair. by left.
    - assert (Some pst = None); [|done].
      apply Hdis; [done|]. rewrite <- Hpst. apply elem_of_pair. by right. }
  destruct (Hout qsh) as [N1 N2]; [rewrite <- Hqsh; apply elem_of_pair; by left|].
  destruct (Hout qst) as [N3 N4]; [rewrite <- Hqst; apply elem_of_pair; by right|].
  rewrite !lookup_insert_ne in Hsh by done. rewrite !lookup_insert_ne in Hst by done.
  apply contents_Some. by exists oa, qsh, qst, qh.
Qed.


End Coherence.

Import Example Cases.

Lemma coherent_initial : coherent 2 start.
Proof. split; [apply inv_initial|apply consistent_arrays_initial]. Qed.



Import Example Cases.

(** ** The properties above on small inputs *)

Lemma rank_3_is_an_int : Z.of_nat 3 <= Int32.max_int.
Proof. by vm_compute. Qed.

Lemma one_array_full : full 2 one_array.2 (Ndarray (Some 0%nat) (Some 1%nat) (Some 0%nat)).
Proof. by eexists 0%nat, 1%nat, 0%nat, [2; 3], [6; 3; 1], [10; 20; 30; 40; 50; 60]. Qed.

Lemma cube_full : full 3 cube.2 (Ndarray (Some 0%nat) (Some 1%nat) (Some 0%nat)).
Proof.
  by eexists 0%nat, 1%nat, 0%nat, [2; 2; 3], [12; 6; 3; 1],
             [0; 1; 2; 3; 4; 5; 6; 7; 8; 9; 10; 11].
Qed.

Lemma in_bounds_12 : in_bounds [1; 2] [2; 3].
Proof. repeat constructor; lia. Qed.

Lemma in_bounds_01 : in_bounds [0; 1] [2; 3].
Proof. repeat constructor; lia. Qed.

(** [transpose(0, 1)] twice on the (2,2,3) array. *)
Lemma transpose_twice_witness :
  transpose cube.1 0 1 cube.2 = Done (tt, cube_transposed) /\
  transpose cube.1 0 1 cube_transposed = Done (tt, cube.2).
Proof.
  assert (H : transpose cube.1 0 1 cube.2 = Done (tt, cube_transposed))
    by (vm_compute; reflexivity).
  split; [exact H|].
  exact (transpose_twice_restores_the_store cube.2 cube.1 0 1 cube_transposed H).
Defined.

(** Element (0,1,2) of the (2,2,3) array is element (1,0,2) once axes 0
    and 1 are exchanged. *)
Lemma transposed_coordinates_witness :
  exchanged [0; 1; 2] 0 1 = [1; 0; 2] /\
  elems cube_transposed = elems cube.2 /\
  exists r, at_coo 3 cube.1 [0; 1; 2] cube.2 = Done (r, cube.2) /\
            at_coo 3 cube.1 (exchanged [0; 1; 2] 0 1) cube_transposed
            = Done (r, cube_transposed).
Proof.
  split; [reflexivity|].
  apply (transposed_coordinates_reach_the_same_element 3 rank_3_is_an_int cube.2 cube.1
           (Ndarray (Some 0%nat) (Some 1%nat) (Some 0%nat)) 0 1 cube_transposed [0; 1; 2]).
  - vm_compute; reflexivity.
  - exact cube_full.
  - lia.
  - lia.
  - reflexivity.
  - vm_compute; reflexivity.
Defined.

(** [transpose(0, 2)] on the rank-3 array. *)
Lemma last_axis_witness : transpose cube.1 0 2 cube.2 = Fault OutOfBounds.
Proof.
  apply (transposing_the_last_axis_overruns_the_shape 3 rank_3_is_an_int cube.2 cube.1
           (Ndarray (Some 0%nat) (Some 1%nat) (Some 0%nat)) 0 2).
  - vm_compute; reflexivity.
  - exact cube_full.
  - lia.
  - lia.
  - right. reflexivity.
Defined.

(** Element (1,2) of the (2,3) array. *)
Lemma coordinates_witness :
  exists p off v,
    at_coo 2 one_array.1 [1; 2] one_array.2 = Done ((p, off), one_array.2) /\
    0 <= off < product [2; 3] /\ off = offset_of [2; 3] [1; 2] /\
    [10; 20; 30; 40; 50; 60] !! Z.to_nat off = Some v /\
    rd (p, off) one_array.2 = Done (v, one_array.2).
Proof.
  apply (coordinates_in_bounds_stay_in_the_buffer 2 one_array.2 one_array.1
           [2; 3] [10; 20; 30; 40; 50; 60] [1; 2]).
  - vm_compute; reflexivity.
  - vm_compute; reflexivity.
  - vm_compute; reflexivity.
  - reflexivity.
  - reflexivity.
  - by vm_compute.
  - exact in_bounds_12.
Defined.

(** Elements (1,2) and (0,1) of the (2,3) array. *)
Lemma distinct_coordinates_witness :
  in_bounds [1; 2] [2; 3] /\ in_bounds [0; 1] [2; 3] /\
  returned (at_coo 2 one_array.1 [1; 2] one_array.2)
  <> returned (at_coo 2 one_array.1 [0; 1] one_array.2).
Proof.
  split; [exact in_bounds_12|]. split; [exact in_bounds_01|].
  apply (distinct_coordinates_reach_distinct_elements 2 one_array.2
           one_array.1 [2; 3] [1; 2] [0; 1]).
  - vm_compute; reflexivity.
  - vm_compute; reflexivity.
  - reflexivity.
  - by vm_compute.
  - exact in_bounds_12.
  - exact in_bounds_01.
  - discriminate.
Defined.

(** From element (1,2) of the (2,3) array along axis 1: forward to
    (1,0), backward to (1,1). *)
Lemma rolling_coordinates_witness :
  rollind 2 one_array.1 (offset_of [2; 3] [1; 2]) (Z.of_nat 1) one_array.2
  = Done (offset_of [2; 3] (<[1%nat := (2 + 1) mod 3]> [1; 2]), one_array.2) /\
  rollind 2 one_array.1 (offset_of [2; 3] [1; 2]) (Z.of_nat 1 - Z.of_nat 2) one_array.2
  = Done (offset_of [2; 3] (<[1%nat := (2 - 1) mod 3]> [1; 2]), one_array.2).
Proof.
  apply (rolling_moves_one_coordinate 2 rank_2_is_an_int one_array.2 one_array.1
           [2; 3] [1; 2] 1%nat 3 2).
  - vm_compute; reflexivity.
  - vm_compute; reflexivity.
  - reflexivity.
  - by vm_compute.
  - exact in_bounds_12.
  - reflexivity.
  - reflexivity.
Defined.

(** From element (1,2) of the (2,3) array, one step along axis 0 and
    one along axis 1, in either order, to element (0,0). *)
Lemma rolling_commutes_witness :
  bind (rollind 2 one_array.1 (offset_of [2; 3] [1; 2]) (Z.of_nat 0))
       (fun r1 => rollind 2 one_array.1 r1 (Z.of_nat 1)) one_array.2
  = Done (offset_of [2; 3] (<[1%nat := (2 + 1) mod 3]> (<[0%nat := (1 + 1) mod 2]> [1; 2])),
          one_array.2) /\
  bind (rollind 2 one_array.1 (offset_of [2; 3] [1; 2]) (Z.of_nat 1))
       (fun r2 => rollind 2 one_array.1 r2 (Z.of_nat 0)) one_array.2
  = Done (offset_of [2; 3] (<[1%nat := (2 + 1) mod 3]> (<[0%nat := (1 + 1) mod 2]> [1; 2])),
          one_array.2).
Proof.
  apply (rolling_along_two_axes_commutes 2 rank_2_is_an_int one_array.2 one_array.1
           [2; 3] [1; 2] 0%nat 1%nat 2 3 1 2).
  - vm_compute; reflexivity.
  - vm_compute; reflexivity.
  - reflexivity.
  - by vm_compute.
  - exact in_bounds_12.
  - reflexivity.
  - reflexivity.
  - reflexivity.
  - reflexivity.
  - discriminate.
Defined.

(** [a(0, 0, 0)] on the rank-2 array. *)
Lemma more_indices_witness : at_args one_array.1 0 [0; 0] one_array.2 = Fault OutOfBounds.
Proof.
  apply (more_indices_than_axes_overrun_the_strides 2 one_array.2 one_array.1
           (Ndarray (Some 0%nat) (Some 1%nat) (Some 0%nat)) 0 [0; 0]).
  - vm_compute; reflexivity.
  - exact one_array_full.
  - simpl. lia.
Defined.

(** [a = 7] on the (2,3) array. *)
Lemma fill_witness :
  assign_fill one_array.1 7 one_array.2
  = Done (one_array.1,
          refilled one_array.2 (Ndarray (Some 0%nat) (Some 1%nat) (Some 0%nat))
            (fun d => replicate (length d) 7)).
Proof.
  apply (fill_writes_every_element 2 one_array.2 one_array.1
           (Ndarray (Some 0%nat) (Some 1%nat) (Some 0%nat)) 7).
  - vm_compute; reflexivity.
  - right. exact one_array_full.
Defined.

(** [a += a] and [a -= a] on the (2,3) array. *)
Lemma compound_assignment_witness :
  plus_assign Z.add Z.mul one_array.1 one_array.1 one_array.2
  = Done (one_array.1,
          refilled one_array.2 (Ndarray (Some 0%nat) (Some 1%nat) (Some 0%nat))
            (fun d => zip_with (fun h v => h + 1 * v) d [10; 20; 30; 40; 50; 60])) /\
  minus_assign Z.add Z.mul one_array.1 one_array.1 one_array.2
  = Done (one_array.1,
          refilled one_array.2 (Ndarray (Some 0%nat) (Some 1%nat) (Some 0%nat))
            (fun d => zip_with (fun h v => h + -1 * v) d [10; 20; 30; 40; 50; 60])).
Proof.
  apply (compound_assignment_is_elementwise Z.add Z.mul 2 one_array.2 one_array.1 one_array.1
           (Ndarray (Some 0%nat) (Some 1%nat) (Some 0%nat))
           [10; 20; 30; 40; 50; 60] [10; 20; 30; 40; 50; 60]).
  - vm_compute; reflexivity.
  - exact one_array_full.
  - vm_compute; reflexivity.
  - vm_compute; reflexivity.
  - simpl. lia.
Defined.

(** A (2,3) array built in the empty store and destroyed. *)
Lemma construct_destroy_witness :
  dtor (constructed junk start [2; 3]).1 (constructed junk start [2; 3]).2 = Done (tt, start).
Proof.
  apply (a_constructed_array_is_destroyed_without_trace 2 junk_int junk (ByList [2; 3]) start).
  - exact I.
  - vm_compute; reflexivity.
Defined.

(** A copy of the (2,3) array, destroyed. *)
Lemma copy_destroy_witness :
  exists c s', ctor_copy 2 junk_int junk one_array.1 one_array.2 = Done (c, s') /\
               objs one_array.2 !! c = None /\ dtor c s' = Done (tt, one_array.2).
Proof.
  apply (a_copy_is_destroyed_without_trace 2 junk_int junk rank_2_is_an_int one_array.2
           one_array.1 (Ndarray (Some 0%nat) (Some 1%nat) (Some 0%nat))).
  - vm_compute; reflexivity.
  - right. exact one_array_full.
Defined.

(** [a = std::move(a)] on the (2,3) array. *)
Lemma self_move_witness : assign_move one_array.1 one_array.1 one_array.2
                          = Done (one_array.1, one_array.2).
Proof.
  apply (self_move_assignment_changes_nothing one_array.2 one_array.1
           (Ndarray (Some 0%nat) (Some 1%nat) (Some 0%nat))).
  vm_compute; reflexivity.
Defined.

(** Width 2 at rank 2 against the shape list (2,2). *)
Lemma shape_constructors_witness :
  construct 2 junk_int junk (ByWidth 2) start = ctor_list 2 junk_int junk [2; 2] start.
Proof.
  apply (every_shape_constructor_is_the_list_constructor 2 junk_int junk (ByWidth 2) start).
  exact I.
Defined.

(** The empty array beside the (2,3) array. *)
Lemma empty_array_witness :
  empty two_arrays.1 two_arrays.2 = Done (true, two_arrays.2) /\
  size two_arrays.1 two_arrays.2 = Fault NullDeref.
Proof.
  destruct (only_empty_may_be_asked_of_an_empty_array 2 two_arrays.2 two_arrays.1)
    as (H1 & H2 & _).
  - vm_compute; reflexivity.
  - split; [exact H1|exact H2].
Defined.

(** The construction of a (2,3) array in the empty store. *)
Lemma no_garbage_witness : no_garbage (constructed junk start [2; 3]).2.
Proof.
  apply (no_call_leaves_a_buffer_without_owner Z.add Z.mul 2 junk_int junk rank_2_is_an_int
           start (NewShape (ByList [2; 3]))).
  - apply inv_initial.
  - apply no_garbage_initial.
  - exact I.
  - vm_compute; reflexivity.
Defined.

(** The iterators of the (2,3) array. *)
Lemma iterators_witness :
  begin one_array.1 one_array.2 = Done ((Some 0%nat, 0), one_array.2) /\
  end_ one_array.1 one_array.2 = Done ((Some 0%nat, 6), one_array.2).
Proof.
  destruct (iterators_span_the_element_buffer 2 one_array.2 one_array.1
              (Ndarray (Some 0%nat) (Some 1%nat) (Some 0%nat)))
    as (Hb & _ & _ & He).
  - vm_compute; reflexivity.
  - right. exact one_array_full.
  - split; [exact Hb|].
    exact (proj1 (He [10; 20; 30; 40; 50; 60] ltac:(vm_compute; reflexivity))).
Defined.

Lemma desk_left : holds_matrix (store desk) one_array.1 2 3 [10; 20; 30; 40; 50; 60].
Proof.
  exists 0%nat, 1%nat, 0%nat.
  repeat split; try (vm_compute; reflexivity); try lia; try discriminate.
Qed.

Lemma desk_right : holds_matrix (store desk) two_matrices.1 3 2 [1; 2; 3; 4; 5; 6].
Proof.
  exists 2%nat, 3%nat, 1%nat.
  repeat split; try (vm_compute; reflexivity); try lia; try discriminate.
Qed.

(** The (2,3) matrix times the (3,2) matrix. *)
Lemma product_witness :
  mat_product Z.add Z.mul int_of [10; 20; 30; 40; 50; 60] [1; 2; 3; 4; 5; 6] 2 3 2
  = [220; 280; 490; 640] /\
  exists r w',
    mat_mul Z.add Z.mul int_of junk_int junk one_array.1 two_matrices.1 desk = Done (r, w') /\
    objs (store desk) !! r = None /\
    holds_matrix (store w') r 2 2
      (mat_product Z.add Z.mul int_of [10; 20; 30; 40; 50; 60] [1; 2; 3; 4; 5; 6] 2 3 2) /\
    holds_matrix (store w') one_array.1 2 3 [10; 20; 30; 40; 50; 60] /\
    holds_matrix (store w') two_matrices.1 3 2 [1; 2; 3; 4; 5; 6] /\
    (forall a, a <> r -> objs (store w') !! a = objs (store desk) !! a) /\
    cout w' = cout desk /\ cerr w' = cerr desk.
Proof.
  split; [vm_compute; reflexivity|].
  apply (the_product_is_the_matrix_product Z.add Z.mul int_of junk_int junk desk
           one_array.1 two_matrices.1 2 3 2).
  - exact desk_left.
  - exact desk_right.
  - by vm_compute.
Defined.

(** The (2,3) matrix times itself. *)
Lemma unfit_product_witness :
  exists r w',
    mat_mul Z.add Z.mul int_of junk_int junk one_array.1 one_array.1 desk = Done (r, w') /\
    objs (store desk) !! r = None /\
    holds_matrix (store w') r 2 3 (replicate (2 * 3) (int_of 0)) /\
    holds_matrix (store w') one_array.1 2 3 [10; 20; 30; 40; 50; 60] /\
    holds_matrix (store w') one_array.1 2 3 [10; 20; 30; 40; 50; 60] /\
    (forall a, a <> r -> objs (store w') !! a = objs (store desk) !! a) /\
    cout w' = cout desk /\ cerr w' = cerr desk ++ [Message "Dimension not match!"; Endl].
Proof.
  apply (a_product_of_unfit_matrices_is_zero Z.add Z.mul int_of junk_int junk desk
           one_array.1 one_array.1 2 3 2 3).
  - exact desk_left.
  - exact desk_left.
  - lia.
  - by vm_compute.
Defined.

(** The (2,3) matrix printed. *)
Lemma print_witness :
  print one_array.1 desk
  = Done (tt, World (store desk)
                (cout desk ++ printed int_of [10; 20; 30; 40; 50; 60] 2 3) (cerr desk)).
Proof.
  apply (print_writes_the_rows int_of desk one_array.1 2 3).
  exact desk_left.
Defined.

(** The empty array of [two_arrays], taken as a matrix. *)
Lemma empty_matrix_witness :
  nrow two_arrays.1 two_arrays.2 = Done (0, two_arrays.2) /\
  print two_arrays.1 (World two_arrays.2 [] []) = Fault NullDeref.
Proof.
  destruct (an_empty_matrix_has_no_rows_to_print Z.add Z.mul int_of junk_int junk
              (World two_arrays.2 [] []) two_arrays.1 one_array.1) as (H1 & _ & H3 & _).
  - vm_compute; reflexivity.
  - split; [exact H1|exact H3].
Defined.

(** The (2,3) array returned by value. *)
Lemma return_by_value_witness :
  exists r s',
    return_local one_array.1 one_array.2 = Done (r, s') /\
    objs one_array.2 !! r = None /\
    objs s' !! r = Some (Ndarray (Some 0%nat) (Some 1%nat) (Some 0%nat)) /\
    objs s' !! one_array.1 = None /\
    same_contents one_array.2 one_array.1 s' r /\
    ints s' = ints one_array.2 /\ elems s' = elems one_array.2.
Proof.
  apply (a_local_returned_by_value_hands_over_its_buffers one_array.2 one_array.1).
  vm_compute; reflexivity.
Defined.
